(** * Buffer allocation for tensor dataflow graphs

    A shallow embedding of [geon/util/analysis.py]: the directed graph with its
    depth-first topological sort, the dataflow graph built from a result set,
    the liveness analysis, the fusion pass, the interference graph with its
    greedy weighted colouring, and [assign_buffers] which chains them.

    Conventions of the embedding.
    - An operation and a tensor description are Python objects; each is
      represented by a natural number standing for its identity.  An operation
      is ordered by its [id], which is that number.  What the analysis reads
      from the objects of [geon.op_graph] is collected in the record [OpGraph].
    - A Python [dict] is a [gmap] and a [set] a [gset].  Python iterates a
      dict in the order in which its keys were inserted, and leaves the order
      in which a set is iterated to its hash table.  Where the order plays no
      part (a set that is sorted or collected into a set again) the embedding
      iterates in the order of [elements] and [map_to_list].  Where a result
      depends on the order (the live sets given to the interference graph,
      whose keys make the queue of the colourer; the operations given to
      [bind_initializers]) the function takes a list; [assign_buffers], which
      makes these lists, takes the order as an [iteration], and what is proved
      of a run holds for every order.  [insertion_order] is the order of the
      dicts of a run.
    - The [buffer] attribute of the tensor descriptions is mutable state shared
      by every phase: it is a store, threaded through the functions that write
      it.  The sets held in [neighbors] are mutated in place by the colourer;
      the embedding updates the entry of the map wherever the source mutates
      the set object.
    - A Python exception is a [Raise]; recursion and [while] loops take fuel,
      and [OutOfFuel] is the result of a run cut short. *)

From stdpp Require Import gmap list sorting fin_maps relations.
From Stdlib Require Import ZArith Lia.

Set Warnings "-clear-no-such-hyp".

Abbreviation node := nat.
Abbreviation tensor := nat.

(** ** Results of fallible computations *)

Inductive exn := TypeError | IndexError | KeyError.

Inductive res (A : Type) : Type :=
  | Ok (a : A)
  | Raise (e : exn)
  | OutOfFuel.
Arguments Ok {A} a.
Arguments Raise {A} e.
Arguments OutOfFuel {A}.

#[global] Instance res_ret : MRet res := @Ok.
#[global] Instance res_bind : MBind res := λ A B f m,
  match m with
  | Ok a => f a
  | Raise e => Raise e
  | OutOfFuel => OutOfFuel
  end.

(** A [for] loop whose body may raise. *)
Definition foldM {A B : Type} (f : B → A → res B) : list A → B → res B :=
  fix go l b :=
    match l with
    | [] => Ok b
    | x :: l' => b' ← f b x; go l' b'
    end.

(** [d[k]] on a plain dict. *)
Definition getitem `{Countable K} {V : Type} (d : gmap K V) (k : K) : res V :=
  match d !! k with
  | Some v => Ok v
  | None => Raise KeyError
  end.

(** [l[i]] on a list: a negative index counts from the end. *)
Definition pyindex {A : Type} (l : list A) (i : Z) : res A :=
  let j := if (i <? 0)%Z then (Z.of_nat (length l) + i)%Z else i in
  if (j <? 0)%Z then Raise IndexError
  else match l !! Z.to_nat j with
       | Some x => Ok x
       | None => Raise IndexError
       end.

(** ** The objects of the operation graph *)

(** [Buffer(color, size)], with the [data] attribute that [bind_initializers]
    sets on the buffer of a constant. *)
Record Buffer := mkBuffer {
  color : Z;
  size : Z;
  data : option nat
}.

#[global] Instance Buffer_eq_dec : EqDecision Buffer.
Proof. solve_decision. Defined.

(** The attributes of operations and tensor descriptions read by the analysis.
    [tensor_description op] is [op.tensor_description(transformer)];
    [persistent op] is ['persistent' in op.tags]; [nptensor a] names the
    array [a.nptensor], and [nptensor_size a] is [a.nptensor.size], the number
    of elements of the array; [is_NumPyTensor] and [is_ComputationOp] are the
    [isinstance] tests.  [nptensor_itemsize a] is [a.nptensor.itemsize], the
    bytes of one element of the array: the analysis does not read it. *)
Record OpGraph := {
  args : node → list node;
  defs : node → list node;
  initializers : node → list node;
  tensor_description : node → tensor;
  persistent : node → bool;
  is_NumPyTensor : node → bool;
  is_ComputationOp : node → bool;
  nptensor : node → nat;
  nptensor_size : node → Z;
  nptensor_itemsize : node → Z;
  shape : tensor → list Z;
  itemsize : tensor → Z
}.


(** The [buffer] attribute of every tensor description; absent is [None]. *)
Abbreviation store := (gmap nat Buffer).

(** ** InterferenceGraph *)

(** [itertools.combinations(l, 2)] *)
Fixpoint combinations2 (l : list tensor) : list (tensor * tensor) :=
  match l with
  | [] => []
  | x :: l' => ((λ y, (x, y)) <$> l') ++ combinations2 l'
  end.

(** The keys of a dict filled from [l], in the order of first insertion. *)
Definition first_seen (l : list tensor) : list tensor :=
  foldl (λ acc x, if decide (x ∈ acc) then acc else acc ++ [x]) [] l.

(** [max(1, reduce(mul, x.shape, 1)) * x.dtype.itemsize] *)
Definition weight (G : OpGraph) (x : tensor) : Z :=
  (Z.max 1 (foldl Z.mul 1 (shape G x)) * itemsize G x)%Z.

(** [weights] is kept as the list of its items, in the order of the keys of
    [neighbors], because [color] sorts that sequence. *)
Record InterferenceGraph := mkInterferenceGraph {
  neighbors : gmap tensor (gset tensor);
  weights : list (tensor * Z)
}.

(** [neighbors[u].add(v); neighbors[v].add(u)] *)
Definition add_edge (nb : gmap tensor (gset tensor)) (e : tensor * tensor)
  : res (gmap tensor (gset tensor)) :=
  su ← getitem nb e.1;
  let nb := <[e.1 := su ∪ {[e.2]}]> nb in
  sv ← getitem nb e.2;
  Ok (<[e.2 := sv ∪ {[e.1]}]> nb).

(** [InterferenceGraph.__init__(lives)]; [lives] lists [lives.values()], each
    live set in the order Python iterates it. *)
Definition InterferenceGraph_init (G : OpGraph) (lives : list (list tensor))
  : res InterferenceGraph :=
  let keys := first_seen (concat lives) in
  let neighbors : gmap tensor (gset tensor) := list_to_map ((λ x, (x, ∅)) <$> keys) in
  let edges := l ← lives; combinations2 l in
  neighbors ← foldM add_edge edges neighbors;
  Ok {| neighbors := neighbors; weights := (λ x, (x, weight G x)) <$> keys |}.

(** [sorted(weights, key=lambda x: (weights[x], ), reverse=True)]: Python's
    sort is stable, also when reversed, so items of equal weight keep their
    order. *)
Fixpoint insert_desc (p : tensor * Z) (l : list (tensor * Z)) : list (tensor * Z) :=
  match l with
  | [] => [p]
  | q :: l' => if (p.2 <? q.2)%Z then q :: insert_desc p l' else p :: q :: l'
  end.

Definition sorted_desc (l : list (tensor * Z)) : list (tensor * Z) :=
  foldr insert_desc [] l.

(** [weights[u]] *)
Definition weights_getitem (w : list (tensor * Z)) (u : tensor) : res Z :=
  getitem (list_to_map w : gmap tensor Z) u.

(** The variables of the loop of [color], with the store of [buffer]
    attributes. *)
Record color_state := mkColorState {
  st_neighbors : gmap tensor (gset tensor);
  st_partitions : list (list tensor);
  st_buffers : list Buffer;
  st_store : store
}.

(** One turn of [for x in queue] for the head [u].  [N] is the set object
    [neighbors[u]], not a copy: [N |= neighbors[x]] updates [neighbors[u]].
    [S] lists the partition in the order its members were added. *)
Definition grow (u : tensor) (acc : gmap tensor (gset tensor) * list tensor) (x : tensor)
  : res (gmap tensor (gset tensor) * list tensor) :=
  N ← getitem acc.1 u;
  if decide (x ∈ N) then Ok acc
  else
    nx ← getitem acc.1 x;
    Ok (<[u := N ∪ nx]> acc.1, acc.2 ++ [x]).

(** [for s in S: s.buffer = b] *)
Definition set_buffers (S : list tensor) (b : Buffer) (σ : store) : store :=
  foldl (λ σ s, <[s := b]> σ) σ S.

(** [while queue: ...] *)
Fixpoint color_loop (fuel : nat) (w : list (tensor * Z)) (queue : list tensor)
    (st : color_state) : res color_state :=
  match queue with
  | [] => Ok st
  | u :: queue =>
    match fuel with
    | 0 => OutOfFuel
    | S fuel =>
      _ ← getitem (st_neighbors st) u;
      r ← foldM (grow u) queue (st_neighbors st, [u]);
      let partitions := st_partitions st ++ [r.2] in
      let c := (Z.of_nat (length partitions) - 1)%Z in
      wu ← weights_getitem w u;
      let buffers := st_buffers st ++ [mkBuffer c wu None] in
      let queue := filter (λ x, x ∉ r.2) queue in
      b ← pyindex buffers c;
      color_loop fuel w queue
        {| st_neighbors := r.1; st_partitions := partitions;
           st_buffers := buffers; st_store := set_buffers r.2 b (st_store st) |}
    end
  end.

Definition queue_of (g : InterferenceGraph) : list tensor :=
  (sorted_desc (weights g)).*1.

Definition color_start (g : InterferenceGraph) (σ : store) : color_state :=
  {| st_neighbors := neighbors g; st_partitions := [];
     st_buffers := []; st_store := σ |}.

(** The state in which the loop of [color] ends.  Every turn takes a tensor
    off the queue, so the length of the queue is fuel enough. *)
Definition color_run (g : InterferenceGraph) (σ : store) : res color_state :=
  color_loop (length (queue_of g)) (weights g) (queue_of g) (color_start g σ).

(** [sum([x.size for x in buffers])] *)
Definition total_size (buffers : list Buffer) : Z :=
  foldr Z.add 0%Z (size <$> buffers).

(** [InterferenceGraph.color()]: the pair it returns, the graph as the call
    leaves it, and the store. *)
Definition InterferenceGraph_color (g : InterferenceGraph) (σ : store)
  : res (Z * list Buffer * InterferenceGraph * store) :=
  st ← color_run g σ;
  Ok (total_size (st_buffers st), st_buffers st,
      {| neighbors := st_neighbors st; weights := weights g |}, st_store st).

(** ** Digraph *)

(** [result[y].add(x)]: [result] has the keys of [adjacency] only, so this
    raises [KeyError] for a successor [y] that is not a key. *)
Definition invert_add (x : node) (result : gmap node (gset node)) (y : node)
  : res (gmap node (gset node)) :=
  s ← getitem result y;
  Ok (<[y := s ∪ {[x]}]> result).

(** [Digraph._invert(adjacency)] *)
Definition Digraph_invert (adjacency : gmap node (gset node))
  : res (gmap node (gset node)) :=
  foldM (λ result xo, foldM (invert_add xo.1) (elements xo.2) result)
        (map_to_list adjacency)
        ((λ _, ∅) <$> adjacency).

(** [Digraph.inputs] *)
Definition Digraph_inputs (successors : gmap node (gset node)) : res (list node) :=
  predecessors ← Digraph_invert successors;
  Ok (filter (λ uvs, base.size uvs.2 = 0) (map_to_list predecessors)).*1.

(** [sorted(vs, key=lambda x: x.id)] *)
Definition sorted_by_id (vs : list node) : list node := merge_sort le vs.

(** [if v not in visited: visit(v, fun)], on the pair of the set [visited] and
    the state that the callback [fun] acts on. *)
Definition unless_visited {A : Type}
    (visit : node → gset node * A → res (gset node * A))
    (s : gset node * A) (v : node) : res (gset node * A) :=
  if decide (v ∈ s.1) then Ok s else visit v s.

(** [visit(u, fun)] inside [Digraph.dfs].  When [visit] runs, [inputs] has
    read every successor as a key, so [self.successors[u]] finds [u] whether
    the dict is plain or the [defaultdict] of a dataflow graph. *)
Fixpoint visit {A : Type} (successors : gmap node (gset node)) (fun_ : node → A → A)
    (fuel : nat) (u : node) (s : gset node * A) : res (gset node * A) :=
  match fuel with
  | 0 => OutOfFuel
  | S fuel =>
    if decide (u ∈ s.1) then Ok s
    else
      vs ← getitem successors u;
      s ← foldM (unless_visited (visit successors fun_ fuel))
                (sorted_by_id (elements vs)) s;
      Ok ({[u]} ∪ s.1, fun_ u s.2)
  end.

(** [Digraph.dfs(fun)] *)
Definition Digraph_dfs {A : Type} (successors : gmap node (gset node))
    (fun_ : node → A → A) (fuel : nat) (a : A) : res A :=
  inputs ← Digraph_inputs successors;
  s ← foldM (λ s x, visit successors fun_ fuel x s) (sorted_by_id inputs) (∅, a);
  Ok s.2.

(** [result.insert(0, x)] *)
Definition push (x : node) (result : list node) : list node := x :: result.

(** [Digraph.topsort()] *)
Definition Digraph_topsort (successors : gmap node (gset node)) (fuel : nat)
  : res (list node) :=
  Digraph_dfs successors push fuel [].

(** ** DataFlowGraph *)

Record DataFlowGraph := mkDataFlowGraph {
  successors : gmap node (gset node);
  results : list node
}.

(** [self.successors[k]] on the [defaultdict(set)]. *)
Definition defaultdict_get (d : gmap node (gset node)) (k : node) : gset node :=
  default ∅ (d !! k).

(** [DataFlowGraph._fill_successors(results)] *)
Fixpoint fill_successors (G : OpGraph) (fuel : nat) (results : list node)
    (successors : gmap node (gset node)) : res (gmap node (gset node)) :=
  foldM (λ successors w,
           let successors := <[w := defaultdict_get successors w ∪ ∅]> successors in
           foldM (λ successors v,
                    let successors :=
                      <[v := defaultdict_get successors v ∪ {[w]}]> successors in
                    match fuel with
                    | 0 => OutOfFuel
                    | S fuel => fill_successors G fuel [v] successors
                    end)
                 (args G w) successors)
        results successors.

(** A positional argument of a call. *)
Inductive pyarg :=
  | ATransformer
  | ANodes (l : list node).

(** [DataFlowGraph.__init__(self, transformer, results)], called with the
    given positional arguments after [self]: Python raises [TypeError] when
    their number is not that of the parameters, and when [results] cannot be
    iterated. *)
Definition DataFlowGraph_init (G : OpGraph) (fuel : nat) (positional : list pyarg)
  : res DataFlowGraph :=
  match positional with
  | [_; ANodes results] =>
    successors ← fill_successors G fuel results ∅;
    Ok {| successors := successors; results := results |}
  | _ => Raise TypeError
  end.

(** [DataFlowGraph.instructions] *)
Definition DataFlowGraph_instructions (dfg : DataFlowGraph) (fuel : nat) : res (list node) :=
  Digraph_topsort (successors dfg) fuel.

(** [{x.tensor_description(self.transformer) for x in l}] *)
Definition descriptions (G : OpGraph) (l : list node) : gset tensor :=
  list_to_set (tensor_description G <$> l).

Definition can_do_inplace (x : node) : bool := false.

(** The body of the backward pass, for a pair [(current, previous)]. *)
Definition liveness_back (G : OpGraph) (liveness : gmap node (gset tensor))
    (cp : node * node) : res (gmap node (gset tensor)) :=
  let use := descriptions G (args G cp.1) in
  let defs := descriptions G (defs G cp.1) in
  lc ← getitem liveness cp.1;
  Ok (<[cp.2 := use ∪ (lc ∖ defs)]> liveness).

(** The body of the last loop: [liveness[op] |= uses] unless [op] can work in
    place. *)
Definition liveness_uses (G : OpGraph) (liveness : gmap node (gset tensor))
    (op : node) : res (gmap node (gset tensor)) :=
  if can_do_inplace op then Ok liveness
  else
    l ← getitem liveness op;
    Ok (<[op := l ∪ descriptions G (args G op)]> liveness).

(** [DataFlowGraph.liveness()] *)
Definition DataFlowGraph_liveness (G : OpGraph) (dfg : DataFlowGraph) (fuel : nat)
  : res (gmap node (gset tensor)) :=
  order ← DataFlowGraph_instructions dfg fuel;
  let liveness : gmap node (gset tensor) := list_to_map ((λ op, (op, ∅)) <$> order) in
  let persistent :=
    descriptions G (filter (λ x, persistent G x = true) (elements (dom (successors dfg)))) in
  let results := descriptions G (results dfg) in
  last ← pyindex order (-1);
  let liveness := <[last := results ∪ persistent]> liveness in
  liveness ← foldM (liveness_back G) (reverse (zip (tail order) (removelast order))) liveness;
  foldM (liveness_uses G) order liveness.

(** ** KernelFlowGraph *)

(** The default fusion policy. *)
Definition never_fusible (op1 op2 : node) : bool := false.

(** [KernelFlowGraph._compute_paths()] *)
Definition compute_paths (fusible : node → node → bool)
    (successors : gmap node (gset node)) (fuel : nat)
  : res (gmap node (gset node) * gmap node (gset node)) :=
  order ← Digraph_topsort successors fuel;
  foldM (λ pb v,
           foldM (λ pb w,
                    pv ← getitem pb.1 v;
                    pw ← getitem pb.1 w;
                    let path_from := <[v := pv ∪ pw]> pb.1 in
                    bv ← getitem pb.2 v;
                    if fusible v w then
                      bw ← getitem pb.2 w;
                      Ok (path_from, <[v := bv ∪ bw]> pb.2)
                    else
                      pw ← getitem path_from w;
                      Ok (path_from, <[v := bv ∪ pw]> pb.2))
                 (elements (defaultdict_get successors v))
                 (<[v := {[v]}]> pb.1, <[v := ∅]> pb.2))
        (reverse order) (∅, ∅).

(** [{y for y in ys if w in path_from[y]}] *)
Definition on_path_to (path_from : gmap node (gset node)) (w : node) (ys : list node)
  : res (gset node) :=
  foldM (λ acc y,
           py ← getitem path_from y;
           Ok (if decide (w ∈ py) then acc ∪ {[y]} else acc))
        ys ∅.

(** The [while worklist] loop of [between]; [worklist.pop()] takes the first
    element of the enumeration of the set. *)
Fixpoint between_loop (fuel : nat) (successors path_from : gmap node (gset node))
    (w : node) (worklist vertices : gset node) : res (gset node) :=
  match elements worklist with
  | [] => Ok vertices
  | x :: _ =>
    match fuel with
    | 0 => OutOfFuel
    | S fuel =>
      let worklist := worklist ∖ {[x]} in
      worklist ←
        (if decide (x = w) then Ok worklist
         else
           more ← on_path_to path_from w (elements (defaultdict_get successors x));
           Ok (worklist ∪ more));
      between_loop fuel successors path_from w worklist (vertices ∪ {[x]})
    end
  end.

(** [KernelFlowGraph.between(v, w, path_from)] *)
Definition between (successors path_from : gmap node (gset node)) (fuel : nat)
    (v w : node) : res (gset node) :=
  first ← on_path_to path_from w (elements (defaultdict_get successors v));
  between_loop fuel successors path_from w ({[w]} ∪ first) ∅.

(** [KernelFlowGraph.transfer_edges(v, w, dct)]; [is_defaultdict] tells
    whether [dct[v]] can raise. *)
Definition transfer_edges (is_defaultdict : bool) (v w : node)
    (dct : gmap node (gset node)) : res (gmap node (gset node)) :=
  dv ← (if is_defaultdict then Ok (defaultdict_get dct v) else getitem dct v);
  let moved := default ∅ (dct !! w) ∖ {[v]} in
  let dct := <[v := dv ∪ moved]> (delete w dct) in
  Ok (map_imap (λ node connected,
                  Some (if decide (w ∈ connected)
                        then if decide (node = v) then connected ∖ {[w]}
                             else connected ∖ {[w]} ∪ {[v]}
                        else connected))
               dct).

(** The order of [key=lambda x: (x[0].id, x[1].id)]. *)
Definition edge_le (e1 e2 : node * node) : Prop :=
  e1.1 < e2.1 ∨ (e1.1 = e2.1 ∧ e1.2 ≤ e2.2).

#[global] Instance edge_le_dec : RelDecision edge_le.
Proof. intros e1 e2. unfold edge_le. apply _. Defined.

(** [sorted({(a, b) for a, _ in successors.items() for b in _}, key=...)] *)
Definition sorted_edges (successors : gmap node (gset node)) : list (node * node) :=
  merge_sort edge_le (ab ← map_to_list successors; (λ b, (ab.1, b)) <$> elements ab.2).

Record fusion_state := mkFusionState {
  fs_successors : gmap node (gset node);
  fs_path_from : gmap node (gset node);
  fs_bad_path_from : gmap node (gset node);
  fs_clusters : gmap node (gset node)
}.

(** The body of [for x in to_merge]. *)
Definition merge_into (v : node) (st : fusion_state) (x : node) : res fusion_state :=
  cv ← getitem (fs_clusters st) v;
  cx ← getitem (fs_clusters st) x;
  let clusters := <[v := cv ∪ cx]> (delete x (fs_clusters st)) in
  successors ← transfer_edges true v x (fs_successors st);
  path_from ← transfer_edges false v x (fs_path_from st);
  bad_path_from ← transfer_edges false v x (fs_bad_path_from st);
  Ok {| fs_successors := successors; fs_path_from := path_from;
        fs_bad_path_from := bad_path_from; fs_clusters := clusters |}.

(** [while edges] in [KernelFlowGraph.__init__]; [edges.pop()] takes the last
    edge. *)
Fixpoint fuse_loop (fuel : nat) (edges : list (node * node)) (st : fusion_state)
  : res fusion_state :=
  match reverse edges with
  | [] => Ok st
  | vw :: rest =>
    match fuel with
    | 0 => OutOfFuel
    | S fuel =>
      bv ← getitem (fs_bad_path_from st) vw.1;
      if decide (vw.2 ∈ bv) then fuse_loop fuel (reverse rest) st
      else
        to_merge ← between (fs_successors st) (fs_path_from st) fuel vw.1 vw.2;
        st ← foldM (merge_into vw.1) (elements to_merge) st;
        fuse_loop fuel (sorted_edges (fs_successors st)) st
    end
  end.

(** A node of the fused graph: [Function(y)] made for the cluster of [rep], or
    the original node. *)
Inductive cluster_node :=
  | Function (rep : node) (ops : gmap node (gset node))
  | Unwrapped (x : node).

(** [extract_subgraph(R)] *)
Definition extract_subgraph (dataflow_successors : gmap node (gset node)) (R : gset node)
  : gmap node (gset node) :=
  (λ b, b ∩ R) <$> filter (λ ab, ab.1 ∈ R) dataflow_successors.

(** [Function(y) if isinstance(x, ComputationOp) else x], for [y] the
    subgraph extracted for the cluster [R] of [x]. *)
Definition wrap_cluster (G : OpGraph) (dataflow_successors : gmap node (gset node))
    (x : node) (R : gset node) : cluster_node :=
  if is_ComputationOp G x then Function x (extract_subgraph dataflow_successors R)
  else Unwrapped x.

(** The two comprehensions that rebuild [clusters]. *)
Definition wrap_clusters (G : OpGraph) (dataflow_successors : gmap node (gset node))
    (clusters : gmap node (gset node)) : gmap node cluster_node :=
  map_imap (λ x R, Some (wrap_cluster G dataflow_successors x R)) clusters.

(** [{clusters[a]: {clusters[b] for b in lst} for a, lst in successors.items()}] *)
Definition outer_successors (clusters : gmap node cluster_node)
    (successors : gmap node (gset node)) : res (list (cluster_node * list cluster_node)) :=
  mapM (λ alst,
          ca ← getitem clusters alst.1;
          cbs ← mapM (getitem clusters) (elements alst.2);
          Ok (ca, cbs))
       (map_to_list successors).

Record KernelFlowGraph := mkKernelFlowGraph {
  kfg_successors : list (cluster_node * list cluster_node);
  kfg_results : list node;
  kfg_dataflow : DataFlowGraph
}.

(** [KernelFlowGraph.__init__] from the line after the call of the parent
    constructor, which has made [self]. *)
Definition KernelFlowGraph_fuse (G : OpGraph) (fuel : nat) (fusible : node → node → bool)
    (self dataflow : DataFlowGraph) : res KernelFlowGraph :=
  pb ← compute_paths fusible (successors self) fuel;
  let edges := sorted_edges (successors self) in
  let clusters : gmap node (gset node) :=
    list_to_map ((λ x, (x, {[x]})) <$> (e ← edges; [e.1; e.2])) in
  st ← fuse_loop fuel edges
         {| fs_successors := successors self; fs_path_from := pb.1;
            fs_bad_path_from := pb.2; fs_clusters := clusters |};
  let clusters := wrap_clusters G (successors dataflow) (fs_clusters st) in
  outer ← outer_successors clusters (fs_successors st);
  Ok {| kfg_successors := outer; kfg_results := results self; kfg_dataflow := dataflow |}.

(** [KernelFlowGraph.__init__(self, dataflow, fusible)]: the parent constructor
    is called as [super(KernelFlowGraph, self).__init__(dataflow.results)],
    with one positional argument. *)
Definition KernelFlowGraph_init (G : OpGraph) (fuel : nat) (dataflow : DataFlowGraph)
    (fusible : node → node → bool) : res KernelFlowGraph :=
  self ← DataFlowGraph_init G fuel [ANodes (results dataflow)];
  KernelFlowGraph_fuse G fuel fusible self dataflow.

(** The fused graph read as a dataflow graph, each node under the number of
    its representative. *)
Definition rep_of (c : cluster_node) : node :=
  match c with
  | Function rep _ => rep
  | Unwrapped x => x
  end.

Definition fused_view (kfg : KernelFlowGraph) : DataFlowGraph :=
  {| successors :=
       list_to_map ((λ ab, (rep_of ab.1, list_to_set (rep_of <$> ab.2))) <$> kfg_successors kfg);
     results := kfg_results kfg |}.

(** ** assign_buffers *)

(** [t.buffer = b] *)
Definition set_buffer (t : tensor) (b : option Buffer) (σ : store) : store :=
  match b with
  | Some b => <[t := b]> σ
  | None => delete t σ
  end.

(** The buffer of a constant: [Buffer(-1, a.nptensor.size)] with
    [data = a.nptensor]. *)
Definition constant_buffer (G : OpGraph) (a : node) : Buffer :=
  mkBuffer (-1) (nptensor_size G a) (Some (nptensor G a)).

(** [for a in i.args] *)
Definition bind_constants (G : OpGraph) (i : node) (σ : store) : store :=
  foldl (λ σ a, if is_NumPyTensor G a
                then <[tensor_description G a := constant_buffer G a]> σ
                else σ)
        σ (args G i).

(** [for i in op.initializers] *)
Definition bind_op (G : OpGraph) (σ : store) (op : node) : store :=
  let buffer := σ !! tensor_description G op in
  foldl (λ σ i, bind_constants G i (set_buffer (tensor_description G i) buffer σ))
        σ (initializers G op).

(** [bind_initializers(transformer, ops)] *)
Definition bind_initializers (G : OpGraph) (ops : list node) (σ : store) : store :=
  foldl (bind_op G) σ ops.

(** ** The order of iteration *)

(** [assign_buffers] iterates three containers whose order shows in what it
    returns: the dict [lives] and each of its live sets, in
    [InterferenceGraph.__init__], and the list [dfg.inputs], made in the order
    of the keys of a dict, in [bind_initializers].  A run takes the three
    orders as ranks: a container is iterated by increasing rank, and elements
    of one rank in the order of [elements] and [map_to_list].  Any order of a
    container is that of a rank, the position in the order
    ([iterate_any_order]). *)
Record iteration := mkIteration {
  rank_instruction : node → nat;
  rank_tensor : node → tensor → nat;
  rank_key : node → nat
}.

Definition by_rank {A : Type} (rank : A → nat) : relation A :=
  λ x y, rank x ≤ rank y.

#[global] Instance by_rank_dec {A : Type} (rank : A → nat) : RelDecision (by_rank rank).
Proof. intros x y. unfold by_rank. apply _. Defined.

#[global] Instance by_rank_total {A : Type} (rank : A → nat) : Total (by_rank rank).
Proof. intros x y. unfold by_rank. lia. Qed.

#[global] Instance by_rank_trans {A : Type} (rank : A → nat) : Transitive (by_rank rank).
Proof. intros x y z. unfold by_rank. lia. Qed.

(** The elements of [l] in the order of their ranks. *)
Definition iterate {A : Type} (rank : A → nat) (l : list A) : list A :=
  merge_sort (by_rank rank) l.

(** [list(lives.values())], each live set as the list of its iteration. *)
Definition lives_values (ι : iteration) (lives : gmap node (gset tensor))
  : list (list tensor) :=
  (λ kl, iterate (rank_tensor ι kl.1) (elements kl.2))
    <$> iterate (λ kl, rank_instruction ι kl.1) (map_to_list lives).

(** The position of [x] in [l]; the length of [l] when [x] is not in it. *)
Fixpoint position (l : list node) (x : node) : nat :=
  match l with
  | [] => 0
  | y :: l' => if decide (x = y) then 0 else S (position l' x)
  end.

(** The keys of a dict after [d[k]] on a [defaultdict] or [d[k] = v]: a new
    key is added after the others. *)
Definition touch (k : node) (keys : list node) : list node :=
  if decide (k ∈ keys) then keys else keys ++ [k].

(** The keys of [successors] in the order in which
    [DataFlowGraph._fill_successors(results)] inserts them. *)
Fixpoint fill_keys (G : OpGraph) (fuel : nat) (results : list node)
    (keys : list node) : res (list node) :=
  foldM (λ keys w,
           let keys := touch w keys in
           foldM (λ keys v,
                    let keys := touch v keys in
                    match fuel with
                    | 0 => OutOfFuel
                    | S fuel => fill_keys G fuel [v] keys
                    end)
                 (args G w) keys)
        results keys.

(** The order of the dicts of a run of [assign_buffers] on [results] without
    a policy.  [liveness] makes its dict from the list of instructions, so
    [lives.values()] follows the instructions; [_invert] makes [predecessors]
    from the keys of [successors], so [dfg.inputs] follows the keys of
    [successors].  The order of a set of tensor descriptions is that of their
    hashes, which the source does not fix: here that of their numbers. *)
Definition insertion_order (G : OpGraph) (fuel : nat) (results : list node) : iteration :=
  let order :=
    match (dfg ← DataFlowGraph_init G fuel [ATransformer; ANodes results];
           DataFlowGraph_instructions dfg fuel) with
    | Ok order => order
    | _ => []
    end in
  let keys :=
    match fill_keys G fuel results [] with
    | Ok keys => keys
    | _ => []
    end in
  {| rank_instruction := position order;
     rank_tensor := λ _ t, t;
     rank_key := position keys |}.

(** ** The run of assign_buffers *)

(** The local variables of [assign_buffers] when it returns, with the store
    as [color] left it and as [bind_initializers] left it. *)
Record assignment := mkAssignment {
  as_dfg : DataFlowGraph;
  as_memory : Z;
  as_buffers : list Buffer;
  as_ifg : InterferenceGraph;
  as_colored : store;
  as_store : store
}.

(** [assign_buffers(transformer, results, fusible)] up to [return], iterating
    in the order [ι]; the graphviz [style] set on the operations is not
    modelled. *)
Definition assign_buffers_run (G : OpGraph) (ι : iteration) (fuel : nat)
    (results : list node) (fusible : option (node → node → bool)) (σ : store)
  : res assignment :=
  dfg ← DataFlowGraph_init G fuel [ATransformer; ANodes results];
  dfg ← match fusible with
        | Some f => kfg ← KernelFlowGraph_init G fuel dfg f; Ok (fused_view kfg)
        | None => Ok dfg
        end;
  lives ← DataFlowGraph_liveness G dfg fuel;
  ifg ← InterferenceGraph_init G (lives_values ι lives);
  colored ← InterferenceGraph_color ifg σ;
  inputs ← Digraph_inputs (successors dfg);
  Ok {| as_dfg := dfg; as_memory := colored.1.1.1; as_buffers := colored.1.1.2;
        as_ifg := colored.1.2; as_colored := colored.2;
        as_store := bind_initializers G (iterate (rank_key ι) inputs) colored.2 |}.

(** What [assign_buffers] returns, and the store it leaves. *)
Definition assign_buffers (G : OpGraph) (ι : iteration) (fuel : nat)
    (results : list node) (fusible : option (node → node → bool)) (σ : store)
  : res (DataFlowGraph * Z * store) :=
  a ← assign_buffers_run G ι fuel results fusible σ;
  Ok (as_dfg a, as_memory a, as_store a).

(** ** Notions used to state and prove the properties of the colourer *)

(** What the inner loop of [color] computes from the neighbour sets [f], the
    excluded set [N] it starts with and the queue: the excluded set it ends
    with, and the tensors it adds after the head. *)
Fixpoint scan (f : tensor → gset tensor) (N : gset tensor) (q : list tensor)
  : gset tensor * list tensor :=
  match q with
  | [] => (N, [])
  | x :: q' =>
    if decide (x ∈ N) then scan f N q'
    else let r := scan f (N ∪ f x) q' in (r.1, x :: r.2)
  end.

(** The state after one turn of the [while] loop for the head [u], whose
    excluded set starts as [N]. *)
Definition turn (f : tensor → gset tensor) (N : gset tensor) (u : tensor)
    (q : list tensor) (wu : Z) (st : color_state) : color_state :=
  let r := scan f N q in
  let b := mkBuffer (Z.of_nat (length (st_partitions st))) wu None in
  {| st_neighbors := <[u := r.1]> (st_neighbors st);
     st_partitions := st_partitions st ++ [u :: r.2];
     st_buffers := st_buffers st ++ [b];
     st_store := set_buffers (u :: r.2) b (st_store st) |}.

(** The turns the loop takes on a queue when every queued tensor still has
    the neighbour set [f] gives it. *)
Inductive rounds (f : tensor → gset tensor) (w : list (tensor * Z))
  : list tensor → color_state → color_state → Prop :=
  | rounds_done st : rounds f w [] st st
  | rounds_turn u q st st' wu :
      weights_getitem w u = Ok wu →
      rounds f w (filter (λ x, x ∉ u :: (scan f (f u) q).2) q) (turn f (f u) u q wu st) st' →
      rounds f w (u :: q) st st'.

(** Properties of neighbour sets, and of a partition with respect to them. *)
Definition symmetric (f : tensor → gset tensor) : Prop := ∀ x y, y ∈ f x → x ∈ f y.

Definition irreflexive (f : tensor → gset tensor) : Prop := ∀ x, x ∉ f x.

Definition independent (f : tensor → gset tensor) (S : list tensor) : Prop :=
  ∀ x y, x ∈ S → y ∈ S → x ≠ y → y ∉ f x.

(** What a run of the loop from [st] on [q] says about the partition of
    colour [k]. *)
Definition turn_of (f : tensor → gset tensor) (w : list (tensor * Z))
    (q : list tensor) (st' : color_state) (k : nat) (S : list tensor) : Prop :=
  ∃ u qk wu,
    S = u :: (scan f (f u) qk).2
    ∧ u :: qk `sublist_of` q
    ∧ weights_getitem w u = Ok wu
    ∧ st_buffers st' !! k = Some (mkBuffer (Z.of_nat k) wu None)
    ∧ st_neighbors st' !! u = Some (scan f (f u) qk).1
    ∧ ∀ s, s ∈ S → st_store st' !! s = Some (mkBuffer (Z.of_nat k) wu None).

(** [u] and [v] are in one live set: for different tensors, the interference
    edge. *)
Definition live_together (lives : list (list tensor)) (u v : tensor) : Prop :=
  ∃ l, l ∈ lives ∧ u ∈ l ∧ v ∈ l.

(** The neighbour set a map gives to [x], empty for a tensor it has not. *)
Definition neighbors_of (nb : gmap tensor (gset tensor)) (x : tensor) : gset tensor :=
  default ∅ (nb !! x).

(** A state of the loop with another store. *)
Definition with_store (st : color_state) (σ : store) : color_state :=
  {| st_neighbors := st_neighbors st; st_partitions := st_partitions st;
     st_buffers := st_buffers st; st_store := σ |}.

(** The order of the sorted queue. *)
Definition heavier (p q : tensor * Z) : Prop := (q.2 ≤ p.2)%Z.

(** What [InterferenceGraph.__init__] hands to [color]. *)
Record init_facts (G : OpGraph) (lives : list (list tensor))
    (g : InterferenceGraph) : Prop := {
  if_keys : ∀ u, is_Some (neighbors g !! u) ↔ u ∈ concat lives;
  if_sym : symmetric (neighbors_of (neighbors g));
  if_adj : ∀ u v, u ≠ v → live_together lives u v → v ∈ neighbors_of (neighbors g) u;
  if_live : ∀ u v, v ∈ neighbors_of (neighbors g) u → live_together lives u v;
  if_irrefl : Forall NoDup lives → irreflexive (neighbors_of (neighbors g));
  if_queue : ∀ x, x ∈ queue_of g ↔ x ∈ concat lives;
  if_NoDup : NoDup (queue_of g);
  if_weight : ∀ x, x ∈ concat lives → weights_getitem (weights g) x = Ok (weight G x);
  if_sorted : StronglySorted (λ x y, (weight G y ≤ weight G x)%Z) (queue_of g)
}.

(** The memory the tensors of [l] take when each has a buffer of its own. *)
Definition total_weight (G : OpGraph) (l : list tensor) : Z :=
  foldr Z.add 0%Z (weight G <$> l).

(** ** Notions used to state and prove the properties of the graphs *)

(** [w] is a successor of [v]. *)
Definition edge (G : gmap node (gset node)) (v w : node) : Prop :=
  ∃ ws, G !! v = Some ws ∧ w ∈ ws.

(** Every successor is a key of the map. *)
Definition closed (G : gmap node (gset node)) : Prop :=
  ∀ v w, edge G v w → is_Some (G !! w).

(** No node reaches itself along one or more edges. *)
Definition acyclic (G : gmap node (gset node)) : Prop :=
  ∀ v, ¬ tc (edge G) v v.

(** [v] comes before [w] in [l]. *)
Definition before (l : list node) (v w : node) : Prop :=
  ∃ l1 l2 l3, l = l1 ++ v :: l2 ++ w :: l3.

(** Depth of a node in a finite acyclic relation. *)
Inductive depth_le (R : relation node) : node → nat → Prop :=
  | depth_le_intro u n : (∀ v, R u v → depth_le R v n) → depth_le R u (S n).

(** Every element has its successors further in the list. *)
Inductive topo (R : relation node) : list node → Prop :=
  | topo_nil : topo R []
  | topo_cons u l : (∀ w, R u w → w ∈ l) → topo R l → topo R (u :: l).

(** What holds of [visited] and of the list built by [topsort] between two
    calls of [visit]. *)
Definition dfs_inv (G : gmap node (gset node)) (s : gset node * list node) : Prop :=
  NoDup s.2 ∧ (∀ x, x ∈ s.2 ↔ x ∈ s.1) ∧ topo (edge G) s.2.

(** What a call of [visit] on [u] from [s] leaves in [s']. *)
Definition visit_post (G : gmap node (gset node)) (u : node)
    (s s' : gset node * list node) : Prop :=
  dfs_inv G s' ∧ u ∈ s'.1 ∧ s.1 ⊆ s'.1 ∧ ∀ x, x ∈ s'.1 → x ∈ s.1 ∨ rtc (edge G) u x.

(** ** Notions used to state and prove the properties of the dataflow graph *)

(** [w] has [v] among its arguments. *)
Definition uses (G : OpGraph) (w v : node) : Prop := v ∈ args G w.

(** The body of the inner loop of [_fill_successors], for the argument [v]
    of [w]. *)
Definition fill_arg (G : OpGraph) (fuel : nat) (w : node)
    (successors : gmap node (gset node)) (v : node) : res (gmap node (gset node)) :=
  let successors := <[v := defaultdict_get successors v ∪ {[w]}]> successors in
  match fuel with
  | 0 => OutOfFuel
  | S fuel => fill_successors G fuel [v] successors
  end.

(** A key of the map whose arguments all list it as a successor, and whose
    arguments are at most [n] deep. *)
Definition filled (G : OpGraph) (n : nat) (s : gmap node (gset node)) (k : node) : Prop :=
  depth_le (uses G) k n ∧ ∀ v, v ∈ args G k → k ∈ defaultdict_get s v.

(** How [_fill_successors] extends the map [s] to [s']. *)
Record fill_post (G : OpGraph) (n : nat) (s s' : gmap node (gset node)) : Prop := {
  fp_keys : ∀ k, is_Some (s !! k) → is_Some (s' !! k);
  fp_mono : ∀ v, defaultdict_get s v ⊆ defaultdict_get s' v;
  fp_new_keys : ∀ k, is_Some (s' !! k) → is_Some (s !! k) ∨ filled G n s' k;
  fp_new_edges : ∀ v w, w ∈ defaultdict_get s' v →
    w ∈ defaultdict_get s v ∨ (v ∈ args G w ∧ is_Some (s' !! w))
}.

(** What holds between two calls of [visit] when nothing is assumed of the
    graph: the nodes visited are on no cycle. *)
Definition dfs_sound (G : gmap node (gset node)) (s : gset node * list node) : Prop :=
  dfs_inv G s ∧ ∀ x, x ∈ s.1 → ¬ tc (edge G) x x.

(** ** Notions used to state the properties of the liveness analysis *)

(** The tensors live before the instructions [rest] run, when [R] is live
    after the last of them: the backward equation of [liveness]. *)
Fixpoint live_before (G : OpGraph) (R : gset tensor) (rest : list node) : gset tensor :=
  match rest with
  | [] => R
  | c :: rest =>
    descriptions G (args G c) ∪ (live_before G R rest ∖ descriptions G (defs G c))
  end.

(** [t] is needed by [rest]: one of the instructions reads it and none before
    that one defines it, or it is in [R] and no instruction defines it. *)
Definition needed (G : OpGraph) (R : gset tensor) (rest : list node) (t : tensor) : Prop :=
  (∃ l1 c l2, rest = l1 ++ c :: l2 ∧ t ∈ descriptions G (args G c)
              ∧ ∀ d, d ∈ l1 → t ∉ descriptions G (defs G d))
  ∨ (t ∈ R ∧ ∀ d, d ∈ rest → t ∉ descriptions G (defs G d)).

(** What is live after the last instruction: the results and the persistent
    tensors. *)
Definition live_at_end (G : OpGraph) (dfg : DataFlowGraph) : gset tensor :=
  descriptions G (results dfg)
  ∪ descriptions G (filter (λ x, persistent G x = true) (elements (dom (successors dfg)))).

(** The state of [dfs] running with the callback [fun_] from [a], for the
    state [s] of [topsort]: the same visited set, and the callback applied to
    the nodes of the list from the last to the first. *)
Definition applied {A : Type} (fun_ : node → A → A) (a : A) (s : gset node * list node)
    : gset node * A :=
  (s.1, foldr fun_ a s.2).

(** ** Notions used to relate the order of the keys to the dataflow graph *)

(** [keys] lists the keys of [s], each once. *)
Definition keys_of (s : gmap node (gset node)) (keys : list node) : Prop :=
  NoDup keys ∧ ∀ k, k ∈ keys ↔ is_Some (s !! k).

(** Two runs that fail alike, or return results related by [R]. *)
Definition alike {A B} (R : A → B → Prop) (x : res A) (y : res B) : Prop :=
  match x, y with
  | Ok a, Ok b => R a b
  | Raise e, Raise e' => e = e'
  | OutOfFuel, OutOfFuel => True
  | _, _ => False
  end.

(** ** Notions used to state and prove the properties of the fusion and of the bindings *)

(** The assignments [bind_initializers] makes, in order: a write is the
    tensor description and the value its [buffer] attribute receives. *)
Definition apply_writes (σ : store) (ws : list (tensor * option Buffer)) : store :=
  foldl (λ σ w, set_buffer w.1 w.2 σ) σ ws.

Definition writes_of_constants (G : OpGraph) (i : node) : list (tensor * option Buffer) :=
  (λ a, (tensor_description G a, Some (constant_buffer G a)))
    <$> filter (λ a, is_NumPyTensor G a = true) (args G i).

Definition writes_of_op (G : OpGraph) (buffer : option Buffer) (op : node)
  : list (tensor * option Buffer) :=
  i ← initializers G op; (tensor_description G i, buffer) :: writes_of_constants G i.





(** The value of [t] in two stores after the same run: the same in both, or
    in each what the run found. *)
Definition written_alike (σ1 σ2 σ1' σ2' : store) (t : tensor) : Prop :=
  σ1' !! t = σ2' !! t ∨ (σ1' !! t = σ1 !! t ∧ σ2' !! t = σ2 !! t).

(** A store gives [t] a buffer that satisfies [P]. *)
Definition holds_at (P : Buffer → Prop) (σ : store) (t : tensor) : Prop :=
  ∃ b, σ !! t = Some b ∧ P b.

(** A buffer the colourer has made, or the buffer of a constant. *)
Definition allocated (G : OpGraph) (buffers : list Buffer) (b : Buffer) : Prop :=
  b ∈ buffers ∨ ∃ c, b = constant_buffer G c.

(** ** Notions used to state the properties of the fusion *)

(** [w] merged into [v]. *)
Definition merged (v w z : node) : node := if decide (z = w) then v else z.

(** The edges of [R] after [w] is merged into [v]: the merged ends of an
    edge, but no loop on [v] from an edge that had an end in [w]. *)
Definition contracted (v w : node) (R : relation node) : relation node :=
  λ x y, ∃ x0 y0, R x0 y0 ∧ merged v w x0 = x ∧ merged v w y0 = y
                  ∧ (x = v → y = v → x0 = v ∧ y0 = v).

(** A path from [v] to [x] with an edge that may not be fused: what
    [bad_path_from[v]] is to hold. *)
Inductive bad_path (fusible : node → node → bool) (G : gmap node (gset node))
  : node → node → Prop :=
  | bad_path_here v w x :
      edge G v w → fusible v w = false → rtc (edge G) w x → bad_path fusible G v x
  | bad_path_later v w x :
      edge G v w → fusible v w = true → bad_path fusible G w x → bad_path fusible G v x.

(** The two maps of [_compute_paths] are right at [v]. *)
Definition paths_good (fusible : node → node → bool) (G : gmap node (gset node))
    (pb : gmap node (gset node) * gmap node (gset node)) (v : node) : Prop :=
  ∃ p b, pb.1 !! v = Some p ∧ pb.2 !! v = Some b
         ∧ (∀ x, x ∈ p ↔ rtc (edge G) v x)
         ∧ ∀ x, x ∈ b ↔ bad_path fusible G v x.

(** The body of the inner loop of [_compute_paths]. *)
Definition paths_step (fusible : node → node → bool) (v : node)
    (pb : gmap node (gset node) * gmap node (gset node)) (w : node)
  : res (gmap node (gset node) * gmap node (gset node)) :=
  pv ← getitem pb.1 v;
  pw ← getitem pb.1 w;
  let path_from := <[v := pv ∪ pw]> pb.1 in
  bv ← getitem pb.2 v;
  if fusible v w then
    bw ← getitem pb.2 w;
    Ok (path_from, <[v := bv ∪ bw]> pb.2)
  else
    pw ← getitem path_from w;
    Ok (path_from, <[v := bv ∪ pw]> pb.2).

(** The node that the fusion makes of an operation left alone. *)
Definition wrap_alone (G : OpGraph) (dataflow : DataFlowGraph) (x : node) : cluster_node :=
  wrap_cluster G (successors dataflow) x {[x]}.

(** [clusters] splits the nodes [U]: every node of [U] is in one cluster and
    in no other, and the key of a cluster is one of its nodes. *)
Record clusters_partition (clusters : gmap node (gset node)) (U : gset node) : Prop := {
  cp_cover : ∀ x, x ∈ U ↔ ∃ r R, clusters !! r = Some R ∧ x ∈ R;
  cp_disjoint : ∀ r1 r2 R1 R2 x,
    clusters !! r1 = Some R1 → clusters !! r2 = Some R2 → x ∈ R1 → x ∈ R2 → r1 = r2;
  cp_rep : ∀ r R, clusters !! r = Some R → r ∈ R
}.



(** ** A graph to run the analysis on *)

(** A variable [0] read by two operations [1] and [2] whose results a third,
    [3], combines.  The variable has an initializer [8] that reads the
    constant [9]; the operation [3] has an initializer [7]. *)
Definition example_ops : OpGraph :=
  {| args := λ n, match n with 3 => [1; 2] | 1 => [0] | 2 => [0] | 8 => [9] | _ => [] end;
     defs := λ n, [n];
     initializers := λ n, match n with 3 => [7] | 0 => [8] | _ => [] end;
     tensor_description := λ n, n + 10;
     persistent := λ _, false;
     is_NumPyTensor := λ n, match n with 9 => true | _ => false end;
     is_ComputationOp := λ n, match n with 0 => false | _ => true end;
     nptensor := id;
     nptensor_size := λ _, 5%Z;
     nptensor_itemsize := λ _, 4%Z;
     shape := λ x, [Z.of_nat x; 2%Z];
     itemsize := λ _, 4%Z |}.

Definition example_successors : gmap node (gset node) :=
  {[ 0 := {[1; 2]}; 1 := {[3]}; 2 := {[3]}; 3 := ∅ ]}.

Definition example_dataflow : DataFlowGraph :=
  {| successors := example_successors; results := [3] |}.

(** The order in which the run on that graph iterates its dicts. *)
Definition example_order : iteration := insertion_order example_ops 4 [3].

(** An order that ranks nothing: every container is iterated in the order of
    [elements] and [map_to_list]. *)
Definition unranked : iteration :=
  {| rank_instruction := λ _, 0; rank_tensor := λ _ _, 0; rank_key := λ _, 0 |}.

(** Two live sets with a tensor in common. *)
Definition overlapping_lives : list (list tensor) := [[11; 12]; [12; 13]].

(** Two variables [0] and [5] read by one operation [3], with one initializer
    [8] that both variables list. *)
Definition shared_ops : OpGraph :=
  {| args := λ n, match n with 3 => [0; 5] | _ => [] end;
     defs := λ n, [n];
     initializers := λ n, match n with 0 => [8] | 5 => [8] | _ => [] end;
     tensor_description := λ n, n + 10;
     persistent := λ _, false;
     is_NumPyTensor := λ _, false;
     is_ComputationOp := λ n, match n with 3 => true | _ => false end;
     nptensor := id;
     nptensor_size := λ _, 5%Z;
     nptensor_itemsize := λ _, 4%Z;
     shape := λ x, [Z.of_nat x; 2%Z];
     itemsize := λ _, 4%Z |}.

(** A chain of five operations of one size, each reading the one before. *)
Definition chain_ops : OpGraph :=
  {| args := λ n, match n with 1 => [0] | 2 => [1] | 3 => [2] | 4 => [3] | _ => [] end;
     defs := λ n, [n];
     initializers := λ _, [];
     tensor_description := λ n, n + 10;
     persistent := λ _, false;
     is_NumPyTensor := λ _, false;
     is_ComputationOp := λ _, true;
     nptensor := id;
     nptensor_size := λ _, 0%Z;
     nptensor_itemsize := λ _, 4%Z;
     shape := λ _, [2%Z; 3%Z];
     itemsize := λ _, 4%Z |}.

(** A chain [0], [2], [1], [3] of operations of one size: the instructions do
    not come in the order of their numbers. *)
Definition detour_ops : OpGraph :=
  {| args := λ n, match n with 2 => [0] | 1 => [2] | 3 => [1] | _ => [] end;
     defs := λ n, [n];
     initializers := λ _, [];
     tensor_description := λ n, n + 10;
     persistent := λ _, false;
     is_NumPyTensor := λ _, false;
     is_ComputationOp := λ _, true;
     nptensor := id;
     nptensor_size := λ _, 0%Z;
     nptensor_itemsize := λ _, 4%Z;
     shape := λ _, [2%Z; 3%Z];
     itemsize := λ _, 4%Z |}.

(** A node [0] that leads to the cycle of [1] and [2]. *)
Definition looping_successors : gmap node (gset node) :=
  {[ 0 := {[1]}; 1 := {[2]}; 2 := {[1]} ]}.

(** Operations [1] and [2] that read each other, below the result [0]. *)
Definition looping_ops : OpGraph :=
  {| args := λ n, match n with 0 => [1] | 1 => [2] | 2 => [1] | _ => [] end;
     defs := λ n, [n];
     initializers := λ _, [];
     tensor_description := λ n, n + 10;
     persistent := λ _, false;
     is_NumPyTensor := λ _, false;
     is_ComputationOp := λ _, true;
     nptensor := id;
     nptensor_size := λ _, 0%Z;
     nptensor_itemsize := λ _, 4%Z;
     shape := λ _, [2%Z; 3%Z];
     itemsize := λ _, 4%Z |}.

(** The two maps of [_compute_paths] for the example graph under a policy
    that fuses every pair. *)
Definition example_paths : gmap node (gset node) * gmap node (gset node) :=
  match compute_paths (λ _ _, true) example_successors 10 with
  | Ok pb => pb
  | _ => (∅, ∅)
  end.

(** ** Facts: the result monad and the colourer *)

Lemma bind_Ok {A B} (m : res A) (f : A → res B) b :
  m ≫= f = Ok b ↔ ∃ a, m = Ok a ∧ f a = Ok b.
Proof.
  destruct m; simpl; split; try (intros [a' [? ?]]); try discriminate; eauto.
  simplify_eq. done.
Qed.

Lemma getitem_Ok `{Countable K} {V} (d : gmap K V) k v :
  getitem d k = Ok v ↔ d !! k = Some v.
Proof. unfold getitem. destruct (d !! k); split; intros; simplify_eq; done. Qed.

Lemma getitem_Some `{Countable K} {V} (d : gmap K V) k v :
  d !! k = Some v → getitem d k = Ok v.
Proof. apply getitem_Ok. Qed.

Lemma pyindex_last {A} (l : list A) (x : A) :
  pyindex (l ++ [x]) (Z.of_nat (length (l ++ [x])) - 1) = Ok x.
Proof.
  unfold pyindex. rewrite length_app. simpl.
  assert (Z.of_nat (length l + 1) - 1 = Z.of_nat (length l))%Z as -> by lia.
  assert (Z.ltb (Z.of_nat (length l)) 0 = false) as Hlt by (apply Z.ltb_ge; lia).
  rewrite !Hlt. rewrite Nat2Z.id, list_lookup_middle by done. done.
Qed.

Lemma foldM_cons {A B} (f : B → A → res B) x l b :
  foldM f (x :: l) b = f b x ≫= foldM f l.
Proof. reflexivity. Qed.

Lemma grow_eq u nb S0 x N0 :
  nb !! u = Some N0 →
  grow u (nb, S0) x
  = if decide (x ∈ N0) then Ok (nb, S0)
    else nx ← getitem nb x; Ok (<[u := N0 ∪ nx]> nb, S0 ++ [x]).
Proof. intros Hu. unfold grow. cbn [fst snd]. by rewrite (getitem_Some _ _ _ Hu). Qed.

Lemma foldM_grow f u q : ∀ nb S0 N0,
  nb !! u = Some N0 → u ∉ q → (∀ x, x ∈ q → nb !! x = Some (f x)) →
  foldM (grow u) q (nb, S0)
  = Ok (<[u := (scan f N0 q).1]> nb, S0 ++ (scan f N0 q).2).
Proof.
  induction q as [|x q IH]; intros nb S0 N0 Hu Hnot Hq.
  - simpl. by rewrite insert_id, app_nil_r.
  - apply not_elem_of_cons in Hnot as [Hxu Hnot].
    rewrite foldM_cons, (grow_eq _ _ _ _ _ Hu). simpl.
    destruct (decide (x ∈ N0)) as [Hin|Hin]; simpl.
    + apply IH; auto. intros y Hy. apply Hq. by right.
    + rewrite (getitem_Some nb x (f x)) by (apply Hq; left). simpl.
      rewrite (IH _ _ (N0 ∪ f x)).
      * by rewrite insert_insert_eq, <- app_assoc.
      * by rewrite lookup_insert_eq.
      * done.
      * intros y Hy. rewrite lookup_insert_ne; [apply Hq; by right|].
        intros ->. done.
Qed.

Lemma scan_sublist f q : ∀ N, (scan f N q).2 `sublist_of` q.
Proof.
  induction q as [|x q IH]; intros N; simpl; [done|].
  destruct (decide (x ∈ N)); simpl.
  - by apply sublist_cons.
  - by apply sublist_skip.
Qed.

Lemma pyindex_snoc {A} (l : list A) (x : A) n :
  n = length l → pyindex (l ++ [x]) (Z.of_nat n) = Ok x.
Proof.
  intros ->. rewrite <- (pyindex_last l x) at 1. f_equal.
  rewrite length_app. simpl. lia.
Qed.

Section loop.
Context (f : tensor → gset tensor) (w : list (tensor * Z)).

Lemma color_loop_step fuel u q st wu N :
  st_neighbors st !! u = Some N → u ∉ q →
  (∀ x, x ∈ q → st_neighbors st !! x = Some (f x)) →
  weights_getitem w u = Ok wu →
  length (st_buffers st) = length (st_partitions st) →
  color_loop (S fuel) w (u :: q) st
  = color_loop fuel w (filter (λ x, x ∉ u :: (scan f N q).2) q) (turn f N u q wu st).
Proof.
  intros Hu Hnot Hq Hwu Hbp. simpl.
  rewrite (getitem_Some _ u N) by done. simpl.
  rewrite (foldM_grow f u q _ _ N) by done. simpl.
  rewrite Hwu. simpl.
  assert (Z.of_nat (length (st_partitions st ++ [u :: (scan f N q).2])) - 1
          = Z.of_nat (length (st_partitions st)))%Z as ->.
  { rewrite length_app. simpl. lia. }
  rewrite pyindex_snoc by done. simpl. reflexivity.
Qed.

Lemma color_loop_rounds fuel : ∀ queue st,
  length queue ≤ fuel → NoDup queue →
  (∀ x, x ∈ queue → st_neighbors st !! x = Some (f x)) →
  (∀ x, x ∈ queue → ∃ wx, weights_getitem w x = Ok wx) →
  length (st_buffers st) = length (st_partitions st) →
  ∃ st', color_loop fuel w queue st = Ok st' ∧ rounds f w queue st st'.
Proof.
  induction fuel as [|fuel IH]; intros queue st Hlen Hnd Hnb Hw Hbp.
  - destruct queue; [|simpl in Hlen; lia]. eexists; split; [done|constructor].
  - destruct queue as [|u q]; [eexists; split; [done|constructor]|].
    apply NoDup_cons in Hnd as [Hu Hnd].
    destruct (Hw u) as [wu Hwu]; [by left|].
    rewrite (color_loop_step fuel u q st wu (f u)); auto.
    2:{ apply Hnb; by left. } 2:{ intros; apply Hnb; by right. }
    destruct (IH (filter (λ x, x ∉ u :: (scan f (f u) q).2) q) (turn f (f u) u q wu st)) as [st' [Hrun Hr]].
    + simpl in Hlen. pose proof (length_filter (λ x, x ∉ u :: (scan f (f u) q).2) q). lia.
    + by apply NoDup_filter.
    + intros x Hx. apply list_elem_of_filter in Hx as [Hx1 Hx2]. simpl.
      rewrite lookup_insert_ne; [apply Hnb; by right|]. intros ->. done.
    + intros x Hx. apply list_elem_of_filter in Hx as [Hx1 Hx2]. apply Hw. by right.
    + simpl. rewrite !length_app. simpl. lia.
    + exists st'. split; [exact Hrun|]. econstructor; eauto.
Qed.
End loop.

(** Facts about [scan] *)

Lemma scan_accepted f q : ∀ N x, x ∈ (scan f N q).2 → x ∉ N.
Proof.
  induction q as [|y q IH]; intros N x; simpl; [by intros ?%elem_of_nil|].
  destruct (decide (y ∈ N)); simpl; [by apply IH|].
  intros [->|Hx]%elem_of_cons; [done|].
  apply IH in Hx. set_solver.
Qed.

Lemma scan_excluded f q : ∀ N y,
  y ∈ (scan f N q).1 ↔ y ∈ N ∨ ∃ x, x ∈ (scan f N q).2 ∧ y ∈ f x.
Proof.
  induction q as [|z q IH]; intros N y; simpl.
  - split; [by left|]. intros [?|(x & ?%elem_of_nil & _)]; done.
  - destruct (decide (z ∈ N)); simpl; [apply IH|].
    rewrite IH. split.
    + intros [[?|?]%elem_of_union|(x & ? & ?)]; [by left|right..].
      * exists z. split; [by left|done].
      * exists x. split; [by right|done].
    + intros [?|(x & [->|?]%elem_of_cons & ?)].
      * left. apply elem_of_union. by left.
      * left. apply elem_of_union. by right.
      * right. eauto.
Qed.

Lemma scan_rejected f q : ∀ N x, x ∈ q → x ∉ (scan f N q).2 → x ∈ (scan f N q).1.
Proof.
  induction q as [|y q IH]; intros N x; simpl; [by intros ?%elem_of_nil|].
  destruct (decide (y ∈ N)) as [Hy|Hy]; simpl.
  - intros [->|Hx]%elem_of_cons Hn; [|by apply IH].
    apply scan_excluded. by left.
  - intros [->|Hx]%elem_of_cons Hn.
    + exfalso. apply Hn. by left.
    + apply IH; [done|]. intros ?. apply Hn. by right.
Qed.

Lemma scan_later f q : ∀ N i j x y,
  (scan f N q).2 !! i = Some x → (scan f N q).2 !! j = Some y → i < j → y ∉ f x.
Proof.
  induction q as [|z q IH]; intros N i j x y; simpl; [done|].
  destruct (decide (z ∈ N)); simpl; [by apply IH|].
  destruct i as [|i], j as [|j]; simpl; try lia.
  - intros [= ->] Hy _. apply list_elem_of_lookup_2, scan_accepted in Hy. set_solver.
  - intros Hx Hy ?. eapply (IH _ i j); eauto. lia.
Qed.

Lemma scan_independent f u q :
  symmetric f → independent f (u :: (scan f (f u) q).2).
Proof.
  intros Hsym.
  assert (∀ i j x y, (u :: (scan f (f u) q).2) !! i = Some x →
            (u :: (scan f (f u) q).2) !! j = Some y → i < j → y ∉ f x) as Hlt.
  { intros [|i] [|j] x y; simpl; try lia.
    - intros [= ->] Hy _. by apply list_elem_of_lookup_2, scan_accepted in Hy.
    - intros Hx Hy ?. eapply (scan_later f q (f u) i j); eauto. lia. }
  intros x y [i Hi]%list_elem_of_lookup [j Hj]%list_elem_of_lookup Hne.
  destruct (Nat.lt_trichotomy i j) as [?|[->|?]].
  - by apply (Hlt i j).
  - congruence.
  - intros Hy. apply Hsym in Hy. revert Hy. by apply (Hlt j i).
Qed.

Lemma scan_ext f g q : ∀ N E,
  (∀ x, x ∈ (scan f N q).2 → g x = f x ∧ x ∉ E) →
  scan g (N ∪ E) q = ((scan f N q).1 ∪ E, (scan f N q).2).
Proof.
  induction q as [|z q IH]; intros N E Hacc; simpl; [done|].
  simpl in Hacc. destruct (decide (z ∈ N)) as [Hz|Hz]; simpl in *.
  - rewrite decide_True by set_solver. by apply IH.
  - destruct (Hacc z) as [Hg HE]; [by left|].
    rewrite decide_False by set_solver. rewrite Hg.
    replace (N ∪ E ∪ f z) with ((N ∪ f z) ∪ E) by set_solver.
    rewrite IH; [done|]. intros x Hx. apply Hacc. by right.
Qed.

(** Facts about [rounds] *)

Lemma set_buffers_lookup S b : ∀ σ t,
  set_buffers S b σ !! t = if decide (t ∈ S) then Some b else σ !! t.
Proof.
  unfold set_buffers. induction S as [|s S IH]; intros σ t.
  - case_decide as Hin; [by apply elem_of_nil in Hin|done].
  - cbn [foldl]. rewrite IH. repeat case_decide; try done.
    + exfalso. set_solver.
    + destruct (decide (t = s)) as [->|Hne]; [by rewrite lookup_insert_eq|set_solver].
    + rewrite lookup_insert_ne; [done|]. set_solver.
Qed.

Lemma lookup_snoc_app {A} (l : list A) x l' :
  ((l ++ [x]) ++ l') !! length l = Some x.
Proof. rewrite <- app_assoc. by apply list_lookup_middle. Qed.

Tactic Notation "turn_simpl" :=
  unfold turn; cbn [st_neighbors st_store st_partitions st_buffers].
Tactic Notation "turn_simpl" "in" hyp(H) :=
  unfold turn in H; cbn [st_neighbors st_store st_partitions st_buffers] in H.

Section rounds.
Context (f : tensor → gset tensor) (w : list (tensor * Z)).

Lemma rounds_frame q st st' t :
  rounds f w q st st' → t ∉ q →
  st_neighbors st' !! t = st_neighbors st !! t ∧ st_store st' !! t = st_store st !! t.
Proof.
  induction 1 as [st|u q st st' wu Hwu Hr IH]; intros Ht; [done|].
  apply not_elem_of_cons in Ht as [Htu Ht].
  destruct (decide (t ∈ (scan f (f u) q).2)) as [Hin|Hin].
  { exfalso. apply Ht. eapply elem_of_sublist; [done|apply scan_sublist]. }
  destruct IH as [-> ->].
  - intros [_ Hx]%list_elem_of_filter. done.
  - turn_simpl. rewrite lookup_insert_ne by congruence.
    split; [done|]. rewrite set_buffers_lookup.
    rewrite decide_False; [done|]. by intros [?|?]%elem_of_cons.
Qed.

Lemma rounds_prefix q st st' :
  rounds f w q st st' →
  ∃ ps bs, st_partitions st' = st_partitions st ++ ps
           ∧ st_buffers st' = st_buffers st ++ bs.
Proof.
  induction 1 as [st|u q st st' wu Hwu Hr IH].
  - exists [], []. by rewrite !app_nil_r.
  - destruct IH as (ps & bs & -> & ->). turn_simpl.
    eexists (_ :: ps), (_ :: bs). by rewrite <- !app_assoc.
Qed.

Lemma rounds_turn_of q st st' :
  rounds f w q st st' → NoDup q →
  length (st_buffers st) = length (st_partitions st) →
  ∀ k S, st_partitions st' !! k = Some S → length (st_partitions st) ≤ k →
  turn_of f w q st' k S.
Proof.
  induction 1 as [st|u q st st' wu Hwu Hr IH]; intros Hnd Hbp k S Hk Hle.
  { apply lookup_lt_Some in Hk. lia. }
  apply NoDup_cons in Hnd as [Hu Hnd].
  set (q' := filter (λ x, x ∉ u :: (scan f (f u) q).2) q) in *.
  assert (q' `sublist_of` q) as Hsub by apply sublist_filter.
  destruct (decide (k = length (st_partitions st))) as [->|Hne].
  - destruct (rounds_prefix _ _ _ Hr) as (ps & bs & Hps & Hbs). turn_simpl in Hps; turn_simpl in Hbs.
    rewrite Hps, lookup_snoc_app in Hk. injection Hk as <-.
    exists u, q, wu. split; [done|]. split; [done|]. split; [done|].
    split; [|split].
    + rewrite Hbs, <- Hbp. by rewrite lookup_snoc_app, Hbp.
    + destruct (rounds_frame _ _ _ u Hr) as [-> _].
      * intros [? ?]%list_elem_of_filter. done.
      * turn_simpl. by rewrite lookup_insert_eq.
    + intros s Hs. destruct (rounds_frame _ _ _ s Hr) as [_ ->].
      * intros [Hn ?]%list_elem_of_filter. done.
      * turn_simpl. rewrite set_buffers_lookup. by rewrite decide_True.
  - destruct (IH (NoDup_filter _ _ Hnd)) with (k := k) (S := S)
      as (u' & qk & wu' & ? & Hs & ?); [|done|..].
    + turn_simpl. rewrite !length_app. simpl. lia.
    + turn_simpl. rewrite length_app. simpl. lia.
    + exists u', qk, wu'. split; [done|]. split; [|done].
      apply sublist_cons. by etrans.
Qed.

Lemma rounds_cover q st st' :
  rounds f w q st st' →
  ∀ t, t ∈ q → ∃ k S, st_partitions st' !! k = Some S
                      ∧ length (st_partitions st) ≤ k ∧ t ∈ S.
Proof.
  induction 1 as [st|u q st st' wu Hwu Hr IH]; intros t Ht.
  { by apply elem_of_nil in Ht. }
  destruct (decide (t ∈ u :: (scan f (f u) q).2)) as [Hin|Hin].
  - destruct (rounds_prefix _ _ _ Hr) as (ps & bs & Hps & Hbs). turn_simpl in Hps.
    exists (length (st_partitions st)), (u :: (scan f (f u) q).2).
    split; [|done]. by rewrite Hps, lookup_snoc_app.
  - destruct (IH t) as (k & S & ? & Hle & ?).
    + apply list_elem_of_filter. split; [done|].
      apply elem_of_cons in Ht as [->|?]; [|done]. exfalso. apply Hin. by left.
    + exists k, S. split; [done|]. split; [|done].
      turn_simpl in Hle. rewrite length_app in Hle. simpl in Hle. lia.
Qed.
End rounds.

(** Facts about [InterferenceGraph_init] *)

Lemma first_seen_foldl (l : list tensor) : ∀ acc : list tensor,
  let r := foldl (λ acc x, if decide (x ∈ acc) then acc else acc ++ [x]) acc l in
  (NoDup acc → NoDup r) ∧ ∀ x, x ∈ r ↔ x ∈ acc ∨ x ∈ l.
Proof.
  induction l as [|y l IH]; intros acc; simpl.
  - split; [done|]. intros x. rewrite elem_of_nil. tauto.
  - destruct (IH (if decide (y ∈ acc) then acc else acc ++ [y])) as [IH1 IH2].
    split.
    + intros Hnd. apply IH1. case_decide; [done|].
      apply NoDup_app. split; [done|]. split; [|apply NoDup_singleton].
      intros x ? ->%list_elem_of_singleton. done.
    + intros x. rewrite IH2, elem_of_cons. case_decide.
      * split; [tauto|]. intros [?|[->|?]]; tauto.
      * rewrite elem_of_app, list_elem_of_singleton. tauto.
Qed.

Lemma first_seen_NoDup l : NoDup (first_seen l).
Proof. apply (first_seen_foldl l []). constructor. Qed.

Lemma elem_of_first_seen l x : x ∈ first_seen l ↔ x ∈ l.
Proof.
  unfold first_seen. destruct (first_seen_foldl l []) as [_ H]. rewrite H.
  rewrite elem_of_nil. tauto.
Qed.

Lemma elem_of_combinations2 l u v :
  (u, v) ∈ combinations2 l → u ∈ l ∧ v ∈ l.
Proof.
  induction l as [|x l IH]; simpl; [by intros ?%elem_of_nil|].
  intros [Hin|Hin]%elem_of_app.
  - apply list_elem_of_fmap in Hin as (y & [= -> ->] & Hy). split; [by left|by right].
  - destruct (IH Hin). split; by right.
Qed.

Lemma combinations2_distinct l u v :
  NoDup l → (u, v) ∈ combinations2 l → u ≠ v.
Proof.
  induction 1 as [|x l Hx Hnd IH]; simpl; [by intros ?%elem_of_nil|].
  intros [Hin|Hin]%elem_of_app; [|by apply IH].
  apply list_elem_of_fmap in Hin as (y & [= -> ->] & Hy). by intros ->.
Qed.

Lemma combinations2_total l u v :
  u ∈ l → v ∈ l → u ≠ v → (u, v) ∈ combinations2 l ∨ (v, u) ∈ combinations2 l.
Proof.
  induction l as [|x l IH]; simpl; [by intros ?%elem_of_nil|].
  intros [->|Hu]%elem_of_cons [->|Hv]%elem_of_cons Hne.
  - done.
  - left. apply elem_of_app. left. apply list_elem_of_fmap. eauto.
  - right. apply elem_of_app. left. apply list_elem_of_fmap. eauto.
  - destruct (IH Hu Hv Hne); [left|right]; apply elem_of_app; by right.
Qed.

Lemma add_edge_eq (nb : gmap tensor (gset tensor)) a b sa sb :
  nb !! a = Some sa → <[a := sa ∪ {[b]}]> nb !! b = Some sb →
  add_edge nb (a, b) = Ok (<[b := sb ∪ {[a]}]> (<[a := sa ∪ {[b]}]> nb)).
Proof.
  intros Ha Hb. unfold add_edge. cbn [fst snd].
  rewrite (getitem_Some nb a sa) by done. cbn [mbind res_bind].
  by rewrite (getitem_Some _ b sb) by done.
Qed.

Lemma foldM_add_edge E : ∀ (nb : gmap tensor (gset tensor)),
  (∀ e, e ∈ E → is_Some (nb !! e.1) ∧ is_Some (nb !! e.2)) →
  ∃ nb', foldM add_edge E nb = Ok nb'
    ∧ (∀ u, is_Some (nb' !! u) ↔ is_Some (nb !! u))
    ∧ ∀ u s', nb' !! u = Some s' →
        ∃ s, nb !! u = Some s ∧ ∀ v, v ∈ s' ↔ v ∈ s ∨ (u, v) ∈ E ∨ (v, u) ∈ E.
Proof.
  induction E as [|[a b] E IH]; intros nb Hdom.
  - exists nb. split; [done|]. split; [done|]. intros u s' Hu. exists s'. split; [done|].
    intros v. rewrite !elem_of_nil. tauto.
  - destruct (Hdom (a, b)) as [[sa Ha] [sb0 Hb0]]; [by left|]. simpl in Ha, Hb0.
    set (nb1 := <[a := sa ∪ {[b]}]> nb).
    assert (∃ sb, nb1 !! b = Some sb) as [sb Hb].
    { unfold nb1. destruct (decide (a = b)) as [->|?].
      - rewrite lookup_insert_eq. eauto.
      - rewrite lookup_insert_ne by done. eauto. }
    rewrite foldM_cons, (add_edge_eq nb a b sa sb) by done. cbn [mbind res_bind].
    fold nb1. set (nb2 := <[b := sb ∪ {[a]}]> nb1).
    assert (∀ u, is_Some (nb2 !! u) ↔ is_Some (nb !! u)) as Hdom2.
    { intros u. unfold nb2, nb1. rewrite !lookup_insert_is_Some'.
      split; [|tauto]. intros [->|[->|?]]; eauto. }
    destruct (IH nb2) as (nb' & Hrun & Hd & Hs).
    { intros e He. rewrite !Hdom2. apply Hdom. by right. }
    exists nb'. split; [done|]. split; [intros u; by rewrite Hd, Hdom2|].
    intros u s' Hu. destruct (Hs u s' Hu) as (s2 & Hs2 & Hv).
    destruct (proj1 (Hdom2 u)) as [s Hsu]; [by rewrite Hs2|].
    exists s. split; [done|]. intros v. rewrite Hv, !elem_of_cons.
    assert (∀ v, v ∈ s2 ↔ v ∈ s ∨ (u, v) = (a, b) ∨ (v, u) = (a, b)) as ->; [|tauto].
    clear -Hs2 Hsu Hb Ha. intros v. unfold nb2, nb1 in *.
    destruct (decide (b = u)) as [->|Hbu].
    + rewrite lookup_insert_eq in Hs2. injection Hs2 as <-.
      destruct (decide (a = u)) as [->|Hau].
      * rewrite lookup_insert_eq in Hb. simplify_eq. set_solver.
      * rewrite lookup_insert_ne in Hb by done. simplify_eq. set_solver.
    + rewrite lookup_insert_ne in Hs2 by done.
      destruct (decide (a = u)) as [->|Hau].
      * rewrite lookup_insert_eq in Hs2. simplify_eq. set_solver.
      * rewrite lookup_insert_ne in Hs2 by done. simplify_eq. set_solver.
Qed.

Lemma elem_of_edges (lives : list (list tensor)) e :
  e ∈ (l ← lives; combinations2 l) ↔ ∃ l, l ∈ lives ∧ e ∈ combinations2 l.
Proof. rewrite list_elem_of_bind. naive_solver. Qed.

Lemma fst_tagged {A B} (g : A → B) (l : list A) : ((λ x, (x, g x)) <$> l).*1 = l.
Proof. induction l as [|x l IH]; [done|]. cbn. by rewrite IH. Qed.

Lemma elem_of_concat {A} (ls : list (list A)) x :
  x ∈ concat ls ↔ ∃ l, l ∈ ls ∧ x ∈ l.
Proof.
  induction ls as [|l ls IH]; simpl.
  - split; [by intros ?%elem_of_nil|]. by intros (l & ?%elem_of_nil & _).
  - rewrite elem_of_app, IH. split.
    + intros [?|(l' & ? & ?)]; [exists l; split; [by left|done]|exists l'; split; [by right|done]].
    + intros (l' & [->|?]%elem_of_cons & ?); eauto.
Qed.

Lemma InterferenceGraph_init_spec G lives :
  ∃ g, InterferenceGraph_init G lives = Ok g
    ∧ weights g = (λ x, (x, weight G x)) <$> first_seen (concat lives)
    ∧ (∀ u, is_Some (neighbors g !! u) ↔ u ∈ concat lives)
    ∧ symmetric (neighbors_of (neighbors g))
    ∧ (∀ u v, u ≠ v → live_together lives u v → v ∈ neighbors_of (neighbors g) u)
    ∧ (∀ u v, v ∈ neighbors_of (neighbors g) u → live_together lives u v)
    ∧ (Forall NoDup lives → irreflexive (neighbors_of (neighbors g))).
Proof.
  unfold InterferenceGraph_init.
  set (keys := first_seen (concat lives)).
  set (nb0 := list_to_map ((λ x, (x, ∅)) <$> keys) : gmap tensor (gset tensor)).
  set (E := l ← lives; combinations2 l).
  assert (∀ u, nb0 !! u = if decide (u ∈ concat lives) then Some ∅ else None) as Hnb0.
  { intros u. unfold nb0. case_decide as Hu.
    - apply elem_of_list_to_map_1.
      + rewrite fst_tagged. apply first_seen_NoDup.
      + apply list_elem_of_fmap. exists u. split; [done|]. by apply elem_of_first_seen.
    - apply not_elem_of_list_to_map_1. rewrite fst_tagged.
      unfold keys. by rewrite elem_of_first_seen. }
  assert (∀ u v, (u, v) ∈ E → u ∈ concat lives ∧ v ∈ concat lives) as HE.
  { intros u v (l & Hl & Huv)%elem_of_edges. apply elem_of_combinations2 in Huv as [??].
    split; apply elem_of_concat; eauto. }
  destruct (foldM_add_edge E nb0) as (nb & -> & Hdom & Hs).
  { intros [u v] [? ?]%HE. simpl. rewrite !Hnb0, !decide_True by done. eauto. }
  assert (∀ u v, v ∈ neighbors_of nb u ↔ (u, v) ∈ E ∨ (v, u) ∈ E) as Hadj.
  { intros u v. unfold neighbors_of. destruct (nb !! u) as [s'|] eqn:Hu; simpl.
    - destruct (Hs u s' Hu) as (s & Hsu & ->). rewrite Hnb0 in Hsu.
      case_decide; simplify_eq. set_solver.
    - split; [by intros ?%not_elem_of_empty|].
      assert (¬ is_Some (nb !! u)) as Hn by (rewrite Hu; by intros [??]).
      rewrite Hdom, Hnb0 in Hn.
      intros [[? ?]%HE|[? ?]%HE]; rewrite decide_True in Hn by done; destruct Hn; eauto. }
  eexists. split; [done|]. simpl. split; [done|]. split; [|split; [|split; [|split]]].
  - intros u. rewrite Hdom, Hnb0. case_decide; [by eauto|].
    split; [by intros [??]|done].
  - intros x y. rewrite !Hadj. tauto.
  - intros u v Hne (l & Hl & Hu & Hv). apply Hadj.
    destruct (combinations2_total l u v) as [?|?]; auto; [left|right]; apply elem_of_edges; eauto.
  - intros u v [(l & Hl & [? ?]%elem_of_combinations2)%elem_of_edges
                |(l & Hl & [? ?]%elem_of_combinations2)%elem_of_edges]%Hadj;
      exists l; eauto.
  - intros Hnd u [(l & Hl & Hc)%elem_of_edges|(l & Hl & Hc)%elem_of_edges]%Hadj;
      (eapply combinations2_distinct; [|exact Hc|done]);
      by eapply Forall_forall in Hnd.
Qed.

Section rounds_more.
Context (f : tensor → gset tensor) (w : list (tensor * Z)).

Lemma rounds_lengths q st st' :
  rounds f w q st st' →
  length (st_buffers st) = length (st_partitions st) →
  length (st_buffers st') = length (st_partitions st').
Proof.
  induction 1 as [st|u q st st' wu Hwu Hr IH]; [done|]. intros Hbp.
  apply IH. turn_simpl. rewrite !length_app. simpl. lia.
Qed.

Lemma rounds_dom q st st' x :
  rounds f w q st st' →
  is_Some (st_neighbors st !! x) → is_Some (st_neighbors st' !! x).
Proof.
  induction 1 as [st|u q st st' wu Hwu Hr IH]; [done|]. intros Hx.
  apply IH. turn_simpl. rewrite lookup_insert_is_Some'. by right.
Qed.

(** A run that starts with the neighbour sets in which an earlier run ended
    takes the same turns, whatever the store it starts with. *)
Lemma rounds_again q st st' :
  rounds f w q st st' →
  symmetric f → irreflexive f → NoDup q →
  (∀ x, x ∈ q → st_neighbors st !! x = Some (f x)) →
  length (st_buffers st) = length (st_partitions st) →
  ∀ fuel σ2, length q ≤ fuel →
  ∃ σ2',
    color_loop fuel w q
      {| st_neighbors := st_neighbors st'; st_partitions := st_partitions st;
         st_buffers := st_buffers st; st_store := σ2 |}
    = Ok {| st_neighbors := st_neighbors st'; st_partitions := st_partitions st';
            st_buffers := st_buffers st'; st_store := σ2' |}
    ∧ (∀ t, t ∈ q → σ2' !! t = st_store st' !! t)
    ∧ (∀ t, t ∉ q → σ2' !! t = σ2 !! t).
Proof.
  intros Hr Hsym Hirr.
  induction Hr as [st|u q st st' wu Hwu Hr IH]; intros Hnd Hnb Hbp fuel σ2 Hfuel.
  { exists σ2. destruct fuel; simpl; split; try done; split; try done;
      by intros t ?%elem_of_nil. }
  destruct fuel as [|fuel]; [simpl in Hfuel; lia|].
  apply NoDup_cons in Hnd as [Hu Hnd].
  set (N' := (scan f (f u) q).1) in *. set (acc := (scan f (f u) q).2) in *.
  set (q' := filter (λ x, x ∉ u :: acc) q) in *.
  set (g := neighbors_of (st_neighbors st')).
  assert (st_neighbors st' !! u = Some N') as HuN.
  { destruct (rounds_frame _ _ _ _ _ u Hr) as [-> _].
    - intros [? ?]%list_elem_of_filter. done.
    - turn_simpl. by rewrite lookup_insert_eq. }
  assert (acc `sublist_of` q) as Hacc by apply scan_sublist.
  assert (∀ x, x ∈ acc → st_neighbors st' !! x = Some (f x)) as Hmem.
  { intros x Hx. destruct (rounds_frame _ _ _ _ _ x Hr) as [-> _].
    - intros [Hn ?]%list_elem_of_filter. apply Hn. by right.
    - turn_simpl. rewrite lookup_insert_ne.
      + apply Hnb. right. by eapply elem_of_sublist.
      + intros ->. apply Hu. by eapply elem_of_sublist. }
  assert (independent f (u :: acc)) as Hind by by apply scan_independent.
  assert (∀ x, x ∈ u :: acc → x ∉ N') as Hfresh.
  { intros x Hx [HxN|(a & Ha & Hxa)]%scan_excluded.
    - apply elem_of_cons in Hx as [->|Hx]; [by apply (Hirr u)|].
      by apply scan_accepted in Hx.
    - destruct (decide (a = x)) as [->|Hne]; [by apply (Hirr x)|].
      revert Hxa. apply Hind; [by right|done|done]. }
  assert (scan g N' q = (N', acc)) as Hscan.
  { replace N' with (f u ∪ N') at 1.
    2:{ apply set_eq. intros y. rewrite elem_of_union. split; [|by right].
        intros [?|?]; [|done]. apply scan_excluded. by left. }
    rewrite (scan_ext f g q (f u) N').
    - fold N' acc. f_equal. set_solver.
    - intros x Hx. split; [|apply Hfresh; by right].
      unfold g, neighbors_of. by rewrite (Hmem x Hx). }
  rewrite (color_loop_step g w fuel u q _ wu N'); cbn [st_neighbors st_buffers st_partitions];
    [|done|done| |done|done].
  2:{ intros x Hx. unfold g, neighbors_of.
      destruct (rounds_dom _ _ _ x (rounds_turn _ _ _ _ _ _ _ Hwu Hr)) as [s ->]; [|done].
      rewrite Hnb; [by eauto|by right]. }
  rewrite Hscan. cbn [fst snd]. fold q'.
  destruct (IH (NoDup_filter _ _ Hnd)) with (fuel := fuel)
    (σ2 := set_buffers (u :: acc) (mkBuffer (Z.of_nat (length (st_partitions st))) wu None) σ2)
    as (σ2' & Hrun & Hin & Hout).
  - intros x [Hx1 Hx2]%list_elem_of_filter. turn_simpl.
    rewrite lookup_insert_ne; [apply Hnb; by right|]. intros ->. done.
  - turn_simpl. rewrite !length_app. simpl. lia.
  - simpl in Hfuel. pose proof (length_filter (λ x, x ∉ u :: acc) q). fold q' in H. lia.
  - exists σ2'. split; [|split].
    + rewrite <- Hrun. unfold turn. cbn [st_neighbors st_buffers st_partitions st_store].
      rewrite Hscan. cbn [fst snd]. by rewrite insert_id.
    + intros t Ht. destruct (decide (t ∈ q')) as [?|Hnq]; [by apply Hin|].
      assert (t ∈ u :: acc) as Hta.
      { destruct (decide (t ∈ u :: acc)) as [?|Hn]; [done|]. exfalso. apply Hnq.
        apply list_elem_of_filter. split; [done|].
        apply elem_of_cons in Ht as [->|?]; [|done]. exfalso. apply Hn. by left. }
      rewrite Hout by done. rewrite set_buffers_lookup, decide_True by done.
      destruct (rounds_frame _ _ _ _ _ t Hr) as [_ ->]; [done|].
      turn_simpl. fold acc. by rewrite set_buffers_lookup, decide_True.
    + intros t Ht. apply not_elem_of_cons in Ht as [Htu Ht].
      rewrite Hout.
      * rewrite set_buffers_lookup, decide_False; [done|].
        intros [?|?]%elem_of_cons; [done|]. apply Ht. by eapply elem_of_sublist.
      * intros [? ?]%list_elem_of_filter. done.
Qed.
End rounds_more.

Section rounds_store.
Context (f : tensor → gset tensor) (w : list (tensor * Z)).

Lemma rounds_deterministic q st st1 st2 :
  rounds f w q st st1 → rounds f w q st st2 → st1 = st2.
Proof.
  intros H1. revert st2. induction H1 as [st|u q st st' wu Hwu Hr IH]; intros st2 H2.
  - by inversion H2.
  - inversion H2 as [|? ? ? ? wu' Hwu' Hr']; subst.
    rewrite Hwu in Hwu'. injection Hwu' as <-. by apply IH.
Qed.

(** The store a run starts with has no part in its turns. *)
Lemma rounds_store q st st' :
  rounds f w q st st' →
  ∀ σ2, ∃ σ2', rounds f w q (with_store st σ2) (with_store st' σ2')
    ∧ (∀ t, t ∈ q → σ2' !! t = st_store st' !! t)
    ∧ (∀ t, t ∉ q → σ2' !! t = σ2 !! t).
Proof.
  induction 1 as [st|u q st st' wu Hwu Hr IH]; intros σ2.
  { exists σ2. split; [constructor|]. split; [by intros t ?%elem_of_nil|done]. }
  set (acc := (scan f (f u) q).2) in *.
  set (b := mkBuffer (Z.of_nat (length (st_partitions st))) wu None).
  destruct (IH (set_buffers (u :: acc) b σ2)) as (σ2' & Hr2 & Hin & Hout).
  assert (acc `sublist_of` q) as Hacc by apply scan_sublist.
  exists σ2'. split; [|split].
  - econstructor; [exact Hwu|]. exact Hr2.
  - intros t Ht.
    destruct (decide (t ∈ filter (λ x, x ∉ u :: acc) q)) as [?|Hnq]; [by apply Hin|].
    assert (t ∈ u :: acc) as Hta.
    { destruct (decide (t ∈ u :: acc)) as [?|Hn]; [done|]. exfalso. apply Hnq.
      apply list_elem_of_filter. split; [done|].
      apply elem_of_cons in Ht as [->|?]; [|done]. exfalso. apply Hn. by left. }
    rewrite Hout by done. rewrite set_buffers_lookup, decide_True by done.
    destruct (rounds_frame _ _ _ _ _ t Hr) as [_ ->]; [done|].
    turn_simpl. fold acc. by rewrite set_buffers_lookup, decide_True.
  - intros t Ht. apply not_elem_of_cons in Ht as [Htu Ht].
    rewrite Hout.
    + rewrite set_buffers_lookup, decide_False; [done|].
      intros [?|?]%elem_of_cons; [done|]. apply Ht. by eapply elem_of_sublist.
    + intros [? ?]%list_elem_of_filter. done.
Qed.
End rounds_store.

(** Facts about [sorted_desc] *)

Lemma insert_desc_Permutation p l : insert_desc p l ≡ₚ p :: l.
Proof.
  induction l as [|q l IH]; simpl; [done|].
  destruct (p.2 <? q.2)%Z; [|done]. rewrite IH. apply Permutation_swap.
Qed.

Lemma sorted_desc_Permutation l : sorted_desc l ≡ₚ l.
Proof.
  induction l as [|p l IH]; simpl; [done|].
  by rewrite insert_desc_Permutation, IH.
Qed.

Lemma insert_desc_sorted p l :
  StronglySorted heavier l → StronglySorted heavier (insert_desc p l).
Proof.
  induction 1 as [|q l Hs IH Hq]; simpl; [repeat constructor|].
  destruct (Z.ltb_spec p.2 q.2).
  - constructor; [done|]. rewrite insert_desc_Permutation. constructor; [|done].
    unfold heavier. lia.
  - constructor; [by constructor|]. constructor; [unfold heavier; lia|].
    eapply Forall_impl; [exact Hq|]. unfold heavier. intros; lia.
Qed.

Lemma sorted_desc_sorted l : StronglySorted heavier (sorted_desc l).
Proof. induction l; simpl; [constructor|by apply insert_desc_sorted]. Qed.

Lemma StronglySorted_sublist {A} (R : relation A) l1 l2 :
  l1 `sublist_of` l2 → StronglySorted R l2 → StronglySorted R l1.
Proof.
  induction 1 as [|x l1 l2 Hsub IH|x l1 l2 Hsub IH]; intros Hs; [done|..].
  - apply StronglySorted_inv in Hs as [Hs Hx]. constructor; [by apply IH|].
    eapply Forall_forall. intros y Hy. eapply Forall_forall in Hx; [done|].
    by eapply elem_of_sublist.
  - apply StronglySorted_inv in Hs as [Hs Hx]. by apply IH.
Qed.

Lemma sorted_keys (h : tensor → Z) (l : list (tensor * Z)) :
  Forall (λ p, p.2 = h p.1) l → StronglySorted heavier l →
  StronglySorted (λ x y, (h y ≤ h x)%Z) l.*1.
Proof.
  intros Hh Hs. induction Hs as [|p l Hs IH Hp]; simpl; [constructor|].
  apply Forall_cons in Hh as [Hp1 Hh]. constructor; [by apply IH|].
  apply Forall_fmap, Forall_forall. intros q Hq. simpl.
  eapply Forall_forall in Hp; [|exact Hq]. eapply Forall_forall in Hh; [|exact Hq].
  unfold heavier in Hp. simpl in Hh. lia.
Qed.

Lemma color_run_eq g σ :
  color_run g σ = color_loop (length (queue_of g)) (weights g) (queue_of g) (color_start g σ).
Proof. reflexivity. Qed.

Lemma weights_getitem_tagged (h : tensor → Z) (keys : list tensor) x :
  NoDup keys → x ∈ keys →
  weights_getitem ((λ x, (x, h x)) <$> keys) x = Ok (h x).
Proof.
  intros Hnd Hx. apply getitem_Some, elem_of_list_to_map_1.
  - by rewrite fst_tagged.
  - apply list_elem_of_fmap. eauto.
Qed.

Lemma InterferenceGraph_init_facts G lives :
  ∃ g, InterferenceGraph_init G lives = Ok g ∧ init_facts G lives g.
Proof.
  destruct (InterferenceGraph_init_spec G lives)
    as (g & Hg & Hw & Hkeys & Hsym & Hadj & Hlive & Hirr).
  exists g. split; [done|].
  assert (queue_of g ≡ₚ first_seen (concat lives)) as Hperm.
  { unfold queue_of. rewrite sorted_desc_Permutation, Hw. by rewrite fst_tagged. }
  split; try done.
  - intros x. by rewrite Hperm, elem_of_first_seen.
  - rewrite Hperm. apply first_seen_NoDup.
  - intros x Hx. rewrite Hw. apply weights_getitem_tagged; [apply first_seen_NoDup|].
    by apply elem_of_first_seen.
  - apply sorted_keys; [|apply sorted_desc_sorted].
    rewrite sorted_desc_Permutation, Hw. apply Forall_fmap, Forall_forall. by intros.
Qed.

Lemma color_run_rounds G lives g σ :
  init_facts G lives g →
  ∃ st, color_run g σ = Ok st
    ∧ rounds (neighbors_of (neighbors g)) (weights g) (queue_of g) (color_start g σ) st.
Proof.
  intros Hf. rewrite color_run_eq. apply color_loop_rounds.
  - done.
  - apply Hf.
  - intros x Hx%(if_queue _ _ _ Hf)%(if_keys _ _ _ Hf). destruct Hx as [s Hs].
    simpl. unfold neighbors_of. by rewrite Hs.
  - intros x Hx%(if_queue _ _ _ Hf). eexists. by apply (if_weight _ _ _ Hf).
  - done.
Qed.

Lemma partition_turn_of G lives g σ st k S :
  init_facts G lives g →
  rounds (neighbors_of (neighbors g)) (weights g) (queue_of g) (color_start g σ) st →
  st_partitions st !! k = Some S →
  turn_of (neighbors_of (neighbors g)) (weights g) (queue_of g) st k S.
Proof.
  intros Hf Hr Hk. eapply rounds_turn_of; eauto.
  - apply Hf.
  - simpl. lia.
Qed.

Lemma partition_independent G lives g σ st k S :
  init_facts G lives g →
  rounds (neighbors_of (neighbors g)) (weights g) (queue_of g) (color_start g σ) st →
  st_partitions st !! k = Some S →
  independent (neighbors_of (neighbors g)) S.
Proof.
  intros Hf Hr Hk.
  destruct (partition_turn_of _ _ _ _ _ _ _ Hf Hr Hk) as (u & qk & wu & -> & _).
  apply scan_independent, Hf.
Qed.

(** C1.  Whatever the live sets, [color] returns; when it has, two different
    tensors that are live together at some instruction have buffers of
    different colours, and no partition holds two such tensors. *)
Theorem color_separates_interfering (G : OpGraph) (lives : list (list tensor)) (σ : store) :
  ∃ g st,
    InterferenceGraph_init G lives = Ok g
    ∧ color_run g σ = Ok st
    ∧ InterferenceGraph_color g σ
      = Ok (total_size (st_buffers st), st_buffers st,
            {| neighbors := st_neighbors st; weights := weights g |}, st_store st)
    ∧ (∀ t1 t2, t1 ≠ t2 → live_together lives t1 t2 →
         ∃ b1 b2, st_store st !! t1 = Some b1 ∧ st_store st !! t2 = Some b2
                  ∧ color b1 ≠ color b2)
    ∧ (∀ S t1 t2, S ∈ st_partitions st → t1 ∈ S → t2 ∈ S → t1 ≠ t2 →
         ¬ live_together lives t1 t2).
Proof.
  destruct (InterferenceGraph_init_facts G lives) as (g & Hg & Hf).
  destruct (color_run_rounds G lives g σ Hf) as (st & Hrun & Hr).
  exists g, st. split; [done|]. split; [done|]. split; [|split].
  - unfold InterferenceGraph_color. by rewrite Hrun.
  - intros t1 t2 Hne Hlive.
    assert (∀ t, (∃ t', live_together lives t t') → ∃ k S wu,
              st_partitions st !! k = Some S ∧ t ∈ S
              ∧ st_store st !! t = Some (mkBuffer (Z.of_nat k) wu None)) as Hcol.
    { intros t (t' & l & Hl & Ht & _).
      destruct (rounds_cover _ _ _ _ _ Hr t) as (k & S & Hk & _ & HtS).
      { apply (if_queue _ _ _ Hf), elem_of_concat. eauto. }
      destruct (partition_turn_of _ _ _ _ _ _ _ Hf Hr Hk) as (u & qk & wu & _ & _ & _ & _ & _ & Hst).
      exists k, S, wu. eauto. }
    destruct (Hcol t1) as (k1 & S1 & w1 & Hk1 & Ht1 & Hb1); [by eauto|].
    destruct (Hcol t2) as (k2 & S2 & w2 & Hk2 & Ht2 & Hb2).
    { exists t1. destruct Hlive as (l & ? & ? & ?). exists l. eauto. }
    eexists _, _. split; [done|]. split; [done|]. simpl. intros Heq.
    apply Nat2Z.inj in Heq as ->. rewrite Hk1 in Hk2. injection Hk2 as <-.
    eapply (partition_independent _ _ _ _ _ _ _ Hf Hr Hk1 t1 t2); eauto.
    by apply (if_adj _ _ _ Hf).
  - intros S t1 t2 [k Hk]%list_elem_of_lookup Ht1 Ht2 Hne Hlive.
    eapply (partition_independent _ _ _ _ _ _ _ Hf Hr Hk t1 t2); eauto.
    by apply (if_adj _ _ _ Hf).
Qed.

(** C9.  The weight of a tensor is [max(1, product of its shape)] times its
    item size; the buffer of colour [k] has the weight of the first tensor of
    partition [k], which no tensor of that partition exceeds; and the memory
    [color] returns is the sum of the sizes of the buffers. *)
Theorem color_buffer_sizes (G : OpGraph) (lives : list (list tensor)) (σ : store) :
  ∃ g st,
    InterferenceGraph_init G lives = Ok g
    ∧ color_run g σ = Ok st
    ∧ (∀ x, x ∈ concat lives →
         weights_getitem (weights g) x
         = Ok (Z.max 1 (foldl Z.mul 1 (shape G x)) * itemsize G x)%Z)
    ∧ length (st_buffers st) = length (st_partitions st)
    ∧ (∀ k S, st_partitions st !! k = Some S →
         ∃ u rest, S = u :: rest
           ∧ st_buffers st !! k = Some (mkBuffer (Z.of_nat k) (weight G u) None)
           ∧ ∀ x, x ∈ S → (weight G x ≤ weight G u)%Z)
    ∧ ∃ g' σ', InterferenceGraph_color g σ
               = Ok (foldr Z.add 0%Z (size <$> st_buffers st), st_buffers st, g', σ').
Proof.
  destruct (InterferenceGraph_init_facts G lives) as (g & Hg & Hf).
  destruct (color_run_rounds G lives g σ Hf) as (st & Hrun & Hr).
  exists g, st. split; [done|]. split; [done|]. split; [|split; [|split]].
  - intros x Hx. by apply (if_weight _ _ _ Hf).
  - by apply (rounds_lengths _ _ _ _ _ Hr).
  - intros k S Hk.
    destruct (partition_turn_of _ _ _ _ _ _ _ Hf Hr Hk)
      as (u & qk & wu & -> & Hsub & Hwu & Hb & _).
    assert (u ∈ concat lives) as Hu.
    { apply (if_queue _ _ _ Hf). eapply elem_of_sublist; [|exact Hsub]. by left. }
    rewrite (if_weight _ _ _ Hf u Hu) in Hwu. injection Hwu as <-.
    eexists _, _. split; [done|]. split; [done|].
    pose proof (StronglySorted_sublist _ _ _ Hsub (if_sorted _ _ _ Hf)) as Hs.
    apply StronglySorted_inv in Hs as [_ Hs].
    intros x [->|Hx]%elem_of_cons; [lia|].
    eapply Forall_forall in Hs; [exact Hs|].
    eapply elem_of_sublist; [exact Hx|apply scan_sublist].
  - unfold InterferenceGraph_color. rewrite Hrun. simpl. eauto.
Qed.

(** A second call of [color] on the graph as the first call left it ends in the
    state in which the first ended. *)
Lemma color_run_again (G : OpGraph) (lives : list (list tensor)) (g : InterferenceGraph)
    (σ : store) (st : color_state) :
  Forall NoDup lives → init_facts G lives g → color_run g σ = Ok st →
  color_run {| neighbors := st_neighbors st; weights := weights g |} (st_store st) = Ok st.
Proof.
  intros Hnd Hf Hrun.
  destruct (color_run_rounds G lives g σ Hf) as (st' & Hrun' & Hr).
  rewrite Hrun in Hrun'. injection Hrun' as <-.
  rewrite color_run_eq. unfold queue_of, color_start. cbn [neighbors weights].
  fold (queue_of g).
  destruct (rounds_again _ _ _ _ _ Hr (if_sym _ _ _ Hf) (if_irrefl _ _ _ Hf Hnd)
              (if_NoDup _ _ _ Hf)) with (fuel := length (queue_of g)) (σ2 := st_store st)
    as (σ2 & Hrun2 & Hin & Hout); [| |done|].
  - intros x Hx%(if_queue _ _ _ Hf)%(if_keys _ _ _ Hf). destruct Hx as [s Hs].
    simpl. unfold neighbors_of. by rewrite Hs.
  - done.
  - cbn [color_start st_partitions st_buffers] in Hrun2. rewrite Hrun2.
    f_equal. destruct st as [nb ps bs σ']. cbn in *. f_equal.
    apply map_eq. intros t. destruct (decide (t ∈ queue_of g)); [by apply Hin|by apply Hout].
Qed.

(** C10, as the code has it.  [color] updates [neighbors] in place: when it
    returns, the set of the head of every partition is the union of the
    neighbour sets of the members of the partition.  A second call on the
    same graph object starts from these larger sets and ends in the state in
    which the first call ended: the same partitions, buffers and total. *)
Theorem color_absorbs_neighbors (G : OpGraph) (lives : list (list tensor)) (σ : store) :
  Forall NoDup lives →
  ∃ g st,
    InterferenceGraph_init G lives = Ok g
    ∧ color_run g σ = Ok st
    ∧ (∀ k S, st_partitions st !! k = Some S →
         ∃ u rest N, S = u :: rest ∧ st_neighbors st !! u = Some N
           ∧ ∀ y, y ∈ N ↔ ∃ s, s ∈ S ∧ y ∈ neighbors_of (neighbors g) s)
    ∧ color_run {| neighbors := st_neighbors st; weights := weights g |} (st_store st)
      = Ok st.
Proof.
  intros Hnd.
  destruct (InterferenceGraph_init_facts G lives) as (g & Hg & Hf).
  destruct (color_run_rounds G lives g σ Hf) as (st & Hrun & Hr).
  exists g, st. split; [done|]. split; [done|]. split.
  - intros k S Hk.
    destruct (partition_turn_of _ _ _ _ _ _ _ Hf Hr Hk)
      as (u & qk & wu & -> & Hsub & Hwu & Hb & HN & _).
    eexists _, _, _. split; [done|]. split; [exact HN|].
    intros y. rewrite scan_excluded. split.
    + intros [?|(x & ? & ?)]; [exists u|exists x]; (split; [|done]); [by left|by right].
    + intros (s & [->|?]%elem_of_cons & ?); [by left|right; eauto].
  - by eapply color_run_again.
Qed.

(** X3.  When [color] returns, every tensor of the live sets is in exactly one
    partition and is annotated with the buffer of that partition, whose
    colour is the index of the partition; the [buffer] of any other tensor
    description is left as it was. *)
Theorem color_annotates_every_tensor (G : OpGraph) (lives : list (list tensor)) (σ : store) :
  ∃ g st,
    InterferenceGraph_init G lives = Ok g
    ∧ color_run g σ = Ok st
    ∧ (∀ t, t ∈ concat lives →
         ∃ k S b, st_partitions st !! k = Some S ∧ t ∈ S
                  ∧ st_buffers st !! k = Some b ∧ color b = Z.of_nat k
                  ∧ st_store st !! t = Some b)
    ∧ (∀ k1 k2 S1 S2 t,
         st_partitions st !! k1 = Some S1 → st_partitions st !! k2 = Some S2 →
         t ∈ S1 → t ∈ S2 → k1 = k2)
    ∧ ∀ t, t ∉ concat lives → st_store st !! t = σ !! t.
Proof.
  destruct (InterferenceGraph_init_facts G lives) as (g & Hg & Hf).
  destruct (color_run_rounds G lives g σ Hf) as (st & Hrun & Hr).
  exists g, st. split; [done|]. split; [done|]. split; [|split].
  - intros t Ht%(if_queue _ _ _ Hf).
    destruct (rounds_cover _ _ _ _ _ Hr t Ht) as (k & S & Hk & _ & HtS).
    destruct (partition_turn_of _ _ _ _ _ _ _ Hf Hr Hk)
      as (u & qk & wu & _ & _ & _ & Hb & _ & Hst).
    exists k, S, (mkBuffer (Z.of_nat k) wu None). split; [done|]. split; [done|].
    split; [done|]. split; [done|]. by apply Hst.
  - intros k1 k2 S1 S2 t Hk1 Hk2 Ht1 Ht2.
    destruct (partition_turn_of _ _ _ _ _ _ _ Hf Hr Hk1)
      as (u1 & q1 & w1 & _ & _ & _ & _ & _ & Hst1).
    destruct (partition_turn_of _ _ _ _ _ _ _ Hf Hr Hk2)
      as (u2 & q2 & w2 & _ & _ & _ & _ & _ & Hst2).
    pose proof (Hst1 t Ht1) as H1. rewrite (Hst2 t Ht2) in H1.
    injection H1 as H1 _. lia.
  - intros t Ht. destruct (rounds_frame _ _ _ _ _ t Hr) as [_ ->]; [|done].
    by rewrite (if_queue _ _ _ Hf).
Qed.

(** ** Facts: the order of the partitions *)

Section rounds_later.
Context (f : tensor → gset tensor) (w : list (tensor * Z)).

(** A tensor of a later partition was in the queue when an earlier partition
    was made, and was left out of it. *)
Lemma rounds_later q st st' :
  rounds f w q st st' → NoDup q →
  length (st_buffers st) = length (st_partitions st) →
  ∀ k1 k2 S1 S2 t,
    length (st_partitions st) ≤ k1 → k1 < k2 →
    st_partitions st' !! k1 = Some S1 → st_partitions st' !! k2 = Some S2 → t ∈ S2 →
    ∃ u1 q1, S1 = u1 :: (scan f (f u1) q1).2 ∧ u1 :: q1 `sublist_of` q
             ∧ t ∈ q1 ∧ t ∉ S1.
Proof.
  induction 1 as [st|u q st st' wu Hwu Hr IH]; intros Hnd Hbp k1 k2 S1 S2 t Hle Hlt Hk1 Hk2 Ht.
  { apply lookup_lt_Some in Hk1. lia. }
  apply NoDup_cons in Hnd as [Hu Hnd].
  set (q' := filter (λ x, x ∉ u :: (scan f (f u) q).2) q) in *.
  assert (q' `sublist_of` q) as Hsub by apply sublist_filter.
  assert (length (st_buffers (turn f (f u) u q wu st))
          = length (st_partitions (turn f (f u) u q wu st))) as Hbp1.
  { turn_simpl. rewrite !length_app. simpl. lia. }
  assert (length (st_partitions (turn f (f u) u q wu st)) = S (length (st_partitions st)))
    as Hlen1.
  { turn_simpl. rewrite length_app. simpl. lia. }
  destruct (decide (k1 = length (st_partitions st))) as [->|Hne].
  - destruct (rounds_prefix _ _ _ _ _ Hr) as (ps & bs & Hps & Hbs). turn_simpl in Hps.
    rewrite Hps, lookup_snoc_app in Hk1. injection Hk1 as <-.
    destruct (rounds_turn_of _ _ _ _ _ Hr (NoDup_filter _ _ Hnd) Hbp1 k2 S2 Hk2)
      as (u2 & q2 & _ & -> & Hsub2 & _); [lia|].
    assert (t ∈ q') as Htq.
    { eapply elem_of_sublist; [|exact Hsub2].
      apply elem_of_cons in Ht as [->|Ht]; [by left|right].
      eapply elem_of_sublist; [exact Ht|apply scan_sublist]. }
    apply list_elem_of_filter in Htq as [Hnot Htq].
    exists u, q. done.
  - destruct (IH (NoDup_filter _ _ Hnd) Hbp1 k1 k2 S1 S2 t) as (u1 & q1 & ? & Hs & ? & ?);
      [lia|done..|].
    exists u1, q1. split; [done|]. split; [|done]. apply sublist_cons. by etrans.
Qed.
End rounds_later.

(** X12.  The interference graph built from live sets: its nodes are the
    tensors of the live sets, two tensors are neighbours exactly when they
    are different and in one live set, and every node has a weight. *)
Theorem interference_edges_are_colive (G : OpGraph) (lives : list (list tensor)) :
  Forall NoDup lives →
  ∃ g, InterferenceGraph_init G lives = Ok g
    ∧ (∀ u, is_Some (neighbors g !! u) ↔ u ∈ concat lives)
    ∧ (∀ u v, v ∈ neighbors_of (neighbors g) u ↔ u ≠ v ∧ live_together lives u v)
    ∧ ∀ u, u ∈ concat lives → weights_getitem (weights g) u = Ok (weight G u).
Proof.
  intros Hnd. destruct (InterferenceGraph_init_facts G lives) as (g & Hg & Hf).
  exists g. split; [done|]. split; [apply Hf|]. split; [|apply Hf].
  intros u v. split.
  - intros Hv. split; [|by apply (if_live _ _ _ Hf)].
    intros ->. by apply (if_irrefl _ _ _ Hf Hnd v).
  - intros [Hne Hlive]. by apply (if_adj _ _ _ Hf).
Qed.

(** X13.  Every partition is a maximal independent set of what was left: a
    tensor of a later partition interferes with a tensor of every earlier
    partition, so it could not share any earlier buffer. *)
Theorem color_partitions_maximal (G : OpGraph) (lives : list (list tensor)) (σ : store) :
  ∃ g st,
    InterferenceGraph_init G lives = Ok g
    ∧ color_run g σ = Ok st
    ∧ ∀ k1 k2 S1 S2 t,
        k1 < k2 → st_partitions st !! k1 = Some S1 → st_partitions st !! k2 = Some S2 →
        t ∈ S2 → ∃ s, s ∈ S1 ∧ t ∉ S1 ∧ live_together lives s t.
Proof.
  destruct (InterferenceGraph_init_facts G lives) as (g & Hg & Hf).
  destruct (color_run_rounds G lives g σ Hf) as (st & Hrun & Hr).
  exists g, st. split; [done|]. split; [done|].
  intros k1 k2 S1 S2 t Hlt Hk1 Hk2 Ht.
  destruct (rounds_later _ _ _ _ _ Hr (if_NoDup _ _ _ Hf) eq_refl k1 k2 S1 S2 t)
    as (u1 & q1 & -> & _ & Htq & Hnot); [simpl; lia|done..|].
  assert (t ∈ (scan (neighbors_of (neighbors g)) (neighbors_of (neighbors g) u1) q1).1)
    as Hex.
  { apply scan_rejected; [done|]. intros ?. apply Hnot. by right. }
  apply scan_excluded in Hex as [Hu|(x & Hx & Hxt)].
  - exists u1. split; [by left|]. split; [done|]. by apply (if_live _ _ _ Hf).
  - exists x. split; [by right|]. split; [done|]. by apply (if_live _ _ _ Hf).
Qed.

(** X14.  The buffers come in the order of their sizes, the largest first. *)
Theorem color_buffers_descend (G : OpGraph) (lives : list (list tensor)) (σ : store) :
  ∃ g st,
    InterferenceGraph_init G lives = Ok g
    ∧ color_run g σ = Ok st
    ∧ ∀ k1 k2 b1 b2,
        k1 ≤ k2 → st_buffers st !! k1 = Some b1 → st_buffers st !! k2 = Some b2 →
        (size b2 ≤ size b1)%Z.
Proof.
  destruct (InterferenceGraph_init_facts G lives) as (g & Hg & Hf).
  destruct (color_run_rounds G lives g σ Hf) as (st & Hrun & Hr).
  exists g, st. split; [done|]. split; [done|].
  intros k1 k2 b1 b2 Hle Hb1 Hb2.
  destruct (decide (k1 = k2)) as [->|Hne].
  { rewrite Hb1 in Hb2. injection Hb2 as <-. lia. }
  pose proof (rounds_lengths _ _ _ _ _ Hr eq_refl) as Hlen.
  destruct (lookup_lt_is_Some_2 (st_partitions st) k1) as [S1 Hk1].
  { rewrite <- Hlen. by eapply lookup_lt_Some. }
  destruct (lookup_lt_is_Some_2 (st_partitions st) k2) as [S2 Hk2].
  { rewrite <- Hlen. by eapply lookup_lt_Some. }
  destruct (partition_turn_of _ _ _ _ _ _ _ Hf Hr Hk2)
    as (u2 & q2 & w2 & -> & Hsub2 & Hw2 & Hb2' & _).
  destruct (rounds_later _ _ _ _ _ Hr (if_NoDup _ _ _ Hf) eq_refl k1 k2 S1 _ u2
              ltac:(simpl; lia) ltac:(lia) Hk1 Hk2)
    as (u1 & q1 & -> & Hsub1 & Htq & _); [by left|].
  destruct (partition_turn_of _ _ _ _ _ _ _ Hf Hr Hk1)
    as (u1' & q1' & w1 & [= <- _] & _ & Hw1 & Hb1' & _).
  rewrite Hb1 in Hb1'. rewrite Hb2 in Hb2'. injection Hb1' as ->. injection Hb2' as ->.
  cbn [size].
  assert (∀ x, x ∈ u1 :: q1 → weights_getitem (weights g) x = Ok (weight G x)) as Hwt.
  { intros x Hx. apply (if_weight _ _ _ Hf), (if_queue _ _ _ Hf).
    by eapply elem_of_sublist. }
  rewrite Hwt in Hw1 by left. rewrite Hwt in Hw2 by (by right).
  injection Hw1 as <-. injection Hw2 as <-.
  pose proof (StronglySorted_sublist _ _ _ Hsub1 (if_sorted _ _ _ Hf)) as Hs.
  apply StronglySorted_inv in Hs as [_ Hs].
  by eapply Forall_forall in Hs.
Qed.

(** ** Facts: the memory *)

Lemma sum_app (l1 l2 : list Z) :
  foldr Z.add 0%Z (l1 ++ l2) = (foldr Z.add 0 l1 + foldr Z.add 0 l2)%Z.
Proof. induction l1 as [|x l1 IH]; simpl; lia. Qed.

Lemma total_size_snoc bs b : total_size (bs ++ [b]) = (total_size bs + size b)%Z.
Proof. unfold total_size. rewrite fmap_app, sum_app. simpl. lia. Qed.

Lemma sum_submseteq {A} (h : A → Z) (l1 l2 : list A) :
  l1 ⊆+ l2 → (∀ x, x ∈ l2 → 0 ≤ h x)%Z →
  (foldr Z.add 0 (h <$> l1) ≤ foldr Z.add 0 (h <$> l2))%Z.
Proof.
  induction 1 as [|x l1 l2 _ IH|x y l|x l1 l2 _ IH|l1 l2 l3 H12 IH1 H23 IH2]; intros Hpos;
    rewrite ?fmap_cons; cbn [foldr].
  - done.
  - specialize (IH (λ y Hy, Hpos y (list_elem_of_further _ _ _ Hy))). lia.
  - lia.
  - specialize (IH (λ y Hy, Hpos y (list_elem_of_further _ _ _ Hy))).
    pose proof (Hpos x (list_elem_of_here _ _)). lia.
  - etrans; [apply IH1|apply IH2; done].
    intros x Hx. apply Hpos. by eapply elem_of_submseteq.
Qed.

Lemma sum_sizes_from (bs pre : list Buffer) :
  foldr Z.add 0%Z ((λ k, default 0%Z (size <$> (pre ++ bs) !! k))
                     <$> seq (length pre) (length bs))
  = total_size bs.
Proof.
  revert pre. induction bs as [|b bs IH]; intros pre; [done|].
  cbn [length seq]. rewrite fmap_cons. cbn [foldr].
  rewrite list_lookup_middle by done. cbn [fmap option_fmap option_map default].
  specialize (IH (pre ++ [b])). rewrite <- app_assoc, length_app in IH. cbn in IH.
  rewrite Nat.add_1_r in IH. rewrite IH. unfold total_size. by rewrite fmap_cons.
Qed.

Lemma sum_sizes_seq (bs : list Buffer) :
  foldr Z.add 0%Z ((λ k, default 0%Z (size <$> bs !! k)) <$> seq 0 (length bs))
  = total_size bs.
Proof. apply (sum_sizes_from bs []). Qed.

Lemma weight_nonneg G t : (0 ≤ itemsize G t)%Z → (0 ≤ weight G t)%Z.
Proof. unfold weight. nia. Qed.

Section rounds_total.
Context (f : tensor → gset tensor) (w : list (tensor * Z)) (h : tensor → Z).

Lemma rounds_total q st st' :
  rounds f w q st st' →
  (∀ x, x ∈ q → weights_getitem w x = Ok (h x) ∧ (0 ≤ h x)%Z) →
  (total_size (st_buffers st')
   ≤ total_size (st_buffers st) + foldr Z.add 0 (h <$> q))%Z.
Proof.
  induction 1 as [st|u q st st' wu Hwu Hr IH]; intros Hq;
    [rewrite fmap_nil; cbn [foldr]; lia|].
  destruct (Hq u) as [Hu Hpos]; [by left|]. rewrite Hu in Hwu. injection Hwu as <-.
  etrans; [apply IH|].
  { intros x [_ Hx]%list_elem_of_filter. apply Hq. by right. }
  cbn [turn st_buffers]. rewrite total_size_snoc. cbn [size].
  assert (foldr Z.add 0 (h <$> filter (λ x, x ∉ u :: (scan f (f u) q).2) q)
          ≤ foldr Z.add 0 (h <$> q))%Z as Hsub.
  { apply sum_submseteq; [apply sublist_submseteq, sublist_filter|].
    intros x Hx. apply Hq. by right. }
  rewrite fmap_cons. cbn [foldr]. lia.
Qed.
End rounds_total.

Lemma Forall2_choose {A B} (P : A → B → Prop) (l : list A) :
  (∀ x, x ∈ l → ∃ y, P x y) → ∃ k, Forall2 P l k.
Proof.
  induction l as [|x l IH]; intros H; [by exists []|].
  destruct (H x) as [y Hy]; [by left|].
  destruct IH as [k Hk]; [intros; apply H; by right|].
  exists (y :: k). by constructor.
Qed.

Lemma color_memory_spec (G : OpGraph) (lives : list (list tensor)) (σ : store) :
  (∀ t, t ∈ concat lives → 0 ≤ itemsize G t)%Z →
  ∃ g memory buffers g' σ',
    InterferenceGraph_init G lives = Ok g
    ∧ InterferenceGraph_color g σ = Ok (memory, buffers, g', σ')
    ∧ (∀ l, l ∈ lives → NoDup l → total_weight G l ≤ memory)%Z
    ∧ (memory ≤ total_weight G (first_seen (concat lives)))%Z.
Proof.
  intros Hpos.
  destruct (InterferenceGraph_init_facts G lives) as (g & Hg & Hf).
  destruct (color_run_rounds G lives g σ Hf) as (st & Hrun & Hr).
  exists g. unfold InterferenceGraph_color. rewrite Hrun. cbn [mbind res_bind].
  eexists _, _, _, _. split; [done|]. split; [done|].
  assert (∀ k S, st_partitions st !! k = Some S →
            ∃ u, st_buffers st !! k = Some (mkBuffer (Z.of_nat k) (weight G u) None)
                 ∧ u ∈ concat lives ∧ ∀ x, x ∈ S → (weight G x ≤ weight G u)%Z) as Hpart.
  { intros k S Hk.
    destruct (partition_turn_of _ _ _ _ _ _ _ Hf Hr Hk)
      as (u & qk & wu & -> & Hsub & Hwu & Hb & _).
    assert (u ∈ concat lives) as Hu.
    { apply (if_queue _ _ _ Hf). eapply elem_of_sublist; [|exact Hsub]. by left. }
    rewrite (if_weight _ _ _ Hf u Hu) in Hwu. injection Hwu as <-.
    exists u. split; [done|]. split; [done|].
    pose proof (StronglySorted_sublist _ _ _ Hsub (if_sorted _ _ _ Hf)) as Hs.
    apply StronglySorted_inv in Hs as [_ Hs].
    intros x [->|Hx]%elem_of_cons; [lia|].
    eapply Forall_forall in Hs; [exact Hs|].
    eapply elem_of_sublist; [exact Hx|apply scan_sublist]. }
  pose proof (rounds_lengths _ _ _ _ _ Hr eq_refl) as Hlen.
  split.
  - intros l Hl Hnd.
    set (h := λ k, default 0%Z (size <$> st_buffers st !! k)).
    destruct (Forall2_choose
                (λ t k, (∃ S, st_partitions st !! k = Some S ∧ t ∈ S)
                        ∧ (weight G t ≤ h k)%Z) l) as [ks Hks].
    { intros t Ht.
      destruct (rounds_cover _ _ _ _ _ Hr t) as (k & S & Hk & _ & HtS).
      { apply (if_queue _ _ _ Hf), elem_of_concat. eauto. }
      exists k. split; [by eauto|].
      destruct (Hpart k S Hk) as (u & Hb & _ & Hle). unfold h. rewrite Hb. simpl.
      by apply Hle. }
    assert (total_weight G l ≤ foldr Z.add 0 (h <$> ks))%Z as H1.
    { unfold total_weight. clear -Hks.
      induction Hks as [|t k l ks [_ Htk] _ IH]; [done|].
      rewrite !fmap_cons. cbn [foldr]. lia. }
    assert (∀ l0 ks0, (∀ t, t ∈ l0 → t ∈ l) → NoDup l0 →
              Forall2 (λ t k, (∃ S, st_partitions st !! k = Some S ∧ t ∈ S)
                              ∧ (weight G t ≤ h k)%Z) l0 ks0 → NoDup ks0) as Hinj.
    { intros l0 ks0 Hsub Hnd0 H0.
      induction H0 as [|t k l' ks' [(S & Hk & HtS) _] H0 IH]; [constructor|].
      apply NoDup_cons in Hnd0 as [Ht Hnd']. apply NoDup_cons. split.
      - intros Hin. apply (list_elem_of_lookup ks') in Hin as [i Hi].
        destruct (Forall2_lookup_r _ _ _ _ _ H0 Hi) as (t' & Ht' & (S' & Hk' & Ht'S) & _).
        rewrite Hk in Hk'. injection Hk' as <-.
        assert (t' ∈ l') as Hin' by (by eapply list_elem_of_lookup_2).
        assert (t ≠ t') as Hne by congruence.
        eapply (partition_independent _ _ _ _ _ _ _ Hf Hr Hk t t'); eauto.
        apply (if_adj _ _ _ Hf); [done|]. exists l.
        split; [done|]. split; apply Hsub; [by left|by right].
      - apply IH; [|done]. intros t' Ht'. apply Hsub. by right. }
    pose proof (Hinj l ks (λ _ H, H) Hnd Hks) as Hndk.
    assert (ks ⊆+ seq 0 (length (st_buffers st))) as Hsub.
    { apply NoDup_submseteq; [done|]. intros k Hk.
      apply (list_elem_of_lookup ks) in Hk as [i Hi].
      destruct (Forall2_lookup_r _ _ _ _ _ Hks Hi) as (t' & _ & (S' & Hk' & _) & _).
      apply elem_of_seq. apply lookup_lt_Some in Hk'. lia. }
    etrans; [exact H1|]. rewrite <- sum_sizes_seq.
    apply sum_submseteq; [done|]. intros k Hk%elem_of_seq. unfold h.
    destruct (st_partitions st !! k) as [S|] eqn:HS.
    + destruct (Hpart k S HS) as (u & -> & Hu & _). simpl. by apply weight_nonneg, Hpos.
    + apply lookup_ge_None in HS. lia.
  - assert (total_size (st_buffers st)
            ≤ total_size (st_buffers (color_start g σ))
              + foldr Z.add 0 (weight G <$> queue_of g))%Z as Htot.
    { apply (rounds_total _ _ (weight G) _ _ _ Hr).
      intros x Hx%(if_queue _ _ _ Hf). split; [by apply (if_weight _ _ _ Hf)|].
      by apply weight_nonneg, Hpos. }
    cbn in Htot. etrans; [exact Htot|]. unfold total_weight.
    assert (queue_of g ≡ₚ first_seen (concat lives)) as Hperm.
    { apply NoDup_Permutation; [apply Hf|apply first_seen_NoDup|].
      intros x. by rewrite (if_queue _ _ _ Hf), elem_of_first_seen. }
    assert (∀ l1 l2 : list Z, l1 ≡ₚ l2 → foldr Z.add 0%Z l1 = foldr Z.add 0%Z l2) as Hsum.
    { induction 1; simpl; lia. }
    rewrite (Hsum _ _ (fmap_Permutation (weight G) _ _ Hperm)). lia.
Qed.

(** X23.  The memory [color] returns is enough and not wasteful: when no
    item size is negative, it is at least the bytes of the tensors of any one
    live set, which all have buffers of their own, and at most the bytes of
    all the tensors, each counted once. *)
Theorem color_memory_bounds (G : OpGraph) (lives : list (list tensor)) (σ : store) :
  (∀ t, t ∈ concat lives → 0 ≤ itemsize G t)%Z →
  ∃ g memory buffers g' σ',
    InterferenceGraph_init G lives = Ok g
    ∧ InterferenceGraph_color g σ = Ok (memory, buffers, g', σ')
    ∧ (∀ l, l ∈ lives → NoDup l → total_weight G l ≤ memory)%Z
    ∧ (memory ≤ total_weight G (first_seen (concat lives)))%Z.
Proof. apply color_memory_spec. Qed.

(** ** Facts: liveness *)

Lemma pyindex_minus_one {A} (l : list A) :
  l ≠ [] → ∃ x, pyindex l (-1) = Ok x ∧ last l = Some x.
Proof.
  intros Hl. destruct (last l) as [x|] eqn:Hlast.
  2:{ by apply last_None in Hlast. }
  exists x. split; [|done]. rewrite last_lookup in Hlast.
  assert (0 < length l) as Hlen by (destruct l; [done|simpl; lia]).
  assert (Z.ltb (Z.of_nat (length l) + -1) 0 = false) as Hj by (apply Z.ltb_ge; lia).
  unfold pyindex. change (-1 <? 0)%Z with true. cbv zeta.
  change (if true then Z.of_nat (length l) + -1 else -1)%Z with (Z.of_nat (length l) + -1)%Z.
  rewrite Hj.
  replace (Z.to_nat (Z.of_nat (length l) + -1)) with (pred (length l)) by lia.
  by rewrite Hlast.
Qed.

Section liveness.
Context (G : OpGraph).

Lemma liveness_back_eq (L : gmap node (gset tensor)) cp lc :
  L !! cp.1 = Some lc →
  liveness_back G L cp
  = Ok (<[cp.2 := descriptions G (args G cp.1) ∪ (lc ∖ descriptions G (defs G cp.1))]> L).
Proof. intros H. unfold liveness_back. by rewrite (getitem_Some L cp.1 lc). Qed.

Lemma liveness_uses_eq (L : gmap node (gset tensor)) op l :
  L !! op = Some l →
  liveness_uses G L op = Ok (<[op := l ∪ descriptions G (args G op)]> L).
Proof.
  intros H. unfold liveness_uses, can_do_inplace. by rewrite (getitem_Some L op l).
Qed.

Lemma liveness_back_total pairs : ∀ L : gmap node (gset tensor),
  (∀ cp, cp ∈ pairs → is_Some (L !! cp.1)) →
  ∃ L', foldM (liveness_back G) pairs L = Ok L'
    ∧ ∀ k, is_Some (L !! k) → is_Some (L' !! k).
Proof.
  induction pairs as [|cp pairs IH]; intros L Hdom.
  - exists L. done.
  - destruct (Hdom cp) as [lc Hlc]; [by left|].
    rewrite foldM_cons, (liveness_back_eq L cp lc) by done. cbn [mbind res_bind].
    destruct (IH (<[cp.2 := descriptions G (args G cp.1)
                             ∪ (lc ∖ descriptions G (defs G cp.1))]> L))
      as (L' & HL' & Hmono).
    + intros cp' Hcp'. rewrite lookup_insert_is_Some'. right. apply Hdom. by right.
    + exists L'. split; [done|]. intros k Hk. apply Hmono.
      rewrite lookup_insert_is_Some'. by right.
Qed.

Lemma liveness_uses_total order : ∀ L : gmap node (gset tensor),
  (∀ op, op ∈ order → is_Some (L !! op)) →
  ∃ L', foldM (liveness_uses G) order L = Ok L'
    ∧ (∀ k s, L !! k = Some s → ∃ s', L' !! k = Some s' ∧ s ⊆ s')
    ∧ ∀ op, op ∈ order →
        ∃ s, L' !! op = Some s ∧ descriptions G (args G op) ⊆ s.
Proof.
  induction order as [|op order IH]; intros L Hdom.
  - exists L. split; [done|]. split; [by eauto|]. by intros op ?%elem_of_nil.
  - destruct (Hdom op) as [l Hl]; [by left|].
    rewrite foldM_cons, (liveness_uses_eq L op l) by done. cbn [mbind res_bind].
    set (L1 := <[op := l ∪ descriptions G (args G op)]> L).
    destruct (IH L1) as (L' & HL' & Hmono & Huses).
    { intros op' Hop'. unfold L1. rewrite lookup_insert_is_Some'. right.
      apply Hdom. by right. }
    exists L'. split; [done|]. split.
    + intros k s Hk. destruct (decide (k = op)) as [->|Hne].
      * destruct (Hmono op (l ∪ descriptions G (args G op))) as (s' & Hs' & Hsub).
        { unfold L1. by rewrite lookup_insert_eq. }
        exists s'. split; [done|]. rewrite Hl in Hk. injection Hk as <-. set_solver.
      * apply Hmono. unfold L1. by rewrite lookup_insert_ne.
    + intros op' [->|Hop']%elem_of_cons; [|by apply Huses].
      destruct (Hmono op (l ∪ descriptions G (args G op))) as (s' & Hs' & Hsub).
      { unfold L1. by rewrite lookup_insert_eq. }
      exists s'. split; [done|]. set_solver.
Qed.
End liveness.

Lemma DataFlowGraph_liveness_eq G dfg fuel :
  DataFlowGraph_liveness G dfg fuel =
  (order ← DataFlowGraph_instructions dfg fuel;
   last ← pyindex order (-1);
   liveness ← foldM (liveness_back G) (reverse (zip (tail order) (removelast order)))
     (<[last := descriptions G (results dfg)
                ∪ descriptions G (filter (λ x, persistent G x = true)
                                    (elements (dom (successors dfg))))]>
        (list_to_map ((λ op, (op, ∅)) <$> order)));
   foldM (liveness_uses G) order liveness).
Proof. reflexivity. Qed.

Lemma elem_of_zip_tail {A} (l : list A) (cp : A * A) :
  cp ∈ zip (tail l) (removelast l) → cp.1 ∈ l ∧ cp.2 ∈ l.
Proof.
  intros Hcp. destruct cp as [a b]. simpl. split.
  - apply elem_of_zip_l in Hcp. destruct l; [done|]. by right.
  - apply elem_of_zip_r in Hcp. apply list_elem_of_In in Hcp.
    apply list_elem_of_In. clear -Hcp. induction l as [|x [|y l] IH]; simpl in *; try tauto.
Qed.

Lemma liveness_back_frame G pairs : ∀ L L' : gmap node (gset tensor),
  foldM (liveness_back G) pairs L = Ok L' → ∀ k, k ∉ pairs.*2 → L' !! k = L !! k.
Proof.
  induction pairs as [|cp pairs IH]; intros L L' Hrun k Hk.
  { by injection Hrun as <-. }
  rewrite foldM_cons in Hrun. apply bind_Ok in Hrun as (L1 & Hcp & Hrun).
  cbn in Hk. apply not_elem_of_cons in Hk as [Hne Hk].
  rewrite (IH L1 L' Hrun k Hk).
  unfold liveness_back in Hcp. apply bind_Ok in Hcp as (lc & _ & [= <-]).
  by rewrite lookup_insert_ne.
Qed.

Lemma last_not_in_removelast {A} (l : list A) x :
  NoDup l → last l = Some x → x ∉ removelast l.
Proof.
  induction l as [|y [|z l] IH]; intros Hnd Hlast; [done|set_solver|].
  apply NoDup_cons in Hnd as [Hy Hnd].
  change (removelast (y :: z :: l)) with (y :: removelast (z :: l)).
  change (last (y :: z :: l)) with (last (z :: l)) in Hlast.
  apply not_elem_of_cons. split; [|by apply IH].
  intros ->. apply Hy. rewrite last_lookup in Hlast. by eapply list_elem_of_lookup_2.
Qed.

(** C5.  When the list of instructions is not empty, [liveness] returns a
    mapping that gives every instruction a live set containing the tensor
    descriptions of all its arguments. *)
Theorem liveness_keeps_uses (G : OpGraph) (dfg : DataFlowGraph) (fuel : nat)
    (order : list node) :
  DataFlowGraph_instructions dfg fuel = Ok order → order ≠ [] →
  ∃ L, DataFlowGraph_liveness G dfg fuel = Ok L
    ∧ ∀ i, i ∈ order →
        ∃ live, L !! i = Some live ∧ descriptions G (args G i) ⊆ live.
Proof.
  intros Horder Hne. rewrite DataFlowGraph_liveness_eq, Horder. cbn [mbind res_bind].
  destruct (pyindex_minus_one order Hne) as (last & -> & Hlast). cbn [mbind res_bind].
  set (L0 := <[last := _]> _).
  assert (∀ op, op ∈ order → is_Some (L0 !! op)) as Hdom.
  { intros op Hop. unfold L0. rewrite lookup_insert_is_Some'. right.
    apply elem_of_dom. rewrite dom_list_to_map_L, fst_tagged. by apply elem_of_list_to_set. }
  destruct (liveness_back_total G (reverse (zip (tail order) (removelast order))) L0)
    as (L1 & -> & Hmono).
  { intros cp Hcp%elem_of_reverse%elem_of_zip_tail. apply Hdom, Hcp. }
  cbn [mbind res_bind].
  destruct (liveness_uses_total G order L1) as (L & -> & _ & Huses).
  { intros op Hop. by apply Hmono, Hdom. }
  exists L. split; [done|]. exact Huses.
Qed.

(** ** Facts: the directed graph *)

Lemma invert_add_eq x (r : gmap node (gset node)) y s :
  r !! y = Some s → invert_add x r y = Ok (<[y := s ∪ {[x]}]> r).
Proof. intros H. unfold invert_add. by rewrite (getitem_Some r y s). Qed.

Lemma invert_inner x ys : ∀ r : gmap node (gset node),
  (∀ y, y ∈ ys → is_Some (r !! y)) →
  ∃ r', foldM (invert_add x) ys r = Ok r'
    ∧ (∀ y, is_Some (r' !! y) ↔ is_Some (r !! y))
    ∧ ∀ y s', r' !! y = Some s' →
        ∃ s, r !! y = Some s ∧ ∀ z, z ∈ s' ↔ z ∈ s ∨ (z = x ∧ y ∈ ys).
Proof.
  induction ys as [|y0 ys IH]; intros r Hdom.
  - exists r. split; [done|]. split; [done|]. intros y s' Hy. exists s'. split; [done|].
    intros z. rewrite elem_of_nil. tauto.
  - destruct (Hdom y0) as [s0 Hs0]; [by left|].
    rewrite foldM_cons, (invert_add_eq x r y0 s0) by done. cbn [mbind res_bind].
    set (r1 := <[y0 := s0 ∪ {[x]}]> r).
    assert (∀ y, is_Some (r1 !! y) ↔ is_Some (r !! y)) as Hdom1.
    { intros y. unfold r1. rewrite lookup_insert_is_Some'. split; [|tauto].
      intros [->|?]; eauto. }
    destruct (IH r1) as (r' & Hrun & Hd & Hs).
    { intros y Hy. apply Hdom1, Hdom. by right. }
    exists r'. split; [done|]. split; [intros y; by rewrite Hd, Hdom1|].
    intros y s' Hy. destruct (Hs y s' Hy) as (s1 & Hs1 & Hz).
    destruct (proj1 (Hdom1 y)) as [s Hsy]; [by rewrite Hs1|].
    exists s. split; [done|]. intros z. rewrite Hz, elem_of_cons.
    unfold r1 in Hs1. destruct (decide (y0 = y)) as [->|Hne].
    + rewrite lookup_insert_eq in Hs1. simplify_eq. set_solver.
    + rewrite lookup_insert_ne in Hs1 by done. simplify_eq. naive_solver.
Qed.

Lemma invert_outer (items : list (node * gset node)) : ∀ r : gmap node (gset node),
  (∀ xo y, xo ∈ items → y ∈ xo.2 → is_Some (r !! y)) →
  ∃ r', foldM (λ result xo, foldM (invert_add xo.1) (elements xo.2) result) items r = Ok r'
    ∧ (∀ y, is_Some (r' !! y) ↔ is_Some (r !! y))
    ∧ ∀ y s', r' !! y = Some s' →
        ∃ s, r !! y = Some s
             ∧ ∀ z, z ∈ s' ↔ z ∈ s ∨ ∃ o, (z, o) ∈ items ∧ y ∈ o.
Proof.
  induction items as [|[x o] items IH]; intros r Hdom.
  - exists r. split; [done|]. split; [done|]. intros y s' Hy. exists s'. split; [done|].
    intros z. split; [by left|]. intros [?|(o & ?%elem_of_nil & _)]; done.
  - rewrite foldM_cons. cbn [fst snd].
    destruct (invert_inner x (elements o) r) as (r1 & -> & Hd1 & Hs1).
    { intros y Hy%elem_of_elements. by apply (Hdom (x, o)); [left|]. }
    cbn [mbind res_bind].
    destruct (IH r1) as (r' & Hrun & Hd & Hs).
    { intros xo y Hxo Hy. apply Hd1. apply (Hdom xo); [by right|done]. }
    exists r'. split; [done|]. split; [intros y; by rewrite Hd, Hd1|].
    intros y s' Hy. destruct (Hs y s' Hy) as (s1 & Hy1 & Hz).
    destruct (Hs1 y s1 Hy1) as (s & Hy0 & Hz1).
    exists s. split; [done|]. intros z. rewrite Hz, Hz1. split.
    + intros [[?|[-> Hyo%elem_of_elements]]|(o' & ? & ?)].
      * by left.
      * right. exists o. split; [by left|done].
      * right. exists o'. split; [by right|done].
    + intros [?|(o' & [[= -> ->]|?]%elem_of_cons & ?)].
      * by left; left.
      * left; right. by rewrite elem_of_elements.
      * right. eauto.
Qed.

Lemma Digraph_invert_spec G :
  closed G →
  ∃ P, Digraph_invert G = Ok P
    ∧ (∀ y, is_Some (P !! y) ↔ is_Some (G !! y))
    ∧ ∀ y s, P !! y = Some s → ∀ x, x ∈ s ↔ edge G x y.
Proof.
  intros Hcl. unfold Digraph_invert.
  destruct (invert_outer (map_to_list G) ((λ _, ∅) <$> G)) as (P & -> & Hd & Hs).
  { intros [x o] y Hxo%elem_of_map_to_list Hy. simpl in *.
    rewrite lookup_fmap, fmap_is_Some. apply (Hcl x y). exists o. done. }
  exists P. split; [done|]. split.
  - intros y. by rewrite Hd, lookup_fmap, fmap_is_Some.
  - intros y s Hy x. destruct (Hs y s Hy) as (s0 & Hs0 & ->).
    rewrite lookup_fmap in Hs0. destruct (G !! y); simplify_eq/=.
    unfold edge. setoid_rewrite elem_of_map_to_list. set_solver.
Qed.

Lemma Digraph_inputs_spec G :
  closed G →
  ∃ inputs, Digraph_inputs G = Ok inputs
    ∧ ∀ u, u ∈ inputs ↔ is_Some (G !! u) ∧ ∀ x, ¬ edge G x u.
Proof.
  intros Hcl. unfold Digraph_inputs.
  destruct (Digraph_invert_spec G Hcl) as (P & -> & Hd & Hs). cbn [mbind res_bind].
  eexists. split; [done|]. intros u.
  rewrite list_elem_of_fmap. split.
  - intros ([u' s] & Heq & [Hsz Hin%elem_of_map_to_list]%list_elem_of_filter).
    simpl in *. subst u'.
    split; [apply Hd; by eauto|]. intros x Hx%(Hs u s Hin).
    apply size_empty_inv in Hsz. set_solver.
  - intros [Hu Hno]. apply Hd in Hu as [s Hus]. exists (u, s). split; [done|].
    apply list_elem_of_filter. split; [|by apply elem_of_map_to_list]. simpl.
    apply size_empty_iff. apply set_equiv. intros x. rewrite (Hs u s Hus).
    split; [by intros ?%Hno|by intros ?%not_elem_of_empty].
Qed.

Section depth.
Context (R : relation node) (D : gset node).
Hypothesis R_closed : ∀ x y, R x y → y ∈ D.
Hypothesis R_acyclic : ∀ x, ¬ tc R x x.

Lemma depth_le_mono u n : depth_le R u n → ∀ m, n ≤ m → depth_le R u m.
Proof.
  induction 1 as [u n _ IH]. intros [|m] Hm; [lia|].
  constructor. intros v Hv. apply IH; [done|lia].
Qed.

Lemma depth_le_path n : ∀ (path : gset node) u,
  u ∈ D → path ⊆ D → (∀ x, x ∈ path → tc R x u) →
  base.size (D ∖ path) ≤ n → depth_le R u n.
Proof.
  induction n as [|n IH]; intros path u Hu Hsub Hpath Hsize.
  - assert (u ∉ path) as Hnot by (intros ?%Hpath; by eapply R_acyclic).
    assert (base.size (D ∖ path) = 0) as Hz%size_empty_inv by lia.
    exfalso. set_solver.
  - assert (u ∉ path) as Hnot by (intros ?%Hpath; by eapply R_acyclic).
    constructor. intros v Hv. apply (IH (path ∪ {[u]})).
    + by eapply R_closed.
    + set_solver.
    + intros x [Hx| ->%elem_of_singleton]%elem_of_union.
      * eapply tc_r; eauto.
      * by apply tc_once.
    + assert (D ∖ (path ∪ {[u]}) = (D ∖ path) ∖ {[u]}) as -> by set_solver.
      rewrite size_difference by set_solver. rewrite size_singleton. lia.
Qed.

Lemma depth_le_size u : u ∈ D → depth_le R u (base.size D).
Proof.
  intros Hu. apply (depth_le_path _ ∅); [done|set_solver|set_solver|].
  apply subseteq_size. set_solver.
Qed.
End depth.

Lemma topo_before R l v w :
  topo R l → R v w → v ∈ l → before l v w.
Proof.
  induction 1 as [|u l Hu Ht IH]; intros Hvw Hv; [by apply elem_of_nil in Hv|].
  apply elem_of_cons in Hv as [->|Hv].
  - apply Hu, list_elem_of_split in Hvw as (l2 & l3 & ->). by exists [], l2, l3.
  - destruct (IH Hvw Hv) as (l1 & l2 & l3 & ->). by exists (u :: l1), l2, l3.
Qed.

Section dfs.
Context (G : gmap node (gset node)).
Hypothesis G_closed : closed G.
Hypothesis G_acyclic : acyclic G.

Local Notation dfs_inv := (dfs_inv G).
Local Notation visit_post := (visit_post G).

Lemma fold_visits (step : gset node * list node → node → res (gset node * list node))
    (P : node → Prop) :
  (∀ s v, dfs_inv s → P v → ∃ s', step s v = Ok s' ∧ visit_post v s s') →
  ∀ l s, dfs_inv s → (∀ v, v ∈ l → P v) →
  ∃ s', foldM step l s = Ok s' ∧ dfs_inv s' ∧ (∀ v, v ∈ l → v ∈ s'.1)
    ∧ s.1 ⊆ s'.1 ∧ ∀ x, x ∈ s'.1 → x ∈ s.1 ∨ ∃ v, v ∈ l ∧ rtc (edge G) v x.
Proof.
  intros Hstep. induction l as [|v l IH]; intros s Hinv HP.
  - exists s. split; [done|]. split; [done|]. split; [by intros v ?%elem_of_nil|].
    split; [done|]. by left.
  - destruct (Hstep s v Hinv) as (s1 & Hs1 & Hinv1 & Hv & Hsub & Hreach); [apply HP; by left|].
    destruct (IH s1 Hinv1) as (s' & Hs' & Hinv' & Hall & Hsub' & Hreach').
    { intros v' Hv'. apply HP. by right. }
    exists s'. rewrite foldM_cons, Hs1. split; [done|]. split; [done|].
    split; [|split].
    + intros v' [->|?]%elem_of_cons; [by apply Hsub'|by apply Hall].
    + set_solver.
    + intros x [Hx|(v' & ? & ?)]%Hreach'.
      * destruct (Hreach x Hx) as [?|?]; [by left|]. right. exists v. split; [by left|done].
      * right. exists v'. split; [by right|done].
Qed.

Lemma visit_spec fuel : ∀ u s,
  dfs_inv s → is_Some (G !! u) → depth_le (edge G) u fuel →
  ∃ s', visit G push fuel u s = Ok s' ∧ visit_post u s s'.
Proof.
  induction fuel as [|fuel IH]; intros u s Hinv [vs Hvs] Hdepth; [by inversion Hdepth|].
  simpl. destruct (decide (u ∈ s.1)) as [Hin|Hin].
  { exists s. split; [done|]. split; [done|]. split; [done|]. split; [done|]. by left. }
  rewrite (getitem_Some G u vs) by done. cbn [mbind res_bind].
  assert (∀ v, v ∈ sorted_by_id (elements vs) ↔ edge G u v) as Hchildren.
  { intros v. unfold sorted_by_id. rewrite merge_sort_Permutation, elem_of_elements.
    unfold edge. rewrite Hvs. naive_solver. }
  destruct (fold_visits (unless_visited (visit G push fuel))
              (λ v, is_Some (G !! v) ∧ depth_le (edge G) v fuel))
    with (l := sorted_by_id (elements vs)) (s := s)
    as (s1 & -> & Hinv1 & Hall & Hsub & Hreach); [|done|..].
  { intros s0 v Hinv0 [Hv Hd]. unfold unless_visited.
    destruct (decide (v ∈ s0.1)).
    - exists s0. split; [done|]. split; [done|]. split; [done|]. split; [done|]. by left.
    - by apply IH. }
  { intros v Hv%Hchildren. split; [by eapply G_closed|].
    inversion Hdepth; subst. auto. }
  cbn [mbind res_bind]. eexists. split; [done|].
  assert (u ∉ s1.1) as Hu1.
  { intros [?|(v & Hv%Hchildren & Hvu)]%Hreach; [done|].
    eapply G_acyclic. eapply tc_rtc_r; [by apply tc_once|done]. }
  destruct Hinv1 as (Hnd & Hmem & Htopo).
  split; [|split; [|split]]; cbn [fst snd].
  - split; [|split]; cbn [fst snd]; unfold push.
    + apply NoDup_cons. split; [by rewrite Hmem|done].
    + intros x. rewrite elem_of_cons, Hmem. set_solver.
    + constructor; [|done]. intros w Hw%Hchildren. by apply Hmem, Hall.
  - set_solver.
  - set_solver.
  - intros x [->%elem_of_singleton|Hx]%elem_of_union; [by right|].
    destruct (Hreach x Hx) as [?|(v & Hv%Hchildren & Hvx)]; [by left|].
    right. by eapply rtc_l.
Qed.
End dfs.

Lemma tc_flip_inv {A} (R : relation A) x y : tc (flip R) x y → tc R y x.
Proof.
  induction 1 as [x y H|x y z H _ IH]; [by apply tc_once|].
  eapply tc_r; eauto.
Qed.

Lemma rtc_closed G u x : closed G → is_Some (G !! u) → rtc (edge G) u x → is_Some (G !! x).
Proof. intros Hcl Hu Hr. induction Hr as [|u v x Huv _ IH]; [done|]. apply IH. by eapply Hcl. Qed.

Lemma before_elem_of l v w : before l v w → v ∈ l ∧ w ∈ l.
Proof.
  intros (l1 & l2 & l3 & ->). split.
  - apply elem_of_app. right. by left.
  - apply elem_of_app. right. right. apply elem_of_app. right. by left.
Qed.

(** What [topsort] returns with fuel for the depth of the graph. *)
Lemma Digraph_topsort_spec (G : gmap node (gset node)) (fuel : nat) :
  closed G → acyclic G → (∀ u, is_Some (G !! u) → depth_le (edge G) u fuel) →
  ∃ order, Digraph_topsort G fuel = Ok order
    ∧ NoDup order
    ∧ (∀ v, v ∈ order ↔ is_Some (G !! v))
    ∧ ∀ v w, edge G v w → before order v w.
Proof.
  intros Hcl Hac Hdepth.
  destruct (Digraph_inputs_spec G Hcl) as (inputs & Hinputs & Hin).
  unfold Digraph_topsort, Digraph_dfs. rewrite Hinputs. cbn [mbind res_bind].
  destruct (fold_visits G Hcl Hac (λ s x, visit G push fuel x s) (λ v, is_Some (G !! v)))
    with (l := sorted_by_id inputs) (s := (∅ : gset node, [] : list node))
    as (s' & Hrun & (Hnd & Hmem & Htopo) & Hall & _ & Hreach).
  { intros s v Hinv Hv. apply visit_spec; auto. }
  { split; [constructor|]. split; [|constructor]. simpl. set_solver. }
  { intros v. unfold sorted_by_id. rewrite merge_sort_Permutation. by intros [? _]%Hin. }
  rewrite Hrun. cbn [mbind res_bind]. exists s'.2. split; [done|]. split; [done|].
  assert (∀ v w, edge G v w → v ∈ s'.2 → w ∈ s'.2) as Hclosed.
  { intros v w Hvw Hv. by destruct (before_elem_of _ _ _ (topo_before _ _ _ _ Htopo Hvw Hv)). }
  destruct (Digraph_invert_spec G Hcl) as (P & _ & HPd & HPs).
  assert (∀ n x, depth_le (flip (edge G)) x n → is_Some (G !! x) → x ∈ s'.2) as Hcover.
  { intros n x Hd. induction Hd as [x n Hpred IH]. intros Hx.
    destruct (proj2 (HPd x) Hx) as [s Hs].
    destruct (set_choose_or_empty s) as [[p Hp]|Hempty].
    - apply (HPs x s Hs) in Hp. apply (Hclosed p x Hp). apply IH; [done|].
      destruct Hp as (? & ? & _). by eauto.
    - apply Hmem, Hall. unfold sorted_by_id. rewrite merge_sort_Permutation.
      apply Hin. split; [done|]. intros p Hp%(HPs x s Hs). set_solver. }
  split.
  - intros v. split.
    + intros Hv%Hmem. destruct (Hreach v Hv) as [?|(i & Hi & Hiv)]; [set_solver|].
      eapply rtc_closed; [done| |done].
      unfold sorted_by_id in Hi. rewrite merge_sort_Permutation in Hi. by apply Hin in Hi as [? _].
    + intros Hv. apply (Hcover (base.size (dom G))); [|done].
      apply depth_le_size.
      * intros x y (? & ? & _). apply elem_of_dom. by eauto.
      * intros x Hx%tc_flip_inv. by eapply Hac.
      * by apply elem_of_dom.
  - intros v w Hvw. apply (topo_before _ _ _ _ Htopo Hvw).
    apply Hcover with (n := base.size (dom G)).
    + apply depth_le_size.
      * intros x y (? & ? & _). apply elem_of_dom. by eauto.
      * intros x Hx%tc_flip_inv. by eapply Hac.
      * destruct Hvw as (? & ? & _). apply elem_of_dom. by eauto.
    + destruct Hvw as (? & ? & _). by eauto.
Qed.

(** C4, for a successor map that has every successor among its keys.  With
    fuel for the depth of the graph, [topsort] of an acyclic map returns a list
    that holds every node exactly once, and [v] comes before [w] in it
    whenever [w] is a successor of [v]. *)
Theorem topsort_sound (G : gmap node (gset node)) (fuel : nat) :
  closed G → acyclic G → base.size G ≤ fuel →
  ∃ order, Digraph_topsort G fuel = Ok order
    ∧ NoDup order
    ∧ (∀ v, v ∈ order ↔ is_Some (G !! v))
    ∧ ∀ v w, edge G v w → before order v w.
Proof.
  intros Hcl Hac Hfuel. apply Digraph_topsort_spec; [done..|].
  intros u Hu. apply (depth_le_mono _ _ (base.size (dom G))); [|by rewrite size_dom].
  apply depth_le_size.
  - intros x y Hxy. apply elem_of_dom. by eapply Hcl.
  - exact Hac.
  - by apply elem_of_dom.
Qed.

(** X2.  For a successor map that has every successor among its keys,
    [inputs] returns the nodes that are a successor of no node. *)
Theorem inputs_have_no_predecessor (G : gmap node (gset node)) :
  closed G →
  ∃ inputs, Digraph_inputs G = Ok inputs
    ∧ ∀ v, v ∈ inputs ↔ is_Some (G !! v) ∧ ∀ u, ¬ edge G u v.
Proof. apply Digraph_inputs_spec. Qed.

(** ** Facts: what the graph functions do on any map *)

Lemma closed_check (G : gmap node (gset node)) :
  map_Forall (λ _ ws, set_Forall (λ w, is_Some (G !! w)) ws) G → closed G.
Proof. intros H v w (ws & Hv & Hw). by apply (H v ws Hv w). Qed.

Lemma acyclic_rank (G : gmap node (gset node)) (rank : node → nat) :
  map_Forall (λ v ws, set_Forall (λ w, rank w < rank v) ws) G → acyclic G.
Proof.
  intros H.
  assert (∀ v w, tc (edge G) v w → rank w < rank v) as Htc.
  { induction 1 as [v w (ws & Hv & Hw)|v w z (ws & Hv & Hw) _ IH].
    - by apply (H v ws Hv w).
    - pose proof (H v ws Hv w Hw) as Hlt. simpl in Hlt. lia. }
  intros v Hv%Htc. lia.
Qed.

Lemma closed_alt (G : gmap node (gset node)) :
  closed G ↔ map_Forall (λ _ ws, set_Forall (λ w, is_Some (G !! w)) ws) G.
Proof.
  split.
  - intros H v ws Hv w Hw. apply (H v w). by exists ws.
  - apply closed_check.
Qed.

Lemma not_closed_edge (G : gmap node (gset node)) :
  ¬ closed G → ∃ v w, edge G v w ∧ G !! w = None.
Proof.
  rewrite closed_alt, (map_not_Forall _). intros (v & ws & Hv & Hnot).
  apply (not_set_Forall_Exists _) in Hnot as (w & Hw & Hnone).
  exists v, w. split; [by exists ws|]. by apply eq_None_not_Some.
Qed.

Lemma invert_add_None x (r : gmap node (gset node)) y :
  r !! y = None → invert_add x r y = Raise KeyError.
Proof. intros H. unfold invert_add, getitem. by rewrite H. Qed.

Lemma invert_inner_raise x ys : ∀ r : gmap node (gset node),
  (∃ y, y ∈ ys ∧ r !! y = None) → foldM (invert_add x) ys r = Raise KeyError.
Proof.
  induction ys as [|y0 ys IH]; intros r (y & Hy & Hnone); [by apply elem_of_nil in Hy|].
  rewrite foldM_cons. destruct (r !! y0) as [s0|] eqn:Hy0.
  - rewrite (invert_add_eq x r y0 s0) by done. cbn [mbind res_bind]. apply IH.
    exists y. apply elem_of_cons in Hy as [->|Hy]; [congruence|].
    split; [done|]. rewrite lookup_insert_ne; [done|congruence].
  - by rewrite invert_add_None.
Qed.

Lemma invert_outer_raise (items : list (node * gset node)) : ∀ r : gmap node (gset node),
  (∃ xo y, xo ∈ items ∧ y ∈ xo.2 ∧ r !! y = None) →
  foldM (λ result xo, foldM (invert_add xo.1) (elements xo.2) result) items r
  = Raise KeyError.
Proof.
  induction items as [|[x o] items IH]; intros r (xo & y & Hxo & Hy & Hnone).
  { by apply elem_of_nil in Hxo. }
  rewrite foldM_cons. cbn [fst snd].
  destruct (decide (Forall (λ y', is_Some (r !! y')) (elements o))) as [Hgood|Hbad].
  2:{ apply (not_Forall_Exists _), Exists_exists in Hbad as (y' & Hy' & Hn).
      rewrite invert_inner_raise; [done|]. exists y'. split; [done|].
      by apply eq_None_not_Some. }
  rewrite Forall_forall in Hgood.
  destruct (invert_inner x (elements o) r) as (r1 & -> & Hd1 & _); [done|].
  cbn [mbind res_bind]. apply IH. exists xo, y.
  apply elem_of_cons in Hxo as [->|Hxo].
  - destruct (Hgood y) as [? Hsome]; [by apply elem_of_elements|]. congruence.
  - split; [done|]. split; [done|]. apply eq_None_not_Some. rewrite Hd1.
    by apply eq_None_not_Some.
Qed.

Lemma Digraph_invert_open G : ¬ closed G → Digraph_invert G = Raise KeyError.
Proof.
  intros (v & w & (ws & Hv & Hw) & Hnone)%not_closed_edge.
  unfold Digraph_invert. apply invert_outer_raise.
  exists (v, ws), w. split; [by apply elem_of_map_to_list|]. split; [done|].
  by rewrite lookup_fmap, Hnone.
Qed.

Lemma Digraph_inputs_open G : ¬ closed G → Digraph_inputs G = Raise KeyError.
Proof. intros H. unfold Digraph_inputs. by rewrite Digraph_invert_open. Qed.

(** X4.  A successor map with a successor that is not a key cannot be inverted:
    [_invert], [inputs], [dfs] and [topsort] raise [KeyError], whatever the rest of
    the map. *)
Theorem open_map_raises_KeyError (G : gmap node (gset node)) (v w : node) :
  edge G v w → G !! w = None →
  Digraph_invert G = Raise KeyError
  ∧ Digraph_inputs G = Raise KeyError
  ∧ (∀ (A : Type) (fun_ : node → A → A) fuel a, Digraph_dfs G fun_ fuel a = Raise KeyError)
  ∧ ∀ fuel, Digraph_topsort G fuel = Raise KeyError.
Proof.
  intros Hvw Hw.
  assert (¬ closed G) as Hopen.
  { intros Hcl. apply (Hcl v w) in Hvw. rewrite Hw in Hvw. by destruct Hvw. }
  pose proof (Digraph_inputs_open G Hopen) as Hinputs.
  split; [by apply Digraph_invert_open|]. split; [done|]. split.
  - intros A fun_ fuel a. unfold Digraph_dfs. by rewrite Hinputs.
  - intros fuel. unfold Digraph_topsort, Digraph_dfs. by rewrite Hinputs.
Qed.

(** X5.  Inverting twice gives the map back: for a map with every successor
    among its keys, [_invert] returns the map of predecessors, which has the
    same keys, and [_invert] of that map is the map of successors. *)
Theorem invert_twice (G : gmap node (gset node)) :
  closed G →
  ∃ P, Digraph_invert G = Ok P
    ∧ (∀ v, is_Some (P !! v) ↔ is_Some (G !! v))
    ∧ (∀ v w, edge P w v ↔ edge G v w)
    ∧ Digraph_invert P = Ok G.
Proof.
  intros Hcl. destruct (Digraph_invert_spec G Hcl) as (P & HP & Hd & Hs).
  assert (∀ v w, edge P w v ↔ edge G v w) as Hedge.
  { intros v w. split.
    - intros (s & Hw & Hv). by apply (Hs w s Hw).
    - intros Hvw. destruct (proj2 (Hd w) (Hcl v w Hvw)) as [s Hw].
      exists s. split; [done|]. by apply (Hs w s Hw). }
  assert (closed P) as HclP.
  { intros w v Hwv%Hedge. apply Hd. destruct Hwv as (? & ? & _). by eauto. }
  destruct (Digraph_invert_spec P HclP) as (G' & HG' & Hd' & Hs').
  exists P. split; [done|]. split; [done|]. split; [done|].
  rewrite HG'. f_equal. apply map_eq. intros v.
  destruct (G !! v) as [ws|] eqn:Hv.
  - destruct (proj2 (Hd' v)) as [ws' Hv']; [apply Hd; by rewrite Hv|].
    rewrite Hv'. f_equal. apply set_eq. intros w.
    rewrite (Hs' v ws' Hv'), Hedge. unfold edge. rewrite Hv. naive_solver.
  - apply eq_None_not_Some. rewrite Hd', Hd, Hv. by intros [? ?].
Qed.

Lemma foldM_Raise {A B} (f : B → A → res B) l e : ∀ b,
  foldM f l b = Raise e → ∃ x b', x ∈ l ∧ f b' x = Raise e.
Proof.
  induction l as [|x l IH]; intros b Hrun; [done|].
  rewrite foldM_cons in Hrun. destruct (f b x) as [b1| |] eqn:Hx; cbn in Hrun; [|by exists x, b; split; [left|congruence]|done].
  destruct (IH b1 Hrun) as (y & b' & Hy & Hf). exists y, b'. split; [by right|done].
Qed.

Lemma topo_closed (R : relation node) l x y : topo R l → x ∈ l → R x y → y ∈ l.
Proof.
  induction 1 as [|u l Hu Ht IH]; intros Hx Hxy; [by apply elem_of_nil in Hx|].
  apply elem_of_cons in Hx as [->|Hx]; right; [by apply Hu|by apply IH].
Qed.

Lemma topo_rtc_closed (R : relation node) l x y : topo R l → x ∈ l → rtc R x y → y ∈ l.
Proof.
  intros Ht Hx Hr. induction Hr as [|x z y Hxz _ IH]; [done|].
  apply IH. by eapply topo_closed.
Qed.

Section dfs_partial.
Context (G : gmap node (gset node)).

Local Notation dfs_sound := (dfs_sound G).

Lemma fold_visits_partial
    (step : gset node * list node → node → res (gset node * list node)) :
  (∀ s v s', dfs_sound s → step s v = Ok s' →
     dfs_sound s' ∧ v ∈ s'.1 ∧ s.1 ⊆ s'.1 ∧ ∀ x, x ∈ s'.1 → x ∈ s.1 ∨ rtc (edge G) v x) →
  ∀ l s s', dfs_sound s → foldM step l s = Ok s' →
    dfs_sound s' ∧ (∀ v, v ∈ l → v ∈ s'.1) ∧ s.1 ⊆ s'.1
    ∧ ∀ x, x ∈ s'.1 → x ∈ s.1 ∨ ∃ v, v ∈ l ∧ rtc (edge G) v x.
Proof.
  intros Hstep. induction l as [|v l IH]; intros s s' Hinv Hrun.
  - injection Hrun as <-. split; [done|]. split; [by intros v ?%elem_of_nil|].
    split; [done|]. by left.
  - rewrite foldM_cons in Hrun. apply bind_Ok in Hrun as (s1 & Hs1 & Hrun).
    destruct (Hstep s v s1 Hinv Hs1) as (Hinv1 & Hv & Hsub & Hreach).
    destruct (IH s1 s' Hinv1 Hrun) as (Hinv' & Hall & Hsub' & Hreach').
    split; [done|]. split; [|split].
    + intros v' [->|?]%elem_of_cons; [by apply Hsub'|by apply Hall].
    + set_solver.
    + intros x [Hx|(v' & ? & ?)]%Hreach'.
      * destruct (Hreach x Hx) as [?|?]; [by left|]. right. exists v. split; [by left|done].
      * right. exists v'. split; [by right|done].
Qed.

Lemma visit_partial fuel : ∀ u s s',
  dfs_sound s → visit G push fuel u s = Ok s' →
  dfs_sound s' ∧ u ∈ s'.1 ∧ s.1 ⊆ s'.1 ∧ ∀ x, x ∈ s'.1 → x ∈ s.1 ∨ rtc (edge G) u x.
Proof.
  induction fuel as [|fuel IH]; intros u s s' Hinv Hrun; [done|].
  simpl in Hrun. destruct (decide (u ∈ s.1)) as [Hin|Hin].
  { injection Hrun as <-. split; [done|]. split; [done|]. split; [done|]. by left. }
  apply bind_Ok in Hrun as (vs & Hvs%getitem_Ok & Hrun).
  apply bind_Ok in Hrun as (s1 & Hfold & [= <-]).
  assert (∀ v, v ∈ sorted_by_id (elements vs) ↔ edge G u v) as Hchildren.
  { intros v. unfold sorted_by_id. rewrite merge_sort_Permutation, elem_of_elements.
    unfold edge. rewrite Hvs. naive_solver. }
  destruct (fold_visits_partial (unless_visited (visit G push fuel)))
    with (l := sorted_by_id (elements vs)) (s := s) (s' := s1)
    as (Hinv1 & Hall & Hsub & Hreach); [|done|done|].
  { intros s0 v s0' Hinv0. unfold unless_visited.
    destruct (decide (v ∈ s0.1)).
    - intros [= <-]. split; [done|]. split; [done|]. split; [done|]. by left.
    - by apply IH. }
  destruct Hinv1 as [(Hnd & Hmem & Htopo) Hacyc].
  assert (u ∉ s1.1) as Hu1.
  { intros Hu. apply (Hacyc u Hu).
    destruct (Hreach u Hu) as [?|(v & Hv%Hchildren & Hvu)]; [done|].
    eapply tc_rtc_r; [by apply tc_once|done]. }
  split; [|split; [|split]]; cbn [fst snd].
  - split; [split; [|split]|]; cbn [fst snd]; unfold push.
    + apply NoDup_cons. split; [by rewrite Hmem|done].
    + intros x. rewrite elem_of_cons, Hmem. set_solver.
    + constructor; [|done]. intros w Hw%Hchildren. by apply Hmem, Hall.
    + intros x [->%elem_of_singleton|Hx]%elem_of_union; [|by apply Hacyc].
      intros Htc. apply Hu1. apply tc_rtc in Htc as Hr.
      inversion Htc as [? ? Huv|? v ? Huv Hvu]; subst.
      * apply Hall. by apply Hchildren.
      * apply Hmem. apply (topo_rtc_closed _ _ v u Htopo).
        -- apply Hmem, Hall. by apply Hchildren.
        -- by apply tc_rtc.
  - set_solver.
  - set_solver.
  - intros x [->%elem_of_singleton|Hx]%elem_of_union; [by right|].
    destruct (Hreach x Hx) as [?|(v & Hv%Hchildren & Hvx)]; [by left|].
    right. by eapply rtc_l.
Qed.

Lemma visit_no_raise {A} (fun_ : node → A → A) fuel : ∀ e u (s : gset node * A),
  closed G → is_Some (G !! u) → visit G fun_ fuel u s ≠ Raise e.
Proof.
  induction fuel as [|fuel IH]; intros e u s Hcl [vs Hvs]; [done|].
  simpl. destruct (decide (u ∈ s.1)); [done|].
  rewrite (getitem_Some G u vs) by done. cbn [mbind res_bind].
  destruct (foldM _ _ s) as [s1|e'|] eqn:Hfold; cbn [mbind res_bind]; [done| |done].
  apply foldM_Raise in Hfold as (v & s0 & Hv & Hstep).
  unfold unless_visited in Hstep. destruct (decide (v ∈ s0.1)); [done|].
  exfalso. apply (IH e' v s0); [done| |done].
  apply (Hcl u v). exists vs. split; [done|].
  unfold sorted_by_id in Hv. rewrite merge_sort_Permutation in Hv.
  by apply elem_of_elements.
Qed.
End dfs_partial.

Lemma Digraph_topsort_closed G fuel order : Digraph_topsort G fuel = Ok order → closed G.
Proof.
  intros Hrun.
  destruct (decide (map_Forall (λ _ ws, set_Forall (λ w, is_Some (G !! w)) ws) G))
    as [?|Hopen]; [by apply closed_alt|].
  rewrite <- closed_alt in Hopen. apply Digraph_inputs_open in Hopen.
  unfold Digraph_topsort, Digraph_dfs in Hrun. by rewrite Hopen in Hrun.
Qed.

Lemma Digraph_topsort_partial (G : gmap node (gset node)) (fuel : nat)
    (order : list node) :
  Digraph_topsort G fuel = Ok order →
  closed G
  ∧ NoDup order
  ∧ (∀ v, v ∈ order ↔
       ∃ i, is_Some (G !! i) ∧ (∀ x, ¬ edge G x i) ∧ rtc (edge G) i v)
  ∧ (∀ v, v ∈ order → ¬ tc (edge G) v v)
  ∧ (∀ v w, v ∈ order → edge G v w → before order v w)
  ∧ topo (edge G) order.
Proof.
  intros Hrun. pose proof (Digraph_topsort_closed G fuel order Hrun) as Hcl.
  split; [done|].
  destruct (Digraph_inputs_spec G Hcl) as (inputs & Hinputs & Hin).
  unfold Digraph_topsort, Digraph_dfs in Hrun. rewrite Hinputs in Hrun.
  cbn [mbind res_bind] in Hrun. apply bind_Ok in Hrun as (s' & Hfold & [= <-]).
  destruct (fold_visits_partial G (λ s x, visit G push fuel x s))
    with (l := sorted_by_id inputs) (s := (∅ : gset node, [] : list node)) (s' := s')
    as ([(Hnd & Hmem & Htopo) Hacyc] & Hall & _ & Hreach); [| |done|].
  { intros s v s0 Hinv Hv. by apply (visit_partial G fuel). }
  { split; [|set_solver]. split; [constructor|]. split; [|constructor]. simpl. set_solver. }
  assert (∀ i, i ∈ sorted_by_id inputs ↔ is_Some (G !! i) ∧ ∀ x, ¬ edge G x i) as Hin'.
  { intros i. unfold sorted_by_id. by rewrite merge_sort_Permutation. }
  split; [done|]. split; [|split].
  - intros v. rewrite Hmem. split.
    + intros Hv. destruct (Hreach v Hv) as [?|(i & Hi%Hin' & Hiv)]; [set_solver|].
      exists i. by destruct Hi.
    + intros (i & Hi & Hno & Hiv). apply Hmem.
      apply (topo_rtc_closed _ _ i v Htopo); [|done]. apply Hmem, Hall, Hin'. done.
  - intros v Hv. by apply Hacyc, Hmem.
  - split; [|done]. intros v w Hv Hvw. by apply (topo_before _ _ _ _ Htopo Hvw).
Qed.

(** X6.  Whenever [topsort] returns, and nothing is assumed of the map: every
    successor is a key, the list holds exactly the nodes that can be reached
    from a node without predecessor, each once, none of them on a cycle, and
    every node comes before its successors. *)
Theorem topsort_returns_topological (G : gmap node (gset node)) (fuel : nat)
    (order : list node) :
  Digraph_topsort G fuel = Ok order →
  closed G
  ∧ NoDup order
  ∧ (∀ v, v ∈ order ↔
       ∃ i, is_Some (G !! i) ∧ (∀ x, ¬ edge G x i) ∧ rtc (edge G) i v)
  ∧ (∀ v, v ∈ order → ¬ tc (edge G) v v)
  ∧ ∀ v w, v ∈ order → edge G v w → before order v w.
Proof.
  intros Hrun. destruct (Digraph_topsort_partial G fuel order Hrun) as (? & ? & ? & ? & ? & _).
  done.
Qed.

(** X7.  A cycle that can be reached from a node without predecessor: the
    recursion of [visit] has no end, whatever its depth. *)
Theorem topsort_cycle_no_return (G : gmap node (gset node)) (i x : node) :
  closed G → is_Some (G !! i) → (∀ y, ¬ edge G y i) → rtc (edge G) i x →
  tc (edge G) x x →
  ∀ fuel, Digraph_topsort G fuel = OutOfFuel.
Proof.
  intros Hcl Hi Hno Hix Hcycle fuel.
  destruct (Digraph_topsort G fuel) as [order|e|] eqn:Hrun; [| |done].
  - destruct (Digraph_topsort_partial G fuel order Hrun) as (_ & _ & Hmem & Hacyc & _).
    destruct (Hacyc x); [|done]. apply Hmem. by exists i.
  - exfalso. destruct (Digraph_inputs_spec G Hcl) as (inputs & Hinputs & Hin).
    unfold Digraph_topsort, Digraph_dfs in Hrun. rewrite Hinputs in Hrun.
    cbn [mbind res_bind] in Hrun.
    destruct (foldM _ _ _) as [s1|e'|] eqn:Hfold; cbn in Hrun; [done| |done].
    apply foldM_Raise in Hfold as (v & s0 & Hv & Hstep).
    apply (visit_no_raise G push fuel e' v s0 Hcl); [|done].
    unfold sorted_by_id in Hv. rewrite merge_sort_Permutation in Hv. by apply Hin in Hv as [? _].
Qed.


Section dfs_callback.
Context {A : Type} (G : gmap node (gset node)) (fun_ : node → A → A) (a : A).

Lemma foldM_applied (step : gset node * list node → node → res (gset node * list node))
    (step' : gset node * A → node → res (gset node * A)) l :
  (∀ s v, v ∈ l → step' (applied fun_ a s) v = (s' ← step s v; Ok (applied fun_ a s'))) →
  ∀ s, foldM step' l (applied fun_ a s) = (s' ← foldM step l s; Ok (applied fun_ a s')).
Proof.
  induction l as [|v l IH]; intros Hstep s; [done|].
  rewrite !foldM_cons, Hstep by left.
  destruct (step s v) as [s1| |]; cbn [mbind res_bind]; [|done..].
  apply IH. intros s0 v0 Hv0. apply Hstep. by right.
Qed.

Lemma visit_applied fuel : ∀ u s,
  visit G fun_ fuel u (applied fun_ a s)
  = (s' ← visit G push fuel u s; Ok (applied fun_ a s')).
Proof.
  induction fuel as [|fuel IH]; intros u s; [done|].
  simpl. destruct (decide (u ∈ s.1)); [done|].
  destruct (getitem G u) as [vs| |]; cbn [mbind res_bind]; [|done..].
  rewrite (foldM_applied (unless_visited (visit G push fuel))).
  - destruct (foldM _ _ s) as [s1| |]; cbn [mbind res_bind]; done.
  - intros s0 v _. unfold unless_visited. cbn [applied fst].
    destruct (decide (v ∈ s0.1)); [done|]. apply IH.
Qed.
End dfs_callback.

(** X22.  [dfs] and [topsort]: [dfs] with any callback fails exactly as
    [topsort] does, and when [topsort] returns a list, [dfs] has applied the
    callback once to every node of that list, from the last to the first
    (so to a node after all its successors). *)
Theorem dfs_follows_topsort {A : Type} (G : gmap node (gset node)) (fun_ : node → A → A)
    (fuel : nat) (a : A) :
  Digraph_dfs G fun_ fuel a = (order ← Digraph_topsort G fuel; Ok (foldr fun_ a order)).
Proof.
  unfold Digraph_topsort, Digraph_dfs.
  destruct (Digraph_inputs G) as [inputs| |]; cbn [mbind res_bind]; [|done..].
  change (∅, a) with (applied fun_ a (∅, [])).
  rewrite (foldM_applied fun_ a (λ s x, visit G push fuel x s)).
  - destruct (foldM _ _ (∅, [])) as [s1| |]; cbn [mbind res_bind]; done.
  - intros s v _. apply visit_applied.
Qed.
(** ** Facts: the dataflow graph *)

Lemma defaultdict_get_insert (s : gmap node (gset node)) k X v :
  defaultdict_get (<[k := X]> s) v = if decide (k = v) then X else defaultdict_get s v.
Proof.
  unfold defaultdict_get. destruct (decide (k = v)) as [->|Hne].
  - by rewrite lookup_insert_eq.
  - by rewrite lookup_insert_ne.
Qed.

Lemma defaultdict_get_is_Some (s : gmap node (gset node)) v w :
  w ∈ defaultdict_get s v → is_Some (s !! v).
Proof. unfold defaultdict_get. destruct (s !! v); [by eauto|set_solver]. Qed.

Lemma fill_successors_nil G fuel s : fill_successors G fuel [] s = Ok s.
Proof. destruct fuel; reflexivity. Qed.

(** One turn of the outer loop of [_fill_successors]. *)
Lemma fill_successors_cons G fuel w rs s :
  fill_successors G fuel (w :: rs) s
  = (s ← foldM (fill_arg G fuel w) (args G w) (<[w := defaultdict_get s w ∪ ∅]> s);
     fill_successors G fuel rs s).
Proof. destruct fuel; reflexivity. Qed.

Lemma filled_mono G n m s s' k :
  filled G n s k → n ≤ m → (∀ v, defaultdict_get s v ⊆ defaultdict_get s' v) →
  filled G m s' k.
Proof.
  intros [Hd Ha] Hnm Hsub. split; [by eapply depth_le_mono|].
  intros v Hv. by apply Hsub, Ha.
Qed.

Lemma fill_post_refl G n s : fill_post G n s s.
Proof. split; auto. Qed.

Lemma fill_post_trans G n s1 s2 s3 :
  fill_post G n s1 s2 → fill_post G n s2 s3 → fill_post G n s1 s3.
Proof.
  intros [K1 M1 N1 E1] [K2 M2 N2 E2]. split.
  - auto.
  - intros v. etrans; [apply M1|apply M2].
  - intros k Hk. destruct (N2 k Hk) as [Hk2|?]; [|by right].
    destruct (N1 k Hk2) as [?|Hf]; [by left|]. right.
    by apply (filled_mono G n n s2).
  - intros v w Hw. destruct (E2 v w Hw) as [Hw2|?]; [|by right].
    destruct (E1 v w Hw2) as [?|[? ?]]; [by left|]. right. auto.
Qed.

Lemma fill_post_mono G n m s s' : fill_post G n s s' → n ≤ m → fill_post G m s s'.
Proof.
  intros [K M N E] Hnm. split; auto.
  intros k Hk. destruct (N k Hk) as [?|Hf]; [by left|]. right.
  by apply (filled_mono G n m s').
Qed.

(** What a call of [_fill_successors] that returns has made of the map: the
    results are keys, and every key it has added has all its arguments
    recorded, at a depth the recursion has reached. *)
Lemma fill_successors_post G fuel : ∀ rs s s',
  fill_successors G fuel rs s = Ok s' →
  fill_post G (S fuel) s s' ∧ ∀ w, w ∈ rs → is_Some (s' !! w) ∧ filled G (S fuel) s' w.
Proof.
  induction fuel as [fuel IHfuel] using lt_wf_ind.
  induction rs as [|w rs IH]; intros s s' Hrun.
  { rewrite fill_successors_nil in Hrun. injection Hrun as <-.
    split; [apply fill_post_refl|]. by intros w ?%elem_of_nil. }
  rewrite fill_successors_cons in Hrun.
  apply bind_Ok in Hrun as (s2 & Hargs & Hrest).
  set (s1 := <[w := defaultdict_get s w ∪ ∅]> s) in Hargs.
  assert (∀ l t t', is_Some (t !! w) → (∀ v, v ∈ l → v ∈ args G w) →
            foldM (fill_arg G fuel w) l t = Ok t' →
            fill_post G (S fuel) t t'
            ∧ ∀ v, v ∈ l → w ∈ defaultdict_get t' v ∧ depth_le (uses G) v fuel) as Hinner.
  { induction l as [|v l IHl]; intros t t' Hw Hl Hfold.
    { injection Hfold as <-. split; [apply fill_post_refl|]. by intros v ?%elem_of_nil. }
    rewrite foldM_cons in Hfold. apply bind_Ok in Hfold as (t2 & Hv & Hfold).
    unfold fill_arg in Hv. destruct fuel as [|f]; [done|].
    set (t1 := <[v := defaultdict_get t v ∪ {[w]}]> t) in Hv.
    destruct (IHfuel f (Nat.lt_succ_diag_r f) [v] t1 t2 Hv) as [Hp12 Hdone].
    destruct (Hdone v) as [Hv2 Hfv]; [by left|].
    assert (is_Some (t2 !! w)) as Hw2.
    { apply (fp_keys _ _ _ _ Hp12). unfold t1. rewrite lookup_insert_is_Some'. by right. }
    destruct (IHl t2 t' Hw2) as [Hp2 Hl2]; [intros; apply Hl; by right|done|].
    assert (fill_post G (S (S f)) t t2) as Hp.
    { split.
      - intros k Hk. apply (fp_keys _ _ _ _ Hp12). unfold t1.
        rewrite lookup_insert_is_Some'. by right.
      - intros x. etrans; [|apply (fp_mono _ _ _ _ Hp12)]. unfold t1.
        rewrite defaultdict_get_insert. destruct (decide (v = x)) as [->|]; set_solver.
      - intros k Hk. destruct (fp_new_keys _ _ _ _ Hp12 k Hk) as [Hk1|Hf].
        + unfold t1 in Hk1. apply lookup_insert_is_Some' in Hk1 as [<-|?]; [|by left].
          right. by apply (filled_mono G (S f) (S (S f)) t2); [|lia|].
        + right. by apply (filled_mono G (S f) (S (S f)) t2); [|lia|].
      - intros x y Hy. destruct (fp_new_edges _ _ _ _ Hp12 x y Hy) as [Hy1|?]; [|by right].
        unfold t1 in Hy1. rewrite defaultdict_get_insert in Hy1.
        destruct (decide (v = x)) as [->|]; [|by left].
        apply elem_of_union in Hy1 as [?| ->%elem_of_singleton]; [by left|].
        right. split; [apply Hl; by left|done]. }
    split; [by eapply fill_post_trans|].
    intros x [->|Hx]%elem_of_cons; [|by apply Hl2]. split.
    - apply (fp_mono _ _ _ _ Hp2), (fp_mono _ _ _ _ Hp12). unfold t1.
      rewrite defaultdict_get_insert, decide_True by done. set_solver.
    - by destruct Hfv. }
  destruct (Hinner (args G w) s1 s2) as [Hp12 Hw2]; [|done|done|].
  { unfold s1. rewrite lookup_insert_is_Some'. by left. }
  destruct (IH s2 s' Hrest) as [Hp2 Hres].
  assert (is_Some (s2 !! w)) as Hws2.
  { apply (fp_keys _ _ _ _ Hp12). unfold s1. rewrite lookup_insert_is_Some'. by left. }
  assert (filled G (S fuel) s2 w) as Hfw.
  { split; [|intros v Hv; by apply Hw2]. constructor. intros v Hv. by apply Hw2. }
  assert (fill_post G (S fuel) s s2) as Hp.
  { split.
    - intros k Hk. apply (fp_keys _ _ _ _ Hp12). unfold s1.
      rewrite lookup_insert_is_Some'. by right.
    - intros x. etrans; [|apply (fp_mono _ _ _ _ Hp12)]. unfold s1.
      rewrite defaultdict_get_insert. destruct (decide (w = x)) as [->|]; set_solver.
    - intros k Hk. destruct (fp_new_keys _ _ _ _ Hp12 k Hk) as [Hk1|Hf]; [|by right].
      unfold s1 in Hk1. apply lookup_insert_is_Some' in Hk1 as [<-|?]; [|by left].
      by right.
    - intros x y Hy. destruct (fp_new_edges _ _ _ _ Hp12 x y Hy) as [Hy1|?]; [|by right].
      unfold s1 in Hy1. rewrite defaultdict_get_insert in Hy1.
      destruct (decide (w = x)) as [->|]; [|by left]. left. set_solver. }
  split; [by eapply fill_post_trans|].
  intros x [->|Hx]%elem_of_cons; [|by apply Hres]. split.
  - by apply (fp_keys _ _ _ _ Hp2).
  - apply (filled_mono G (S fuel) (S fuel) s2); [done|lia|apply (fp_mono _ _ _ _ Hp2)].
Qed.

(** A key that [_fill_successors] adds is a result or an argument of a key. *)
Lemma fill_successors_origin G fuel : ∀ rs s s',
  fill_successors G fuel rs s = Ok s' →
  ∀ k, is_Some (s' !! k) →
    is_Some (s !! k) ∨ k ∈ rs ∨ ∃ w, is_Some (s' !! w) ∧ k ∈ args G w.
Proof.
  induction fuel as [fuel IHfuel] using lt_wf_ind.
  induction rs as [|w rs IH]; intros s s' Hrun k Hk.
  { rewrite fill_successors_nil in Hrun. injection Hrun as <-. by left. }
  rewrite fill_successors_cons in Hrun.
  apply bind_Ok in Hrun as (s2 & Hargs & Hrest).
  set (s1 := <[w := defaultdict_get s w ∪ ∅]> s) in Hargs.
  assert (∀ l t t', is_Some (t !! w) → (∀ v, v ∈ l → v ∈ args G w) →
            foldM (fill_arg G fuel w) l t = Ok t' →
            (∀ x, is_Some (t !! x) → is_Some (t' !! x))
            ∧ ∀ x, is_Some (t' !! x) →
                is_Some (t !! x) ∨ ∃ y, is_Some (t' !! y) ∧ x ∈ args G y) as Hinner.
  { induction l as [|v l IHl]; intros t t' Hw Hl Hfold.
    { injection Hfold as <-. split; [done|]. by left. }
    rewrite foldM_cons in Hfold. apply bind_Ok in Hfold as (t2 & Hv & Hfold).
    unfold fill_arg in Hv. destruct fuel as [|f]; [done|].
    set (t1 := <[v := defaultdict_get t v ∪ {[w]}]> t) in Hv.
    pose proof (IHfuel f (Nat.lt_succ_diag_r f) [v] t1 t2 Hv) as Horigin.
    destruct (fill_successors_post G f [v] t1 t2 Hv) as [Hp12 _].
    assert (∀ x, is_Some (t !! x) → is_Some (t2 !! x)) as Hkeys.
    { intros x Hx. apply (fp_keys _ _ _ _ Hp12). unfold t1.
      rewrite lookup_insert_is_Some'. by right. }
    destruct (IHl t2 t') as [Hkeys2 Hl2]; [by apply Hkeys|intros; apply Hl; by right|done|].
    split; [by auto|]. intros x Hx.
    destruct (Hl2 x Hx) as [Hx2|?]; [|by right].
    assert (x = v → ∃ y, is_Some (t' !! y) ∧ x ∈ args G y) as Hxv.
    { intros ->. exists w. split; [by auto|]. apply Hl. by left. }
    destruct (Horigin x Hx2) as [Hx1|[->%list_elem_of_singleton|(y & Hy & Hxy)]].
    - unfold t1 in Hx1. apply lookup_insert_is_Some' in Hx1 as [<-|?]; [|by left].
      right. by apply Hxv.
    - right. by apply Hxv.
    - right. exists y. auto. }
  destruct (Hinner (args G w) s1 s2) as [Hkeys Horigin]; [|done|done|].
  { unfold s1. rewrite lookup_insert_is_Some'. by left. }
  destruct (fill_successors_post G fuel rs s2 s' Hrest) as [Hp2 _].
  destruct (IH s2 s' Hrest k Hk) as [Hk2|[?|?]].
  - destruct (Horigin k Hk2) as [Hk1|(y & Hy & Hky)].
    + unfold s1 in Hk1. apply lookup_insert_is_Some' in Hk1 as [<-|?]; [|by left].
      right; left. by left.
    + right; right. exists y. split; [|done]. by apply (fp_keys _ _ _ _ Hp2).
  - right; left. by right.
  - by right; right.
Qed.

(** A node of bounded depth is on no cycle. *)
Lemma depth_le_tc (R : relation node) x y :
  tc R x y → ∀ n, depth_le R x n → ∃ m, m < n ∧ depth_le R y m.
Proof.
  induction 1 as [x y Hxy|x z y Hxz _ IH]; intros n Hd; inversion Hd as [? n' Hn]; subst.
  - exists n'. split; [lia|by apply Hn].
  - destruct (IH n' (Hn z Hxz)) as (m & Hm & Hdm). exists m. split; [lia|done].
Qed.

Lemma depth_le_acyclic (R : relation node) n : ∀ x, depth_le R x n → ¬ tc R x x.
Proof.
  induction n as [n IH] using lt_wf_ind. intros x Hd Htc.
  destruct (depth_le_tc R x x Htc n Hd) as (m & Hm & Hdm). by apply (IH m Hm x).
Qed.

(** The map built by [DataFlowGraph.__init__]: its edges are the argument
    edges between its keys. *)
Lemma DataFlowGraph_init_spec G fuel a rs dfg :
  DataFlowGraph_init G fuel [a; ANodes rs] = Ok dfg →
  results dfg = rs
  ∧ closed (successors dfg) ∧ acyclic (successors dfg)
  ∧ (∀ w, w ∈ rs → is_Some (successors dfg !! w))
  ∧ (∀ v w, edge (successors dfg) v w ↔ is_Some (successors dfg !! w) ∧ v ∈ args G w)
  ∧ (∀ k, is_Some (successors dfg !! k) → k ∈ rs ∨ ∃ w, edge (successors dfg) k w).
Proof.
  unfold DataFlowGraph_init. intros (s' & Hfill & [= <-])%bind_Ok. cbn [successors results].
  destruct (fill_successors_post G fuel rs ∅ s' Hfill) as [[_ _ Hnew Hedges] Hres].
  assert (∀ v w, edge s' v w ↔ w ∈ defaultdict_get s' v) as Hedge.
  { intros v w. unfold edge, defaultdict_get. destruct (s' !! v); [naive_solver|].
    split; [by intros (? & ? & _)|set_solver]. }
  assert (∀ k, is_Some (s' !! k) → filled G (S fuel) s' k) as Hfilled.
  { intros k Hk. destruct (Hnew k Hk) as [Hk0|?]; [|done].
    rewrite lookup_empty in Hk0. by destruct Hk0. }
  assert (∀ v w, edge s' v w ↔ is_Some (s' !! w) ∧ v ∈ args G w) as Hargs.
  { intros v w. rewrite Hedge. split.
    - intros Hw. destruct (Hedges v w Hw) as [H0|[? ?]]; [|done].
      unfold defaultdict_get in H0. rewrite lookup_empty in H0. set_solver.
    - intros [Hw Hv]. by apply (Hfilled w Hw). }
  split; [done|]. split; [|split; [|split; [|split]]].
  - intros v w Hvw. by apply Hargs in Hvw as [? _].
  - intros x Hx.
    assert (tc (uses G) x x) as Htc.
    { apply tc_flip_inv. eapply tc_congruence with (f := id); [|exact Hx].
      intros v w Hvw. by apply Hargs in Hvw as [_ ?]. }
    assert (is_Some (s' !! x)) as Hkx.
    { apply tc_flip_inv in Htc. inversion Hx as [? ? (? & ? & _)|? ? ? (? & ? & _)]; by eauto. }
    by apply (depth_le_acyclic (uses G) (S fuel) x (proj1 (Hfilled x Hkx))).
  - intros w Hw. by apply Hres.
  - done.
  - intros k Hk.
    destruct (fill_successors_origin G fuel rs ∅ s' Hfill k Hk) as [H0|[?|(w & Hw & Hkw)]].
    + rewrite lookup_empty in H0. by destruct H0.
    + by left.
    + right. exists w. by apply Hargs.
Qed.

(** More fuel does not change what [visit] and [topsort] return. *)
Lemma foldM_impl {A B} (f g : B → A → res B) l : ∀ b b',
  foldM f l b = Ok b' →
  (∀ b x b', x ∈ l → f b x = Ok b' → g b x = Ok b') →
  foldM g l b = Ok b'.
Proof.
  induction l as [|x l IH]; intros b b' Hrun Hfg; [done|].
  rewrite foldM_cons in Hrun. apply bind_Ok in Hrun as (b1 & Hx & Hrun).
  rewrite foldM_cons, (Hfg b x b1) by (done || by left). cbn [mbind res_bind].
  apply IH; [done|]. intros b0 y b0' Hy. apply Hfg. by right.
Qed.

Lemma visit_fuel_mono {A} (G : gmap node (gset node)) (f : node → A → A) fuel :
  ∀ fuel' u s s', fuel ≤ fuel' → visit G f fuel u s = Ok s' → visit G f fuel' u s = Ok s'.
Proof.
  induction fuel as [|fuel IH]; intros fuel' u s s' Hle Hrun; [done|].
  destruct fuel' as [|fuel']; [lia|]. simpl in *.
  destruct (decide (u ∈ s.1)); [done|].
  apply bind_Ok in Hrun as (vs & Hvs & Hrun). rewrite Hvs. cbn [mbind res_bind].
  apply bind_Ok in Hrun as (s1 & Hfold & Hret).
  rewrite (foldM_impl _ (unless_visited (visit G f fuel')) _ _ _ Hfold); [done|].
  intros b x b' _. unfold unless_visited. destruct (decide (x ∈ b.1)); [done|].
  apply IH. lia.
Qed.

Lemma Digraph_topsort_fuel_mono G fuel fuel' order :
  fuel ≤ fuel' → Digraph_topsort G fuel = Ok order → Digraph_topsort G fuel' = Ok order.
Proof.
  intros Hle. unfold Digraph_topsort, Digraph_dfs.
  intros (inputs & -> & Hrun)%bind_Ok. cbn [mbind res_bind].
  apply bind_Ok in Hrun as (s & Hfold & Hret).
  rewrite (foldM_impl _ (λ s x, visit G push fuel' x s) _ _ _ Hfold); [done|].
  intros b x b' _. by apply visit_fuel_mono.
Qed.

Lemma depth_le_impl (R R' : relation node) u n :
  (∀ x y, R' x y → R x y) → depth_le R u n → depth_le R' u n.
Proof. intros Himpl. induction 1 as [u n _ IH]. constructor. auto. Qed.

(** Depth along the successors, from the depth along the arguments. *)
Lemma depth_le_flip (R : relation node) (K : node → Prop) n :
  (∀ u, K u → depth_le R u n) →
  ∀ u, K u → depth_le (λ x y, K y ∧ R y x) u n.
Proof.
  intros Hdepth.
  assert (∀ k u j, K u → j + k = n → ¬ depth_le R u j →
            depth_le (λ x y, K y ∧ R y x) u k) as Hflip.
  { induction k as [|k IH]; intros u j Hu Hj Hnot.
    - destruct Hnot. replace j with n by lia. by apply Hdepth.
    - constructor. intros w [Hw Hwu]. apply (IH w (S j)); [done|lia|].
      intros Hd. inversion Hd as [? ? Hargs]; subst. by apply Hnot, Hargs. }
  intros u Hu. apply (Hflip n u 0); [done|lia|]. intros Hd. inversion Hd.
Qed.

Lemma DataFlowGraph_init_depth G fuel a rs dfg :
  DataFlowGraph_init G fuel [a; ANodes rs] = Ok dfg →
  ∀ u, is_Some (successors dfg !! u) → depth_le (edge (successors dfg)) u (S fuel).
Proof.
  intros Hinit. destruct (DataFlowGraph_init_spec G fuel a rs dfg Hinit)
    as (_ & _ & _ & _ & Hargs & _).
  revert Hinit. unfold DataFlowGraph_init. intros (s' & Hfill & [= <-])%bind_Ok.
  cbn [successors] in *.
  destruct (fill_successors_post G fuel rs ∅ s' Hfill) as [[_ _ Hnew _] _].
  intros u Hu.
  apply (depth_le_impl (λ x y, is_Some (s' !! y) ∧ uses G y x)); [intros x y; apply Hargs|].
  apply (depth_le_flip (uses G) (λ k, is_Some (s' !! k))); [|done].
  intros k Hk. destruct (Hnew k Hk) as [Hk0|[? _]]; [|done].
  rewrite lookup_empty in Hk0. by destruct Hk0.
Qed.

(** X1.  The dataflow graph built from a result set is acyclic and has every
    successor among its keys, so [instructions] sorts it, with one level of
    recursion more than building it took: every operation of the graph is in
    the list once, the results are in it, and every operation comes after all
    its arguments. *)
Theorem dataflow_instructions_sound (G : OpGraph) (fuel : nat) (rs : list node)
    (dfg : DataFlowGraph) :
  DataFlowGraph_init G fuel [ATransformer; ANodes rs] = Ok dfg →
  closed (successors dfg) ∧ acyclic (successors dfg)
  ∧ ∃ order, DataFlowGraph_instructions dfg (S fuel) = Ok order
      ∧ NoDup order
      ∧ (∀ w, w ∈ rs → w ∈ order)
      ∧ ∀ w v, w ∈ order → v ∈ args G w → before order v w.
Proof.
  intros Hinit.
  destruct (DataFlowGraph_init_spec G fuel _ rs dfg Hinit)
    as (_ & Hcl & Hac & Hres & Hargs & _).
  split; [done|]. split; [done|].
  destruct (Digraph_topsort_spec (successors dfg) (S fuel) Hcl Hac)
    as (order & Horder & Hnd & Hmem & Hbefore).
  { by eapply DataFlowGraph_init_depth. }
  exists order. split; [done|]. split; [done|]. split.
  - intros w Hw. by apply Hmem, Hres.
  - intros w v Hw Hv. apply Hbefore, Hargs. split; [by apply Hmem|done].
Qed.

(** Every operation of a dataflow graph has its tensor description in a live
    set. *)
Lemma liveness_covers G fuel a rs dfg fuel' L :
  DataFlowGraph_init G fuel [a; ANodes rs] = Ok dfg →
  DataFlowGraph_liveness G dfg fuel' = Ok L →
  ∀ k, is_Some (successors dfg !! k) →
    ∃ i live, L !! i = Some live ∧ tensor_description G k ∈ live.
Proof.
  intros Hinit Hlive k Hk.
  destruct (DataFlowGraph_init_spec G fuel a rs dfg Hinit)
    as (Hrs & Hcl & Hac & Hres & Hargs & Horigin).
  rewrite DataFlowGraph_liveness_eq in Hlive.
  apply bind_Ok in Hlive as (order & Horder & Hlive).
  apply bind_Ok in Hlive as (last & Hlast & Hlive).
  apply bind_Ok in Hlive as (L1 & Hback & Huses).
  destruct (Digraph_topsort_spec (successors dfg) (fuel' `max` S fuel) Hcl Hac)
    as (order' & Horder' & Hnd & Hmem & _).
  { intros u Hu. eapply depth_le_mono; [by eapply DataFlowGraph_init_depth|lia]. }
  unfold DataFlowGraph_instructions in Horder.
  rewrite (Digraph_topsort_fuel_mono _ fuel' _ order) in Horder'; [|lia|done].
  injection Horder' as <-.
  set (L0 := <[last := _]> _) in Hback.
  assert (∀ op, op ∈ order → is_Some (L0 !! op)) as Hdom.
  { intros op Hop. unfold L0. rewrite lookup_insert_is_Some'. right.
    apply elem_of_dom. rewrite dom_list_to_map_L, fst_tagged. by apply elem_of_list_to_set. }
  destruct (liveness_back_total G (reverse (zip (tail order) (removelast order))) L0)
    as (L1' & HL1' & Hmono).
  { intros cp Hcp%elem_of_reverse%elem_of_zip_tail. apply Hdom, Hcp. }
  rewrite Hback in HL1'. injection HL1' as <-.
  destruct (liveness_uses_total G order L1) as (L' & HL' & Hgrow & Hused).
  { intros op Hop. by apply Hmono, Hdom. }
  rewrite Huses in HL'. injection HL' as <-.
  destruct (Horigin k Hk) as [Hkr|(w & Hkw)].
  - assert (order ≠ []) as Hne.
    { intros ->. apply Hmem in Hk. by apply elem_of_nil in Hk. }
    destruct (pyindex_minus_one order Hne) as (last' & Hlast' & Hl).
    rewrite Hlast in Hlast'. injection Hlast' as <-.
    assert (L1 !! last = L0 !! last) as Hsame.
    { apply (liveness_back_frame G _ _ _ Hback).
      intros ([c p] & -> & Hcp)%list_elem_of_fmap. rewrite elem_of_reverse in Hcp.
      apply elem_of_zip_r in Hcp. by apply (last_not_in_removelast order p). }
    unfold L0 in Hsame. rewrite lookup_insert_eq in Hsame.
    destruct (Hgrow _ _ Hsame) as (live & Hlive & Hsub).
    exists last, live. split; [done|]. apply Hsub. rewrite Hrs.
    apply elem_of_union_l. unfold descriptions. apply elem_of_list_to_set.
    apply list_elem_of_fmap. by exists k.
  - apply Hargs in Hkw as [Hw Hkw]. apply Hmem in Hw.
    destruct (Hused w Hw) as (live & Hlive & Hsub).
    exists w, live. split; [done|]. apply Hsub. unfold descriptions.
    apply elem_of_list_to_set. apply list_elem_of_fmap. by exists k.
Qed.

Lemma depth_le_rtc (R : relation node) u x n :
  depth_le R u n → rtc R u x → depth_le R x n.
Proof.
  intros Hd Hr. revert n Hd. induction Hr as [|u v x Huv _ IH]; intros n Hd; [done|].
  apply IH. inversion Hd as [? m Hm]; subst.
  apply (depth_le_mono R v m); [by apply Hm|lia].
Qed.

Lemma fill_successors_total G fuel : ∀ rs s,
  (∀ r, r ∈ rs → depth_le (uses G) r (S fuel)) →
  ∃ s', fill_successors G fuel rs s = Ok s'.
Proof.
  induction fuel as [fuel IHfuel] using lt_wf_ind.
  induction rs as [|w rs IH]; intros s Hdepth.
  { exists s. apply fill_successors_nil. }
  rewrite fill_successors_cons.
  assert (∀ l t, (∀ v, v ∈ l → depth_le (uses G) v fuel) →
            ∃ t', foldM (fill_arg G fuel w) l t = Ok t') as Hinner.
  { induction l as [|v l IHl]; intros t Hl; [by exists t|].
    rewrite foldM_cons. unfold fill_arg at 2.
    pose proof (Hl v (list_elem_of_here _ _)) as Hv.
    destruct fuel as [|f]; [inversion Hv|].
    destruct (IHfuel f (Nat.lt_succ_diag_r f) [v]
                (<[v := defaultdict_get t v ∪ {[w]}]> t)) as (t1 & ->).
    { by intros r ->%list_elem_of_singleton. }
    cbn [mbind res_bind]. apply IHl. intros v' Hv'. apply Hl. by right. }
  destruct (Hinner (args G w) (<[w := defaultdict_get s w ∪ ∅]> s)) as (s2 & ->).
  { intros v Hv. pose proof (Hdepth w (list_elem_of_here _ _)) as Hw.
    inversion Hw as [? ? Hargs]; subst. by apply Hargs. }
  cbn [mbind res_bind]. apply IH. intros r Hr. apply Hdepth. by right.
Qed.

Lemma fill_successors_no_raise G fuel : ∀ rs s e, fill_successors G fuel rs s ≠ Raise e.
Proof.
  induction fuel as [fuel IHfuel] using lt_wf_ind.
  induction rs as [|w rs IH]; intros s e; [by rewrite fill_successors_nil|].
  rewrite fill_successors_cons.
  destruct (foldM _ _ _) as [s2|e'|] eqn:Hfold; cbn [mbind res_bind]; [apply IH| |done].
  apply foldM_Raise in Hfold as (v & t & _ & Hv).
  unfold fill_arg in Hv. destruct fuel as [|f]; [done|].
  by apply (IHfuel f (Nat.lt_succ_diag_r f)) in Hv.
Qed.

Lemma DataFlowGraph_init_Ok_depth G fuel a rs dfg :
  DataFlowGraph_init G fuel [a; ANodes rs] = Ok dfg →
  ∀ r, r ∈ rs → depth_le (uses G) r (S fuel).
Proof.
  unfold DataFlowGraph_init. intros (s' & Hfill & _)%bind_Ok r Hr.
  destruct (fill_successors_post G fuel rs ∅ s' Hfill) as [_ Hres].
  by destruct (Hres r Hr) as [_ [? _]].
Qed.

Lemma DataFlowGraph_init_total G fuel a rs :
  (∀ r, r ∈ rs → depth_le (uses G) r (S fuel)) →
  ∃ dfg, DataFlowGraph_init G fuel [a; ANodes rs] = Ok dfg.
Proof.
  intros Hdepth. unfold DataFlowGraph_init.
  destruct (fill_successors_total G fuel rs ∅ Hdepth) as (s' & ->). by eexists.
Qed.

Lemma DataFlowGraph_init_no_raise G fuel a rs e :
  DataFlowGraph_init G fuel [a; ANodes rs] ≠ Raise e.
Proof.
  unfold DataFlowGraph_init.
  destruct (fill_successors G fuel rs ∅) as [s'|e'|] eqn:Hfill; [done| |done].
  by apply fill_successors_no_raise in Hfill.
Qed.

(** X8.  [DataFlowGraph.__init__] returns exactly when the chains of arguments
    below the results are no longer than the depth of recursion allows;
    otherwise the recursion runs out, and no exception is raised. *)
Theorem dataflow_init_returns_iff (G : OpGraph) (fuel : nat) (rs : list node) :
  ((∃ dfg, DataFlowGraph_init G fuel [ATransformer; ANodes rs] = Ok dfg)
   ↔ ∀ r, r ∈ rs → depth_le (uses G) r (S fuel))
  ∧ ∀ e, DataFlowGraph_init G fuel [ATransformer; ANodes rs] ≠ Raise e.
Proof.
  split; [split|].
  - intros [dfg Hinit]. by eapply DataFlowGraph_init_Ok_depth.
  - apply DataFlowGraph_init_total.
  - intros e. apply DataFlowGraph_init_no_raise.
Qed.

(** X9.  A cycle of arguments below a result: [_fill_successors] recurses
    without end, whatever the depth allowed. *)
Theorem dataflow_cycle_no_return (G : OpGraph) (rs : list node) (r x : node) :
  r ∈ rs → rtc (uses G) r x → tc (uses G) x x →
  ∀ fuel, DataFlowGraph_init G fuel [ATransformer; ANodes rs] = OutOfFuel.
Proof.
  intros Hr Hrx Hcycle fuel.
  destruct (DataFlowGraph_init G fuel [ATransformer; ANodes rs]) as [dfg|e|] eqn:Hinit;
    [|by apply DataFlowGraph_init_no_raise in Hinit|done].
  destruct (depth_le_acyclic (uses G) (S fuel) x); [|done].
  eapply depth_le_rtc; [|done]. by eapply DataFlowGraph_init_Ok_depth.
Qed.

(** X10.  The graph [DataFlowGraph.__init__] builds: its nodes are the
    operations that the results reach through their arguments, and the
    successors of a node are the nodes of the graph that have it as an
    argument. *)
Theorem dataflow_graph_shape (G : OpGraph) (fuel : nat) (rs : list node)
    (dfg : DataFlowGraph) :
  DataFlowGraph_init G fuel [ATransformer; ANodes rs] = Ok dfg →
  results dfg = rs
  ∧ (∀ k, is_Some (successors dfg !! k) ↔ ∃ r, r ∈ rs ∧ rtc (uses G) r k)
  ∧ ∀ v w, edge (successors dfg) v w ↔ is_Some (successors dfg !! w) ∧ v ∈ args G w.
Proof.
  intros Hinit.
  destruct (DataFlowGraph_init_spec G fuel _ rs dfg Hinit)
    as (Hrs & Hcl & Hac & Hres & Hargs & Horigin).
  split; [done|]. split; [|done]. intros k. split.
  - intros Hk. pose proof (DataFlowGraph_init_depth G fuel _ rs dfg Hinit k Hk) as Hd.
    induction Hd as [k n _ IH].
    destruct (Horigin k Hk) as [?|(w & Hkw)]; [by exists k|].
    destruct (IH w Hkw) as (r & Hr & Hrw); [by eapply Hcl|].
    exists r. split; [done|]. eapply rtc_r; [done|]. by apply Hargs in Hkw as [_ ?].
  - intros (r & Hr & Hrk). apply Hres in Hr. induction Hrk as [|r v k Hrv _ IH]; [done|].
    apply IH. destruct (proj2 (Hargs v r) (conj Hr Hrv)) as (ws & Hv & _). by eauto.
Qed.

(** ** Facts: the live sets in closed form *)

Lemma foldM_app {A B} (f : B → A → res B) l1 l2 b :
  foldM f (l1 ++ l2) b = (b' ← foldM f l1 b; foldM f l2 b').
Proof.
  revert b. induction l1 as [|x l1 IH]; intros b; [done|].
  cbn [app]. rewrite !foldM_cons. destruct (f b x); cbn [mbind res_bind]; [apply IH|done..].
Qed.

Lemma elem_of_live_before G R rest t : t ∈ live_before G R rest ↔ needed G R rest t.
Proof.
  unfold needed. induction rest as [|c rest IH]; cbn [live_before].
  - split.
    + intros Ht. right. split; [done|]. by intros d ?%elem_of_nil.
    + intros [(l1 & c & l2 & Heq & _)|[? _]]; [by destruct l1|done].
  - rewrite elem_of_union, elem_of_difference, IH. split.
    + intros [Ht|[[(l1 & c' & l2 & -> & Hc' & Hl1)|[HR Hno]] Hdef]].
      * left. exists [], c, rest. split; [done|]. split; [done|]. by intros d ?%elem_of_nil.
      * left. exists (c :: l1), c', l2. split; [done|]. split; [done|].
        intros d [->|?]%elem_of_cons; [done|by apply Hl1].
      * right. split; [done|]. intros d [->|?]%elem_of_cons; [done|by apply Hno].
    + intros [(l1 & c' & l2 & Heq & Hc' & Hl1)|[HR Hno]].
      * destruct l1 as [|c0 l1]; injection Heq as <- ->; [by left|].
        right. split; [|apply Hl1; by left]. left. exists l1, c', l2.
        split; [done|]. split; [done|]. intros d Hd. apply Hl1. by right.
      * right. split; [|apply Hno; by left]. right. split; [done|].
        intros d Hd. apply Hno. by right.
Qed.

Section liveness_passes.
Context (G : OpGraph).

Lemma liveness_back_spec R : ∀ (l : list node) (L0 L1 : gmap node (gset tensor)) lst,
  NoDup l → last l = Some lst → L0 !! lst = Some R →
  foldM (liveness_back G) (reverse (zip (tail l) (removelast l))) L0 = Ok L1 →
  (∀ pre o rest, l = pre ++ o :: rest → L1 !! o = Some (live_before G R rest))
  ∧ ∀ k, k ∉ l → L1 !! k = L0 !! k.
Proof.
  induction l as [|a [|b l] IH]; intros L0 L1 lst Hnd Hlast HR Hrun; [done|..].
  - injection Hrun as <-. injection Hlast as <-. split; [|done].
    intros pre o rest Heq. destruct pre as [|? [|? ?]]; [|done..].
    by injection Heq as <- <-.
  - change (zip (tail (a :: b :: l)) (removelast (a :: b :: l)))
      with ((b, a) :: zip (tail (b :: l)) (removelast (b :: l))) in Hrun.
    rewrite reverse_cons, foldM_app in Hrun.
    apply bind_Ok in Hrun as (L' & Hrun' & Hstep).
    apply NoDup_cons in Hnd as [Ha Hnd].
    destruct (IH L0 L' lst Hnd Hlast HR Hrun') as [Hin Hout].
    rewrite foldM_cons in Hstep. apply bind_Ok in Hstep as (L2 & Hstep & [= <-]).
    unfold liveness_back in Hstep. cbn [fst snd] in Hstep.
    apply bind_Ok in Hstep as (lc & Hlc%getitem_Ok & [= <-]).
    rewrite (Hin [] b l eq_refl) in Hlc. injection Hlc as <-.
    split.
    + intros pre o rest Heq. destruct pre as [|a' pre]; injection Heq as <- Heq.
      * subst rest. by rewrite lookup_insert_eq.
      * rewrite lookup_insert_ne.
        -- by apply (Hin pre).
        -- intros ->. apply Ha. rewrite Heq. apply elem_of_app. right. by left.
    + intros k [Hka Hk]%not_elem_of_cons. rewrite lookup_insert_ne by done. by apply Hout.
Qed.

Lemma liveness_uses_spec : ∀ (l : list node) (L1 L : gmap node (gset tensor)),
  NoDup l → foldM (liveness_uses G) l L1 = Ok L →
  (∀ o, o ∈ l → ∃ s, L1 !! o = Some s ∧ L !! o = Some (s ∪ descriptions G (args G o)))
  ∧ ∀ k, k ∉ l → L !! k = L1 !! k.
Proof.
  induction l as [|a l IH]; intros L1 L Hnd Hrun.
  { injection Hrun as <-. split; [by intros o ?%elem_of_nil|done]. }
  rewrite foldM_cons in Hrun. apply bind_Ok in Hrun as (L2 & Hstep & Hrun).
  apply NoDup_cons in Hnd as [Ha Hnd].
  unfold liveness_uses, can_do_inplace in Hstep.
  apply bind_Ok in Hstep as (s & Hs%getitem_Ok & [= <-]).
  destruct (IH _ L Hnd Hrun) as [Hin Hout]. split.
  - intros o [->|Ho]%elem_of_cons.
    + exists s. split; [done|]. rewrite (Hout a Ha). by rewrite lookup_insert_eq.
    + destruct (Hin o Ho) as (s' & Hs' & HL). exists s'. split; [|done].
      rewrite lookup_insert_ne in Hs'; [done|]. by intros ->.
  - intros k [Hka Hk]%not_elem_of_cons. rewrite (Hout k Hk). by rewrite lookup_insert_ne.
Qed.
End liveness_passes.

Lemma DataFlowGraph_liveness_spec (G : OpGraph) (dfg : DataFlowGraph) (fuel : nat)
    (order : list node) :
  DataFlowGraph_instructions dfg fuel = Ok order → order ≠ [] →
  ∃ L, DataFlowGraph_liveness G dfg fuel = Ok L
    ∧ (∀ o, is_Some (L !! o) ↔ o ∈ order)
    ∧ ∀ pre o rest, order = pre ++ o :: rest →
        L !! o = Some (live_before G (live_at_end G dfg) rest ∪ descriptions G (args G o)).
Proof.
  intros Horder Hne.
  destruct (Digraph_topsort_partial _ _ _ Horder) as (_ & Hnd & _).
  rewrite DataFlowGraph_liveness_eq, Horder. cbn [mbind res_bind].
  destruct (pyindex_minus_one order Hne) as (lst & -> & Hlast). cbn [mbind res_bind].
  fold (live_at_end G dfg).
  set (L0 := <[lst := live_at_end G dfg]> _).
  assert (∀ op, is_Some (L0 !! op) ↔ op ∈ order) as Hdom.
  { intros op. unfold L0. rewrite lookup_insert_is_Some'.
    rewrite <- elem_of_dom, dom_list_to_map_L, fst_tagged, elem_of_list_to_set.
    split; [|by right]. intros [<-|?]; [|done].
    rewrite last_lookup in Hlast. by eapply list_elem_of_lookup_2. }
  destruct (liveness_back_total G (reverse (zip (tail order) (removelast order))) L0)
    as (L1 & Hback & _).
  { intros cp Hcp%elem_of_reverse%elem_of_zip_tail. apply Hdom, Hcp. }
  rewrite Hback. cbn [mbind res_bind].
  destruct (liveness_back_spec G (live_at_end G dfg) order L0 L1 lst Hnd Hlast)
    as [Hin1 Hout1]; [by unfold L0; rewrite lookup_insert_eq|done|].
  destruct (liveness_uses_total G order L1) as (L & Huses & _).
  { intros op (pre & rest & ->)%list_elem_of_split. rewrite (Hin1 pre op rest eq_refl). eauto. }
  rewrite Huses. exists L. split; [done|].
  destruct (liveness_uses_spec G order L1 L Hnd Huses) as [Hin Hout]. split.
  - intros o. destruct (decide (o ∈ order)) as [Ho|Ho].
    + destruct (Hin o Ho) as (s & _ & ->). split; [done|by eauto].
    + rewrite (Hout o Ho), (Hout1 o Ho). split; [by intros ?%Hdom|done].
  - intros pre o rest ->.
    destruct (Hin o) as (s & Hs & HL); [apply elem_of_app; right; by left|].
    rewrite (Hin1 pre o rest eq_refl) in Hs. by injection Hs as <-.
Qed.

(** X11.  [liveness] raises [IndexError] when there is no instruction.
    Otherwise it returns a live set for every instruction and for nothing
    else, and a tensor is in the live set of an instruction exactly when the
    instruction reads it, or a later instruction reads it and none in between
    defines it, or it is a result or persistent and no later instruction
    defines it. *)
Theorem liveness_characterised (G : OpGraph) (dfg : DataFlowGraph) (fuel : nat)
    (order : list node) :
  DataFlowGraph_instructions dfg fuel = Ok order →
  (order = [] → DataFlowGraph_liveness G dfg fuel = Raise IndexError)
  ∧ (order ≠ [] →
     ∃ L, DataFlowGraph_liveness G dfg fuel = Ok L
       ∧ (∀ o, is_Some (L !! o) ↔ o ∈ order)
       ∧ ∀ pre o rest, order = pre ++ o :: rest →
           ∃ live, L !! o = Some live
             ∧ ∀ t, t ∈ live ↔
                 t ∈ descriptions G (args G o) ∨ needed G (live_at_end G dfg) rest t).
Proof.
  intros Horder. split.
  { intros ->. rewrite DataFlowGraph_liveness_eq, Horder. reflexivity. }
  intros Hne.
  destruct (DataFlowGraph_liveness_spec G dfg fuel order Horder Hne) as (L & HL & Hdom & Hat).
  exists L. split; [done|]. split; [done|].
  intros pre o rest Heq. eexists. split; [by apply (Hat pre)|].
  intros t. rewrite elem_of_union, elem_of_live_before. tauto.
Qed.

(** ** Facts: the order of iteration *)

Lemma iterate_Permutation {A} (rank : A → nat) l : iterate rank l ≡ₚ l.
Proof. apply merge_sort_Permutation. Qed.

Lemma elem_of_iterate {A} (rank : A → nat) l x : x ∈ iterate rank l ↔ x ∈ l.
Proof. by rewrite iterate_Permutation. Qed.

(** An order in which the ranks grow is the order of the iteration. *)
Lemma iterate_unique {A} (rank : A → nat) (l p : list A) :
  p ≡ₚ l → Sorted (by_rank rank) p →
  (∀ x y, x ∈ l → y ∈ l → rank x = rank y → x = y) →
  iterate rank l = p.
Proof.
  intros Hperm Hsorted Hinj. apply (Sorted_unique_strong (by_rank rank)).
  - intros x y Hx%elem_of_iterate Hy Hxy Hyx. rewrite Hperm in Hy.
    apply Hinj; [done..|]. unfold by_rank in *. lia.
  - apply (Sorted_merge_sort _).
  - done.
  - by rewrite iterate_Permutation.
Qed.

Lemma position_cons_ne y l x : x ≠ y → position (y :: l) x = S (position l x).
Proof. intros Hne. simpl. by destruct (decide (x = y)). Qed.

Lemma position_inj l x y : x ∈ l → position l x = position l y → x = y.
Proof.
  induction l as [|z l IH]; intros Hx Heq; [by apply elem_of_nil in Hx|].
  simpl in Heq. destruct (decide (x = z)) as [->|Hxz], (decide (y = z)) as [->|Hyz];
    try done.
  apply IH; [|lia]. by apply elem_of_cons in Hx as [?|?].
Qed.

Lemma StronglySorted_shift {A} (r1 r2 : A → nat) (q : list A) :
  (∀ x, x ∈ q → r2 x = S (r1 x)) →
  StronglySorted (by_rank r1) q → StronglySorted (by_rank r2) q.
Proof.
  induction q as [|x q IH]; intros Hshift Hs; [constructor|].
  apply StronglySorted_inv in Hs as [Hs Hx]. constructor.
  - apply IH; [|done]. intros z Hz. apply Hshift. by right.
  - rewrite Forall_forall in Hx. apply Forall_forall. intros z Hz.
    specialize (Hx z Hz). unfold by_rank in *.
    rewrite (Hshift x), (Hshift z); [lia|by right|by left].
Qed.

Lemma position_sorted {A} (key : A → node) (p : list A) :
  NoDup (key <$> p) → Sorted (by_rank (λ x, position (key <$> p) (key x))) p.
Proof.
  intros Hnd. apply StronglySorted_Sorted.
  induction p as [|y p IH]; [constructor|].
  cbn [fmap list_fmap] in *. apply NoDup_cons in Hnd as [Hy Hnd].
  constructor.
  - apply (StronglySorted_shift (λ x, position (key <$> p) (key x))); [|by apply IH].
    intros x Hx. apply position_cons_ne. intros Heq. apply Hy. rewrite <- Heq.
    apply list_elem_of_fmap. eauto.
  - apply Forall_forall. intros x _. unfold by_rank. simpl.
    destruct (decide (key y = key y)); [lia|done].
Qed.

(** Every order of a list is the order of a rank. *)
Lemma iterate_any_order (l p : list node) :
  NoDup p → p ≡ₚ l → iterate (position p) l = p.
Proof.
  intros Hnd Hperm. apply iterate_unique; [done| |].
  - pose proof (position_sorted id p) as H. rewrite list_fmap_id in H. by apply H.
  - intros x y Hx _. rewrite <- Hperm in Hx. by apply position_inj.
Qed.

Lemma elem_of_lives_values ι (L : gmap node (gset tensor)) l :
  l ∈ lives_values ι L
  ↔ ∃ op live, L !! op = Some live ∧ l = iterate (rank_tensor ι op) (elements live).
Proof.
  unfold lives_values. rewrite list_elem_of_fmap. split.
  - intros ([op live] & -> & Hin%elem_of_iterate%elem_of_map_to_list). by exists op, live.
  - intros (op & live & Hop & ->). exists (op, live). split; [done|].
    by apply elem_of_iterate, elem_of_map_to_list.
Qed.

Lemma lives_values_NoDup ι (L : gmap node (gset tensor)) : Forall NoDup (lives_values ι L).
Proof.
  apply Forall_forall. intros l (op & live & _ & ->)%elem_of_lives_values.
  rewrite iterate_Permutation. apply NoDup_elements.
Qed.

Lemma live_set_in_lives ι (L : gmap node (gset tensor)) o live t :
  L !! o = Some live → t ∈ live → t ∈ concat (lives_values ι L).
Proof.
  intros Ho Ht. apply elem_of_concat. eexists. split.
  - apply elem_of_lives_values. by exists o, live.
  - by apply elem_of_iterate, elem_of_elements.
Qed.


Lemma live_set_together ι (L : gmap node (gset tensor)) o live t1 t2 :
  L !! o = Some live → t1 ∈ live → t2 ∈ live →
  live_together (lives_values ι L) t1 t2.
Proof.
  intros Ho Ht1 Ht2. eexists. split.
  - apply elem_of_lives_values. by exists o, live.
  - by rewrite !elem_of_iterate, !elem_of_elements.
Qed.

(** Under the order of insertion the live sets come in the order of the
    instructions. *)
Lemma lives_values_in_order ι (L : gmap node (gset tensor)) (order : list node) :
  NoDup order → (∀ op, op ∈ order ↔ is_Some (L !! op)) →
  rank_instruction ι = position order →
  lives_values ι L
  = (λ op, iterate (rank_tensor ι op) (elements (default ∅ (L !! op)))) <$> order.
Proof.
  intros Hnd Hkeys Hrank. unfold lives_values. rewrite Hrank.
  set (item := λ op, (op, default (∅ : gset tensor) (L !! op))).
  assert (fst <$> (item <$> order) = order) as Hfst.
  { rewrite <- list_fmap_compose. apply list_fmap_id. }
  rewrite (iterate_unique _ _ (item <$> order)).
  - rewrite <- list_fmap_compose. done.
  - apply NoDup_Permutation.
    + apply (NoDup_fmap_1 fst). by rewrite Hfst.
    + apply NoDup_map_to_list.
    + intros [op live]. rewrite elem_of_map_to_list, list_elem_of_fmap. split.
      * intros (op' & [= -> ->] & Hop%Hkeys). destruct Hop as [live Hlive].
        by rewrite Hlive.
      * intros Hop. exists op. unfold item. rewrite Hop. split; [done|].
        apply Hkeys. eauto.
  - pose proof (position_sorted fst (item <$> order)) as H. rewrite Hfst in H.
    by apply H.
  - intros [o1 l1] [o2 l2] H1%elem_of_map_to_list H2%elem_of_map_to_list Heq. cbn in Heq.
    assert (o1 = o2) as ->.
    { apply (position_inj order); [|done]. apply Hkeys. eauto. }
    congruence.
Qed.

(** ** Facts: the order of insertion *)

Lemma foldM_alike {A B C} (R : A → B → Prop) (f : A → C → res A) (g : B → C → res B) l :
  (∀ a b x, x ∈ l → R a b → alike R (f a x) (g b x)) →
  ∀ a b, R a b → alike R (foldM f l a) (foldM g l b).
Proof.
  induction l as [|x l IH]; intros Hstep a b Hab; [done|].
  rewrite !foldM_cons. pose proof (Hstep a b x (list_elem_of_here _ _) Hab) as H.
  destruct (f a x) as [a'| |], (g b x) as [b'| |]; try done. cbn [mbind res_bind].
  apply IH; [|done]. intros a0 b0 x0 Hx0. apply Hstep. by right.
Qed.

Lemma keys_of_touch s keys k X :
  keys_of s keys → keys_of (<[k := X]> s) (touch k keys).
Proof.
  intros [Hnd Hkeys]. unfold touch. destruct (decide (k ∈ keys)) as [Hin|Hin].
  - split; [done|]. intros k'. rewrite lookup_insert_is_Some'. rewrite Hkeys.
    split; [by right|]. intros [<-|?]; [by apply Hkeys|done].
  - split.
    + apply NoDup_app. split; [done|]. split; [|apply NoDup_singleton].
      intros x Hx ->%list_elem_of_singleton. done.
    + intros k'. rewrite elem_of_app, list_elem_of_singleton, lookup_insert_is_Some', Hkeys.
      naive_solver.
Qed.

Lemma fill_keys_alike G fuel : ∀ rs s keys,
  keys_of s keys → alike keys_of (fill_successors G fuel rs s) (fill_keys G fuel rs keys).
Proof.
  induction fuel as [fuel IHfuel] using lt_wf_ind. intros rs s keys Hk.
  destruct fuel as [|fuel]; simpl.
  - revert s keys Hk. apply foldM_alike. intros s keys w _ Hk.
    revert Hk. intros Hk%(keys_of_touch _ _ w (defaultdict_get s w ∪ ∅)).
    revert Hk. generalize (<[w:=defaultdict_get s w ∪ ∅]> s) (touch w keys).
    apply foldM_alike. intros s' keys' v _ Hk'. done.
  - revert s keys Hk. apply foldM_alike. intros s keys w _ Hk.
    revert Hk. intros Hk%(keys_of_touch _ _ w (defaultdict_get s w ∪ ∅)).
    revert Hk. generalize (<[w:=defaultdict_get s w ∪ ∅]> s) (touch w keys).
    apply foldM_alike. intros s' keys' v _ Hk'.
    apply (IHfuel fuel); [lia|]. by apply keys_of_touch.
Qed.

(** The list [fill_keys] returns holds the keys of the map [_fill_successors]
    builds, each once. *)
Lemma fill_keys_spec G fuel rs a dfg :
  DataFlowGraph_init G fuel [a; ANodes rs] = Ok dfg →
  ∃ keys, fill_keys G fuel rs [] = Ok keys ∧ keys_of (successors dfg) keys.
Proof.
  unfold DataFlowGraph_init. intros (s & Hs & [= <-])%bind_Ok. cbn [successors].
  pose proof (fill_keys_alike G fuel rs ∅ []) as H. rewrite Hs in H.
  assert (keys_of ∅ []) as H0.
  { split; [constructor|]. intros k. rewrite lookup_empty.
    split; [by intros ?%elem_of_nil|]. by intros [? ?]. }
  specialize (H H0).
  destruct (fill_keys G fuel rs []) as [keys| |]; [|done..]. by exists keys.
Qed.

Lemma Digraph_inputs_NoDup G inputs : Digraph_inputs G = Ok inputs → NoDup inputs.
Proof.
  unfold Digraph_inputs. intros (P & _ & [= <-])%bind_Ok.
  eapply sublist_NoDup; [apply (NoDup_fst_map_to_list P)|].
  apply fmap_sublist, sublist_filter.
Qed.

(** Under the order of insertion the inputs come in the order of the keys of
    [successors]. *)
Lemma insertion_order_inputs G fuel rs dfg inputs :
  DataFlowGraph_init G fuel [ATransformer; ANodes rs] = Ok dfg →
  Digraph_inputs (successors dfg) = Ok inputs →
  ∃ keys, fill_keys G fuel rs [] = Ok keys
    ∧ keys_of (successors dfg) keys
    ∧ iterate (rank_key (insertion_order G fuel rs)) inputs
      = filter (λ u, u ∈ inputs) keys.
Proof.
  intros Hinit Hinputs.
  destruct (fill_keys_spec G fuel rs _ dfg Hinit) as (keys & Hkeys & Hnd & Hk).
  exists keys. split; [done|]. split; [done|].
  unfold insertion_order. cbn [rank_key]. rewrite Hkeys.
  destruct (DataFlowGraph_init_spec G fuel _ rs dfg Hinit) as (_ & Hcl & _).
  destruct (Digraph_inputs_spec (successors dfg) Hcl) as (inputs' & Hinputs' & Hin).
  rewrite Hinputs in Hinputs'. injection Hinputs' as <-.
  pose proof (Digraph_inputs_NoDup _ _ Hinputs) as Hndi.
  apply iterate_unique.
  - apply NoDup_Permutation; [by apply NoDup_filter|done|].
    intros x. rewrite list_elem_of_filter. split; [by intros [? _]|].
    intros Hx. split; [done|]. apply Hk. by apply Hin in Hx as [? _].
  - apply StronglySorted_Sorted.
    apply (StronglySorted_sublist _ _ keys); [apply sublist_filter|].
    apply Sorted_StronglySorted; [apply _|].
    pose proof (position_sorted id keys) as H. rewrite list_fmap_id in H. by apply H.
  - intros x y Hx%Hin Hy Heq. apply (position_inj keys); [|done]. by apply Hk, Hx.
Qed.

(** Under the order of insertion the live sets come in the order of the
    instructions. *)
Lemma insertion_order_lives G fuel rs dfg order L :
  DataFlowGraph_init G fuel [ATransformer; ANodes rs] = Ok dfg →
  DataFlowGraph_instructions dfg fuel = Ok order →
  DataFlowGraph_liveness G dfg fuel = Ok L →
  lives_values (insertion_order G fuel rs) L
  = (λ op, iterate (λ t, t) (elements (default ∅ (L !! op)))) <$> order.
Proof.
  intros Hinit Horder HL.
  destruct (Digraph_topsort_partial _ _ _ Horder) as (_ & Hnd & _).
  assert (order ≠ []) as Hne.
  { intros ->. rewrite DataFlowGraph_liveness_eq, Horder in HL. done. }
  destruct (DataFlowGraph_liveness_spec G dfg fuel order Horder Hne) as (L' & HL' & Hkeys & _).
  rewrite HL in HL'. injection HL' as <-.
  rewrite (lives_values_in_order _ L order); [done|done|by intros op; rewrite Hkeys|].
  unfold insertion_order. cbn [rank_instruction]. rewrite Hinit. cbn [mbind res_bind].
  by rewrite Horder.
Qed.

(** ** Facts: assign_buffers *)

(** C2.  The constructor of the fused graph calls the constructor of
    [DataFlowGraph] without its [transformer] argument, so it raises
    [TypeError] whatever the dataflow graph and the policy; [assign_buffers]
    called with a policy raises it as soon as the dataflow graph is built,
    and returns no fused graph. *)
Theorem fusion_raises_TypeError (G : OpGraph) (ι : iteration) (fuel : nat) (results : list node)
    (fusible : node → node → bool) (σ : store) (dataflow : DataFlowGraph) :
  KernelFlowGraph_init G fuel dataflow fusible = Raise TypeError
  ∧ assign_buffers G ι fuel results (Some fusible) σ
    = (DataFlowGraph_init G fuel [ATransformer; ANodes results] ≫= λ _, Raise TypeError).
Proof.
  split; [reflexivity|].
  unfold assign_buffers, assign_buffers_run.
  destruct (DataFlowGraph_init G fuel [ATransformer; ANodes results]); reflexivity.
Qed.

Lemma Digraph_topsort_empty fuel : Digraph_topsort ∅ fuel = Ok [].
Proof. reflexivity. Qed.

(** C3.  With an empty result set and no policy [assign_buffers] raises
    [IndexError]: the list of instructions is empty and [liveness] reads
    [order[-1]]. *)
Theorem assign_buffers_empty_raises (G : OpGraph) (ι : iteration) (fuel : nat) (σ : store) :
  assign_buffers G ι fuel [] None σ = Raise IndexError.
Proof.
  unfold assign_buffers, assign_buffers_run, DataFlowGraph_init.
  rewrite fill_successors_nil. cbn [mbind res_bind].
  unfold DataFlowGraph_liveness, DataFlowGraph_instructions. cbn [successors].
  rewrite Digraph_topsort_empty. reflexivity.
Qed.

(** ** Facts: the fused graph *)

Lemma wrap_clusters_lookup G ds clusters x :
  wrap_clusters G ds clusters !! x = wrap_cluster G ds x <$> clusters !! x.
Proof. unfold wrap_clusters. rewrite map_lookup_imap. by destruct (clusters !! x). Qed.

(** C7.  No fused graph is ever built, so no cluster is wrapped and none is
    left unwrapped: the constructor of [KernelFlowGraph] returns for no
    dataflow graph and no policy, and [assign_buffers] called with a policy
    returns nothing, whatever the results, the order of iteration, the depth
    of recursion and the store. *)
Theorem fused_graph_never_built (G : OpGraph) (ι : iteration) (fuel : nat)
    (results : list node) (fusible : node → node → bool) (σ : store)
    (dataflow : DataFlowGraph) :
  (∀ kfg, KernelFlowGraph_init G fuel dataflow fusible ≠ Ok kfg)
  ∧ ∀ r, assign_buffers G ι fuel results (Some fusible) σ ≠ Ok r.
Proof.
  split; [done|]. intros r. unfold assign_buffers, assign_buffers_run.
  by destruct (DataFlowGraph_init G fuel [ATransformer; ANodes results]).
Qed.

(** ** Facts: bind_initializers *)

Lemma lookup_set_buffer t v (σ : store) t' :
  set_buffer t v σ !! t' = if decide (t = t') then v else σ !! t'.
Proof.
  unfold set_buffer. destruct v; case_decide; subst.
  - by rewrite lookup_insert_eq.
  - by rewrite lookup_insert_ne.
  - by rewrite lookup_delete_eq.
  - by rewrite lookup_delete_ne.
Qed.

Lemma apply_writes_app σ ws1 ws2 :
  apply_writes σ (ws1 ++ ws2) = apply_writes (apply_writes σ ws1) ws2.
Proof. apply foldl_app. Qed.

Lemma apply_writes_other ws : ∀ σ t, t ∉ ws.*1 → apply_writes σ ws !! t = σ !! t.
Proof.
  induction ws as [|w ws IH]; intros σ t Ht; [done|].
  cbn in Ht. apply not_elem_of_cons in Ht as [Hne Ht].
  unfold apply_writes. cbn [foldl]. fold (apply_writes (set_buffer w.1 w.2 σ) ws).
  rewrite IH by done. rewrite lookup_set_buffer. by rewrite decide_False.
Qed.


Lemma bind_constants_writes G i σ :
  bind_constants G i σ = apply_writes σ (writes_of_constants G i).
Proof.
  unfold bind_constants, writes_of_constants. revert σ.
  induction (args G i) as [|a l IH]; intros σ; [done|].
  cbn [foldl]. rewrite IH. rewrite filter_cons.
  destruct (is_NumPyTensor G a) eqn:Ha.
  - rewrite decide_True by done. done.
  - rewrite decide_False by done. done.
Qed.

Lemma bind_op_writes G σ op :
  bind_op G σ op = apply_writes σ (writes_of_op G (σ !! tensor_description G op) op).
Proof.
  unfold bind_op, writes_of_op. generalize (σ !! tensor_description G op) as buffer.
  intros buffer. generalize σ. clear σ.
  induction (initializers G op) as [|i l IH]; intros σ; [done|].
  cbn [foldl]. rewrite IH, bind_constants_writes.
  change (i :: l) with ([i] ++ l). rewrite bind_app, apply_writes_app. cbn [mbind list_bind].
  rewrite app_nil_r. done.
Qed.



Lemma elem_of_writes_of_op G buffer op w :
  w ∈ writes_of_op G buffer op ↔
    ∃ i, i ∈ initializers G op
         ∧ (w = (tensor_description G i, buffer)
            ∨ ∃ a, a ∈ args G i ∧ is_NumPyTensor G a = true
                   ∧ w = (tensor_description G a, Some (constant_buffer G a))).
Proof.
  unfold writes_of_op, writes_of_constants. rewrite list_elem_of_bind. split.
  - intros (i & [->|(a & -> & [Hnp Ha]%list_elem_of_filter)%list_elem_of_fmap]%elem_of_cons & Hi).
    + exists i. split; [done|]. by left.
    + exists i. split; [done|]. right. by exists a.
  - intros (i & Hi & [->|(a & Ha & Hnp & ->)]).
    + exists i. split; [by left|done].
    + exists i. split; [|done]. right. apply list_elem_of_fmap. exists a.
      split; [done|]. by apply list_elem_of_filter.
Qed.








(** ** Facts: the run does not read what an earlier run wrote *)

Lemma color_store_independent G lives g σ1 σ2 :
  init_facts G lives g →
  ∃ st1 st2,
    color_run g σ1 = Ok st1 ∧ color_run g σ2 = Ok st2
    ∧ st_neighbors st1 = st_neighbors st2
    ∧ st_partitions st1 = st_partitions st2
    ∧ st_buffers st1 = st_buffers st2
    ∧ ∀ t, t ∈ queue_of g → st_store st1 !! t = st_store st2 !! t.
Proof.
  intros Hf.
  destruct (color_run_rounds G lives g σ1 Hf) as (st1 & Hrun1 & Hr1).
  destruct (color_run_rounds G lives g σ2 Hf) as (st2 & Hrun2 & Hr2).
  destruct (rounds_store _ _ _ _ _ Hr1 σ2) as (σ2' & Hr2' & Hin & _).
  change (with_store (color_start g σ1) σ2) with (color_start g σ2) in Hr2'.
  pose proof (rounds_deterministic _ _ _ _ _ _ Hr2 Hr2') as ->.
  exists st1, (with_store st1 σ2'). split; [done|]. split; [done|].
  split; [done|]. split; [done|]. split; [done|]. intros t Ht. symmetry. by apply Hin.
Qed.

(** Writing the same value at the same key in both stores. *)
Lemma written_alike_write σ1 σ2 σ1' σ2' k v t :
  written_alike σ1 σ2 σ1' σ2' t →
  written_alike σ1 σ2 (set_buffer k v σ1') (set_buffer k v σ2') t.
Proof.
  unfold written_alike. rewrite !lookup_set_buffer.
  destruct (decide (k = t)); [by left|done].
Qed.

Lemma apply_writes_alike σ1 σ2 ws : ∀ σ1' σ2' t,
  written_alike σ1 σ2 σ1' σ2' t →
  written_alike σ1 σ2 (apply_writes σ1' ws) (apply_writes σ2' ws) t.
Proof.
  induction ws as [|w ws IH]; intros σ1' σ2' t Ht; [done|].
  unfold apply_writes. cbn [foldl]. apply IH. by apply written_alike_write.
Qed.

Lemma bind_initializers_alike G ops σ1 σ2 :
  (∀ op, op ∈ ops → σ1 !! tensor_description G op = σ2 !! tensor_description G op) →
  ∀ σ1' σ2', (∀ t, written_alike σ1 σ2 σ1' σ2' t) →
  ∀ t, written_alike σ1 σ2 (bind_initializers G ops σ1') (bind_initializers G ops σ2') t.
Proof.
  unfold bind_initializers.
  induction ops as [|op ops IH]; intros Hops σ1' σ2' Halike t; [done|].
  cbn [foldl]. apply IH; [intros; apply Hops; by right|]. clear t. intros t.
  rewrite !bind_op_writes.
  assert (σ1' !! tensor_description G op = σ2' !! tensor_description G op) as ->.
  { destruct (Halike (tensor_description G op)) as [?|[-> ->]]; [done|].
    apply Hops. by left. }
  by apply apply_writes_alike.
Qed.

(** [color] leaves alone what it does not colour. *)
Lemma color_store_frame G lives g σ st :
  init_facts G lives g → color_run g σ = Ok st →
  ∀ t, t ∉ queue_of g → st_store st !! t = σ !! t.
Proof.
  intros Hf Hrun t Ht.
  destruct (color_run_rounds G lives g σ Hf) as (st' & Hrun' & Hr).
  rewrite Hrun in Hrun'. injection Hrun' as <-.
  by destruct (rounds_frame _ _ _ _ _ t Hr Ht) as [_ ->].
Qed.

(** [assign_buffers] without a policy, and with one. *)
Lemma assign_buffers_run_None G ι fuel rs σ :
  assign_buffers_run G ι fuel rs None σ
  = (dfg ← DataFlowGraph_init G fuel [ATransformer; ANodes rs];
     lives ← DataFlowGraph_liveness G dfg fuel;
     ifg ← InterferenceGraph_init G (lives_values ι lives);
     colored ← InterferenceGraph_color ifg σ;
     inputs ← Digraph_inputs (successors dfg);
     Ok {| as_dfg := dfg; as_memory := colored.1.1.1; as_buffers := colored.1.1.2;
           as_ifg := colored.1.2; as_colored := colored.2;
           as_store := bind_initializers G (iterate (rank_key ι) inputs) colored.2 |}).
Proof.
  unfold assign_buffers_run.
  by destruct (DataFlowGraph_init G fuel [ATransformer; ANodes rs]).
Qed.

Lemma assign_buffers_run_Some G ι fuel rs f σ a :
  assign_buffers_run G ι fuel rs (Some f) σ ≠ Ok a.
Proof.
  unfold assign_buffers_run.
  by destruct (DataFlowGraph_init G fuel [ATransformer; ANodes rs]).
Qed.

(** Two runs from two stores leave every tensor description with the same
    buffer, or each with the buffer it had. *)
Lemma assign_buffers_run_stores G ι fuel rs fusible σ1 σ2 a1 a2 :
  assign_buffers_run G ι fuel rs fusible σ1 = Ok a1 →
  assign_buffers_run G ι fuel rs fusible σ2 = Ok a2 →
  ∀ t, written_alike σ1 σ2 (as_store a1) (as_store a2) t.
Proof.
  destruct fusible as [f|]; [by intros ?%assign_buffers_run_Some|].
  rewrite !assign_buffers_run_None.
  intros (dfg & Hinit & Hrun1)%bind_Ok (dfg' & Hinit' & Hrun2)%bind_Ok.
  rewrite Hinit in Hinit'. injection Hinit' as <-.
  apply bind_Ok in Hrun1 as (lives & Hlives & Hrun1).
  apply bind_Ok in Hrun2 as (lives' & Hlives' & Hrun2).
  rewrite Hlives in Hlives'. injection Hlives' as <-.
  destruct (InterferenceGraph_init_facts G (lives_values ι lives))
    as (ifg & Hifg & Hf).
  rewrite Hifg in Hrun1, Hrun2. cbn [mbind res_bind] in Hrun1, Hrun2.
  destruct (color_store_independent G _ ifg σ1 σ2 Hf)
    as (st1 & st2 & Hc1 & Hc2 & _ & _ & _ & Hstore).
  unfold InterferenceGraph_color in Hrun1, Hrun2. rewrite Hc1 in Hrun1. rewrite Hc2 in Hrun2.
  cbn [mbind res_bind fst snd] in Hrun1, Hrun2.
  apply bind_Ok in Hrun1 as (inputs & Hinputs & [= <-]).
  apply bind_Ok in Hrun2 as (inputs' & Hinputs' & [= <-]).
  rewrite Hinputs in Hinputs'. injection Hinputs' as <-. cbn [as_store].
  destruct (DataFlowGraph_init_spec G fuel _ rs dfg Hinit) as (_ & Hcl & _).
  destruct (Digraph_inputs_spec (successors dfg) Hcl) as (inputs' & Hinputs' & Hin).
  rewrite Hinputs in Hinputs'. injection Hinputs' as <-.
  assert (∀ op, op ∈ inputs → tensor_description G op ∈ queue_of ifg) as Hcolored.
  { intros op [Hop _]%Hin.
    destruct (liveness_covers G fuel _ rs dfg fuel lives Hinit Hlives op Hop)
      as (i & live & Hi & Hlive).
    apply (if_queue _ _ _ Hf). by eapply live_set_in_lives. }
  intros t.
  destruct (bind_initializers_alike G (iterate (rank_key ι) inputs)
              (st_store st1) (st_store st2))
    with (σ1' := st_store st1) (σ2' := st_store st2) (t := t) as [?|[H1 H2]].
  - intros op Hop%elem_of_iterate. by apply Hstore, Hcolored.
  - intros t'. by right.
  - by left.
  - destruct (decide (t ∈ queue_of ifg)) as [Ht|Ht].
    + left. rewrite H1, H2. by apply Hstore.
    + right. rewrite H1, H2.
      by rewrite (color_store_frame G _ ifg σ1 st1 Hf Hc1 t Ht),
                 (color_store_frame G _ ifg σ2 st2 Hf Hc2 t Ht).
Qed.

Lemma assign_buffers_runs G ι fuel rs fusible σ1 σ2 :
  (r ← assign_buffers G ι fuel rs fusible σ1; Ok r.1)
  = (r ← assign_buffers G ι fuel rs fusible σ2; Ok r.1)
  ∧ ∀ a1 a2,
      assign_buffers_run G ι fuel rs fusible σ1 = Ok a1 →
      assign_buffers_run G ι fuel rs fusible σ2 = Ok a2 →
      as_dfg a1 = as_dfg a2 ∧ as_memory a1 = as_memory a2
      ∧ as_buffers a1 = as_buffers a2 ∧ as_ifg a1 = as_ifg a2
      ∧ (∀ t, t ∈ (weights (as_ifg a1)).*1 → as_colored a1 !! t = as_colored a2 !! t)
      ∧ ∀ t, written_alike σ1 σ2 (as_store a1) (as_store a2) t.
Proof.
  assert (∀ a1 a2,
            assign_buffers_run G ι fuel rs fusible σ1 = Ok a1 →
            assign_buffers_run G ι fuel rs fusible σ2 = Ok a2 →
            ∀ t, written_alike σ1 σ2 (as_store a1) (as_store a2) t) as Hstores.
  { intros a1 a2. apply assign_buffers_run_stores. }
  revert Hstores. unfold assign_buffers, assign_buffers_run.
  destruct (DataFlowGraph_init G fuel [ATransformer; ANodes rs]) as [dfg0| |];
    [|by split..]. cbn [mbind res_bind].
  destruct (match fusible with
            | Some f => kfg ← KernelFlowGraph_init G fuel dfg0 f; Ok (fused_view kfg)
            | None => Ok dfg0
            end) as [dfg| |]; [|by split..]. cbn [mbind res_bind].
  destruct (DataFlowGraph_liveness G dfg fuel) as [lives| |]; [|by split..].
  cbn [mbind res_bind].
  destruct (InterferenceGraph_init_facts G (lives_values ι lives))
    as (ifg & -> & Hf). cbn [mbind res_bind].
  destruct (color_store_independent G _ ifg σ1 σ2 Hf)
    as (st1 & st2 & Hrun1 & Hrun2 & Hnb & Hps & Hbs & Hstore).
  unfold InterferenceGraph_color. rewrite Hrun1, Hrun2. cbn [mbind res_bind fst snd].
  destruct (Digraph_inputs (successors dfg)) as [inputs| |]; [|by split..].
  cbn [mbind res_bind as_dfg as_memory as_store]. rewrite Hbs. intros Hstores.
  split; [done|].
  intros a1 a2 Ha1 Ha2. pose proof (Hstores a1 a2 Ha1 Ha2) as Halike.
  injection Ha1 as <-. injection Ha2 as <-. cbn in *. rewrite Hnb.
  split; [done|]. split; [done|]. split; [done|]. split; [done|]. split; [|done].
  intros t Ht. apply Hstore. unfold queue_of. by rewrite sorted_desc_Permutation.
Qed.

(** C8.  Two runs of [assign_buffers] on the same results with the same
    policy, from any two stores of [buffer] attributes, fail alike or return
    the same graph and the same memory, with the same buffers, the same
    buffer for every tensor the colourer colours, and a buffer written by
    both runs or by none for every tensor description.  A second run, which
    finds the store the first has written, returns what the first returned
    and leaves every [buffer] attribute as it found it.  This holds in every
    order of iteration [ι], the two runs iterating alike: the second run
    builds its dicts and sets from the same objects by the same insertions. *)
Theorem assign_buffers_deterministic (G : OpGraph) (ι : iteration) (fuel : nat) (results : list node)
    (fusible : option (node → node → bool)) (σ1 σ2 : store) :
  (r ← assign_buffers G ι fuel results fusible σ1; Ok r.1)
  = (r ← assign_buffers G ι fuel results fusible σ2; Ok r.1)
  ∧ (∀ a1 a2,
      assign_buffers_run G ι fuel results fusible σ1 = Ok a1 →
      assign_buffers_run G ι fuel results fusible σ2 = Ok a2 →
      as_dfg a1 = as_dfg a2 ∧ as_memory a1 = as_memory a2
      ∧ as_buffers a1 = as_buffers a2 ∧ as_ifg a1 = as_ifg a2
      ∧ (∀ t, t ∈ (weights (as_ifg a1)).*1 → as_colored a1 !! t = as_colored a2 !! t)
      ∧ ∀ t, written_alike σ1 σ2 (as_store a1) (as_store a2) t)
  ∧ ∀ r, assign_buffers G ι fuel results fusible σ1 = Ok r →
         assign_buffers G ι fuel results fusible r.2 = Ok r.
Proof.
  split; [apply assign_buffers_runs|]. split; [apply assign_buffers_runs|].
  intros r Hr. destruct (assign_buffers_runs G ι fuel results fusible σ1 r.2) as [Hsame Hruns].
  rewrite Hr in Hsame. cbn [mbind res_bind] in Hsame.
  unfold assign_buffers in *.
  apply bind_Ok in Hr as (a1 & Ha1 & [= <-]).
  destruct (assign_buffers_run G ι fuel results fusible
              (as_dfg a1, as_memory a1, as_store a1).2) as [a2| |] eqn:Ha2; [|done..].
  cbn [mbind res_bind] in *. injection Hsame as Hdfg Hmem.
  destruct (Hruns a1 a2 Ha1 eq_refl) as (_ & _ & _ & _ & _ & Halike).
  do 2 f_equal. rewrite <- Hdfg, <- Hmem. f_equal.
  apply map_eq. intros t. destruct (Halike t) as [?|[_ ?]]; done.
Qed.

(** ** Facts: what the run leaves in the store *)

Lemma bind_initializers_other G ops : ∀ σ t,
  (∀ op i, op ∈ ops → i ∈ initializers G op →
     t ≠ tensor_description G i
     ∧ ∀ a, a ∈ args G i → is_NumPyTensor G a = true → t ≠ tensor_description G a) →
  bind_initializers G ops σ !! t = σ !! t.
Proof.
  unfold bind_initializers. induction ops as [|op ops IH]; intros σ t Ht; [done|].
  cbn [foldl]. rewrite IH by (intros op' i Hop' Hi; apply (Ht op' i); [by right|done]).
  rewrite bind_op_writes. apply apply_writes_other.
  intros (w & -> & (i & Hi & Hw)%elem_of_writes_of_op)%list_elem_of_fmap.
  destruct (Ht op i) as [Hti Hta]; [by left|done|].
  destruct Hw as [->|(a & Ha & Hnp & ->)]; [done|]. by apply (Hta a).
Qed.

(** X15.  [bind_initializers] changes the [buffer] of the initializers of the
    operations and of the constants these initializers read, and of no other
    tensor description. *)
Theorem bind_initializers_frame (G : OpGraph) (ops : list node) (σ : store) (t : tensor) :
  (∀ op i, op ∈ ops → i ∈ initializers G op →
     t ≠ tensor_description G i
     ∧ ∀ a, a ∈ args G i → is_NumPyTensor G a = true → t ≠ tensor_description G a) →
  bind_initializers G ops σ !! t = σ !! t.
Proof. apply bind_initializers_other. Qed.

Lemma apply_writes_holds (P : Buffer → Prop) ws : ∀ σ t,
  (∀ w, w ∈ ws → ∃ b, w.2 = Some b ∧ P b) → holds_at P σ t ∨ t ∈ ws.*1 →
  holds_at P (apply_writes σ ws) t.
Proof.
  induction ws as [|w ws IH]; intros σ t Hws Ht.
  { destruct Ht as [?|Ht]; [done|by apply elem_of_nil in Ht]. }
  unfold apply_writes. cbn [foldl]. fold (apply_writes (set_buffer w.1 w.2 σ) ws).
  apply IH; [intros; apply Hws; by right|].
  unfold holds_at. rewrite lookup_set_buffer. destruct (decide (w.1 = t)) as [<-|Hne].
  - left. apply Hws. by left.
  - destruct Ht as [?|[?|?]%elem_of_cons]; [by left|congruence|by right].
Qed.

Lemma bind_initializers_holds (P : Buffer → Prop) G ops : ∀ σ,
  (∀ a, P (constant_buffer G a)) →
  (∀ op, op ∈ ops → holds_at P σ (tensor_description G op)) →
  (∀ t, holds_at P σ t → holds_at P (bind_initializers G ops σ) t)
  ∧ ∀ op i, op ∈ ops → i ∈ initializers G op →
      holds_at P (bind_initializers G ops σ) (tensor_description G i)
      ∧ ∀ a, a ∈ args G i → is_NumPyTensor G a = true →
          holds_at P (bind_initializers G ops σ) (tensor_description G a).
Proof.
  intros σ HP. revert σ. unfold bind_initializers.
  induction ops as [|op ops IH]; intros σ Hops.
  { split; [done|]. by intros op i ?%elem_of_nil. }
  cbn [foldl].
  assert (∀ w, w ∈ writes_of_op G (σ !! tensor_description G op) op →
            ∃ b, w.2 = Some b ∧ P b) as Hws.
  { intros w (i & Hi & [->|(a & _ & _ & ->)])%elem_of_writes_of_op; [|by eexists].
    apply Hops. by left. }
  assert (∀ t, holds_at P σ t → holds_at P (bind_op G σ op) t) as Hkeep.
  { intros t Ht. rewrite bind_op_writes. apply apply_writes_holds; [done|by left]. }
  destruct (IH (bind_op G σ op)) as [Hmono Hinit].
  { intros op' Hop'. apply Hkeep, Hops. by right. }
  split; [by intros t Ht; apply Hmono, Hkeep|].
  intros op' i [->|Hop']%elem_of_cons Hi; [|by apply (Hinit op' i)].
  split.
  - apply Hmono. rewrite bind_op_writes. apply apply_writes_holds; [done|]. right.
    apply list_elem_of_fmap. eexists (_, _). split; [done|].
    apply elem_of_writes_of_op. exists i. split; [done|]. by left.
  - intros a Ha Hnp. apply Hmono. rewrite bind_op_writes.
    apply apply_writes_holds; [done|]. right.
    apply list_elem_of_fmap. eexists (_, _). split; [done|].
    apply elem_of_writes_of_op. exists i. split; [done|]. right. by exists a.
Qed.

Lemma color_run_buffer G lives g σ st :
  init_facts G lives g → color_run g σ = Ok st →
  ∀ t, t ∈ concat lives → holds_at (λ b, b ∈ st_buffers st) (st_store st) t.
Proof.
  intros Hf Hrun t Ht%(if_queue _ _ _ Hf).
  destruct (color_run_rounds G lives g σ Hf) as (st' & Hrun' & Hr).
  rewrite Hrun in Hrun'. injection Hrun' as <-.
  destruct (rounds_cover _ _ _ _ _ Hr t Ht) as (k & S & Hk & _ & HtS).
  destruct (partition_turn_of _ _ _ _ _ _ _ Hf Hr Hk)
    as (u & qk & wu & _ & _ & _ & Hb & _ & Hst).
  eexists. split; [by apply Hst|]. by eapply list_elem_of_lookup_2.
Qed.

Lemma color_run_separates G lives g σ st :
  init_facts G lives g → color_run g σ = Ok st →
  ∀ t1 t2, t1 ≠ t2 → live_together lives t1 t2 →
    ∃ b1 b2, st_store st !! t1 = Some b1 ∧ st_store st !! t2 = Some b2
             ∧ color b1 ≠ color b2.
Proof.
  intros Hf Hrun t1 t2 Hne (l & Hl & Ht1 & Ht2).
  destruct (color_run_rounds G lives g σ Hf) as (st' & Hrun' & Hr).
  rewrite Hrun in Hrun'. injection Hrun' as <-.
  assert (∀ t, t ∈ l → ∃ k S wu, st_partitions st !! k = Some S ∧ t ∈ S
            ∧ st_store st !! t = Some (mkBuffer (Z.of_nat k) wu None)) as Hcol.
  { intros t Ht.
    destruct (rounds_cover _ _ _ _ _ Hr t) as (k & S & Hk & _ & HtS).
    { apply (if_queue _ _ _ Hf), elem_of_concat. eauto. }
    destruct (partition_turn_of _ _ _ _ _ _ _ Hf Hr Hk)
      as (u & qk & wu & _ & _ & _ & _ & _ & Hst).
    exists k, S, wu. eauto. }
  destruct (Hcol t1 Ht1) as (k1 & S1 & w1 & Hk1 & HS1 & Hb1).
  destruct (Hcol t2 Ht2) as (k2 & S2 & w2 & Hk2 & HS2 & Hb2).
  eexists _, _. split; [done|]. split; [done|]. simpl. intros Heq.
  apply Nat2Z.inj in Heq as ->. rewrite Hk1 in Hk2. injection Hk2 as <-.
  eapply (partition_independent _ _ _ _ _ _ _ Hf Hr Hk1 t1 t2); eauto.
  apply (if_adj _ _ _ Hf); [done|]. by exists l.
Qed.

Lemma dataflow_order_covers G fuel a rs dfg fuel' order :
  DataFlowGraph_init G fuel [a; ANodes rs] = Ok dfg →
  DataFlowGraph_instructions dfg fuel' = Ok order →
  NoDup order ∧ ∀ v, v ∈ order ↔ is_Some (successors dfg !! v).
Proof.
  intros Hinit Horder.
  destruct (DataFlowGraph_init_spec G fuel a rs dfg Hinit) as (_ & Hcl & Hac & _).
  destruct (Digraph_topsort_spec (successors dfg) (fuel' `max` S fuel) Hcl Hac)
    as (order' & Horder' & Hnd & Hmem & _).
  { intros u Hu. eapply depth_le_mono; [by eapply DataFlowGraph_init_depth|lia]. }
  unfold DataFlowGraph_instructions in Horder.
  rewrite (Digraph_topsort_fuel_mono _ fuel' _ order) in Horder'; [|lia|done].
  by injection Horder' as <-.
Qed.


Lemma assign_buffers_run_inv G ι fuel rs fusible σ a :
  assign_buffers_run G ι fuel rs fusible σ = Ok a →
  ∃ L ifg st inputs,
    DataFlowGraph_init G fuel [ATransformer; ANodes rs] = Ok (as_dfg a)
    ∧ DataFlowGraph_liveness G (as_dfg a) fuel = Ok L
    ∧ InterferenceGraph_init G (lives_values ι L) = Ok ifg
    ∧ init_facts G (lives_values ι L) ifg
    ∧ color_run ifg σ = Ok st
    ∧ Digraph_inputs (successors (as_dfg a)) = Ok inputs
    ∧ as_memory a = total_size (st_buffers st)
    ∧ as_buffers a = st_buffers st
    ∧ as_colored a = st_store st
    ∧ as_store a = bind_initializers G (iterate (rank_key ι) inputs) (st_store st).
Proof.
  destruct fusible as [f|]; [by intros ?%assign_buffers_run_Some|].
  rewrite assign_buffers_run_None.
  intros (dfg & Hinit & Hrun)%bind_Ok.
  apply bind_Ok in Hrun as (L & HL & Hrun).
  destruct (InterferenceGraph_init_facts G (lives_values ι L))
    as (ifg & Hifg & Hf).
  rewrite Hifg in Hrun. cbn [mbind res_bind] in Hrun.
  apply bind_Ok in Hrun as (colored & Hcol & Hrun).
  unfold InterferenceGraph_color in Hcol. apply bind_Ok in Hcol as (st & Hst & [= <-]).
  apply bind_Ok in Hrun as (inputs & Hinputs & [= <-]). cbn.
  by exists L, ifg, st, inputs.
Qed.

(** X16.  When [assign_buffers] returns, in whatever order it has iterated,
    every operation of the graph has a buffer, and so has every initializer
    of an input and every constant that such an initializer reads; each of
    these buffers is one of the buffers the colourer has made, whose sizes
    add up to the memory returned, or the buffer of a constant. *)
Theorem assign_buffers_covers_graph (G : OpGraph) (ι : iteration) (fuel : nat) (rs : list node)
    (fusible : option (node → node → bool)) (σ : store) (a : assignment) :
  assign_buffers_run G ι fuel rs fusible σ = Ok a →
  as_memory a = total_size (as_buffers a)
  ∧ (∀ op, is_Some (successors (as_dfg a) !! op) →
       holds_at (allocated G (as_buffers a)) (as_store a) (tensor_description G op))
  ∧ ∃ inputs, Digraph_inputs (successors (as_dfg a)) = Ok inputs
      ∧ ∀ op i, op ∈ inputs → i ∈ initializers G op →
          holds_at (allocated G (as_buffers a)) (as_store a) (tensor_description G i)
          ∧ ∀ c, c ∈ args G i → is_NumPyTensor G c = true →
              holds_at (allocated G (as_buffers a)) (as_store a) (tensor_description G c).
Proof.
  intros Hrun.
  destruct (assign_buffers_run_inv _ _ _ _ _ _ _ Hrun)
    as (L & ifg & st & inputs & Hinit & HL & _ & Hf & Hst & Hinputs & Hmem & -> & _ & ->).
  split; [done|].
  assert (∀ op, is_Some (successors (as_dfg a) !! op) →
            holds_at (allocated G (st_buffers st)) (st_store st) (tensor_description G op))
    as Hcolored.
  { intros op Hop.
    destruct (liveness_covers G fuel _ rs _ fuel L Hinit HL op Hop) as (i & live & Hi & Ht).
    destruct (color_run_buffer G _ ifg σ st Hf Hst (tensor_description G op))
      as (b & Hb & Hin); [by eapply live_set_in_lives|].
    exists b. split; [done|]. by left. }
  destruct (DataFlowGraph_init_spec G fuel _ rs _ Hinit) as (_ & Hcl & _).
  destruct (Digraph_inputs_spec _ Hcl) as (inputs' & Hinputs' & Hin).
  rewrite Hinputs in Hinputs'. injection Hinputs' as <-.
  destruct (bind_initializers_holds (allocated G (st_buffers st)) G
              (iterate (rank_key ι) inputs) (st_store st)) as [Hkeep Hbound].
  { intros c. right. by exists c. }
  { intros op [Hop _]%elem_of_iterate%Hin. by apply Hcolored. }
  split; [by intros op Hop; apply Hkeep, Hcolored|].
  exists inputs. split; [done|]. intros op i Hop Hi. apply (Hbound op i); [|done].
  by apply elem_of_iterate.
Qed.

(** X17.  The colourer keeps apart what an operation reads together, and the
    results, in whatever order [assign_buffers] iterates: two arguments of
    one operation of the graph with different tensor descriptions get buffers
    of different colours, and so do two results. *)
Theorem operands_kept_apart (G : OpGraph) (ι : iteration) (fuel : nat) (rs : list node)
    (fusible : option (node → node → bool)) (σ : store) (a : assignment) :
  assign_buffers_run G ι fuel rs fusible σ = Ok a →
  (∀ op v1 v2,
     is_Some (successors (as_dfg a) !! op) → v1 ∈ args G op → v2 ∈ args G op →
     tensor_description G v1 ≠ tensor_description G v2 →
     ∃ b1 b2, as_colored a !! tensor_description G v1 = Some b1
              ∧ as_colored a !! tensor_description G v2 = Some b2
              ∧ color b1 ≠ color b2)
  ∧ ∀ r1 r2,
      r1 ∈ rs → r2 ∈ rs → tensor_description G r1 ≠ tensor_description G r2 →
      ∃ b1 b2, as_colored a !! tensor_description G r1 = Some b1
               ∧ as_colored a !! tensor_description G r2 = Some b2
               ∧ color b1 ≠ color b2.
Proof.
  intros Hrun.
  destruct (assign_buffers_run_inv _ _ _ _ _ _ _ Hrun)
    as (L & ifg & st & inputs & Hinit & HL & _ & Hf & Hst & _ & _ & _ & -> & _).
  pose proof HL as HL'. rewrite DataFlowGraph_liveness_eq in HL'.
  apply bind_Ok in HL' as (order & Horder & _).
  destruct (dataflow_order_covers G fuel _ rs _ fuel order Hinit Horder) as [Hnd Hmem].
  destruct (DataFlowGraph_init_spec G fuel _ rs _ Hinit) as (Hrs & _ & _ & Hres & _).
  assert (∀ l, l ∈ order → order ≠ []) as Hne by (intros l Hl ->; by apply elem_of_nil in Hl).
  assert (∀ vs v, v ∈ vs → tensor_description G v ∈ descriptions G vs) as Hdesc.
  { intros vs v Hv. unfold descriptions. apply elem_of_list_to_set, list_elem_of_fmap. eauto. }
  split.
  - intros op v1 v2 Hop%Hmem Hv1 Hv2 Hdiff.
    destruct (DataFlowGraph_liveness_spec G _ fuel order Horder (Hne op Hop))
      as (L' & HL'' & _ & Hat).
    rewrite HL in HL''. injection HL'' as <-.
    apply list_elem_of_split in Hop as (pre & rest & ->).
    apply (color_run_separates G _ ifg σ st Hf Hst _ _ Hdiff).
    eapply live_set_together; [by apply (Hat pre op rest)|..];
      apply elem_of_union_r; by apply Hdesc.
  - intros r1 r2 Hr1 Hr2 Hdiff.
    assert (r1 ∈ order) as Ho by (by apply Hmem, Hres).
    destruct (DataFlowGraph_liveness_spec G _ fuel order Horder (Hne r1 Ho))
      as (L' & HL'' & _ & Hat).
    rewrite HL in HL''. injection HL'' as <-.
    destruct (exists_last (Hne r1 Ho)) as (pre & lst & Heq).
    apply (color_run_separates G _ ifg σ st Hf Hst _ _ Hdiff).
    eapply live_set_together; [apply (Hat pre lst []); by rewrite Heq|..];
      apply elem_of_union_l; cbn [live_before]; unfold live_at_end; rewrite Hrs;
      apply elem_of_union_l; by apply Hdesc.
Qed.

Lemma total_weight_Permutation G l1 l2 : l1 ≡ₚ l2 → total_weight G l1 = total_weight G l2.
Proof. unfold total_weight. induction 1; rewrite ?fmap_cons; cbn [foldr]; lia. Qed.

(** X24.  The memory [assign_buffers] returns holds what is live at any
    instruction: when no item size is negative, the bytes of the tensors live
    at an instruction of the graph are no more than the memory, in whatever
    order the run has iterated. *)
Theorem memory_holds_live_tensors (G : OpGraph) (ι : iteration) (fuel : nat)
    (rs : list node) (fusible : option (node → node → bool)) (σ : store) (a : assignment) :
  assign_buffers_run G ι fuel rs fusible σ = Ok a →
  (∀ t, 0 ≤ itemsize G t)%Z →
  ∃ L, DataFlowGraph_liveness G (as_dfg a) fuel = Ok L
    ∧ (∀ op, is_Some (successors (as_dfg a) !! op) → is_Some (L !! op))
    ∧ ∀ op live, L !! op = Some live → (total_weight G (elements live) ≤ as_memory a)%Z.
Proof.
  intros Hrun Hpos.
  destruct (assign_buffers_run_inv _ _ _ _ _ _ _ Hrun)
    as (L & ifg & st & inputs & Hinit & HL & Hifg & Hf & Hst & _ & Hmem & _).
  exists L. split; [done|]. split.
  - intros op Hop. pose proof HL as HL'. rewrite DataFlowGraph_liveness_eq in HL'.
    apply bind_Ok in HL' as (order & Horder & _).
    destruct (dataflow_order_covers G fuel _ rs _ fuel order Hinit Horder) as [_ Hmem'].
    assert (order ≠ []) as Hne.
    { intros ->. by apply Hmem', elem_of_nil in Hop. }
    destruct (DataFlowGraph_liveness_spec G _ fuel order Horder Hne) as (L' & HL'' & Hkeys & _).
    rewrite HL in HL''. injection HL'' as <-. by apply Hkeys, Hmem'.
  - intros op live Hop.
    destruct (color_memory_spec G (lives_values ι L) σ)
      as (g & memory & buffers & g' & σ' & Hg & Hcolor & Hlow & _); [by intros|].
    rewrite Hifg in Hg. injection Hg as <-.
    unfold InterferenceGraph_color in Hcolor. rewrite Hst in Hcolor.
    injection Hcolor as <- _ _ _. rewrite Hmem.
    rewrite <- (total_weight_Permutation G _ _
                  (iterate_Permutation (rank_tensor ι op) (elements live))).
    apply Hlow.
    + apply elem_of_lives_values. by exists op, live.
    + rewrite iterate_Permutation. apply NoDup_elements.
Qed.

(** ** Facts: the steps of the fusion *)

Lemma transfer_edges_lookup dd v w (dct dct' : gmap node (gset node)) :
  v ≠ w → transfer_edges dd v w dct = Ok dct' →
  dct' !! w = None
  ∧ dct' !! v = Some ((defaultdict_get dct v ∪ (defaultdict_get dct w ∖ {[v]})) ∖ {[w]})
  ∧ ∀ n, n ≠ v → n ≠ w →
      dct' !! n = (λ s, if decide (w ∈ s) then s ∖ {[w]} ∪ {[v]} else s) <$> dct !! n.
Proof.
  intros Hvw Hrun. unfold transfer_edges in Hrun.
  apply bind_Ok in Hrun as (dv & Hdv & [= <-]).
  assert (dv = defaultdict_get dct v) as ->.
  { destruct dd; [by injection Hdv|]. apply getitem_Ok in Hdv.
    unfold defaultdict_get. by rewrite Hdv. }
  split; [|split].
  - by rewrite map_lookup_imap, lookup_insert_ne, lookup_delete_eq by done.
  - rewrite map_lookup_imap, lookup_insert_eq. cbn. f_equal.
    fold (defaultdict_get dct w). destruct (decide (v = v)); [|done].
    case_decide; [done|]. set_solver.
  - intros n Hnv Hnw. rewrite map_lookup_imap, lookup_insert_ne, lookup_delete_ne by done.
    destruct (dct !! n) as [s|]; [|done]. cbn. by destruct (decide (n = v)).
Qed.

(** X18.  [transfer_edges(v, w, dct)] contracts [w] into [v]: [w] is no key and
    in no set any more, and the edges are the edges there were with [w]
    replaced by [v], without a loop on [v] for an edge between the two.  On a
    plain dict without the key [v] it raises [KeyError]. *)
Theorem transfer_edges_contracts (is_defaultdict : bool) (v w : node)
    (dct : gmap node (gset node)) :
  v ≠ w →
  (is_defaultdict = false → dct !! v = None →
     transfer_edges is_defaultdict v w dct = Raise KeyError)
  ∧ (is_defaultdict = true ∨ is_Some (dct !! v) →
     ∃ dct', transfer_edges is_defaultdict v w dct = Ok dct'
       ∧ (∀ n, is_Some (dct' !! n) ↔ n = v ∨ (n ≠ w ∧ is_Some (dct !! n)))
       ∧ (∀ x y, edge dct' x y → x ≠ w ∧ y ≠ w)
       ∧ ∀ x y, edge dct' x y ↔ contracted v w (edge dct) x y).
Proof.
  intros Hvw. split.
  { intros -> Hv. unfold transfer_edges, getitem. by rewrite Hv. }
  intros Hok.
  assert (∃ dct', transfer_edges is_defaultdict v w dct = Ok dct') as [dct' Hrun].
  { unfold transfer_edges. destruct Hok as [->|[dv Hdv]]; [by eexists|].
    destruct is_defaultdict; [by eexists|]. rewrite (getitem_Some dct v dv) by done.
    by eexists. }
  destruct (transfer_edges_lookup _ v w dct dct' Hvw Hrun) as (Hw & Hv & Hn).
  exists dct'. split; [done|].
  assert (∀ x y, y ∈ defaultdict_get dct x ↔ edge dct x y) as Hedge.
  { intros x y. unfold edge, defaultdict_get. destruct (dct !! x); [naive_solver|].
    split; [set_solver|by intros (? & ? & _)]. }
  assert (∀ x y, edge dct' x y ↔
            x ≠ w ∧ y ≠ w
            ∧ (if decide (x = v)
               then edge dct v y ∨ (edge dct w y ∧ y ≠ v)
               else edge dct x y ∨ (y = v ∧ edge dct x w))) as Hnew.
  { intros x y. unfold edge at 1. destruct (decide (x = v)) as [->|Hxv].
    - rewrite Hv, <- !Hedge. split.
      + intros (s & [= <-] & Hy). set_solver.
      + intros (_ & Hyw & Hy). eexists. split; [done|]. set_solver.
    - destruct (decide (x = w)) as [->|Hxw].
      { rewrite Hw. split; [by intros (? & ? & _)|by intros [? _]]. }
      rewrite (Hn x Hxv Hxw), <- !Hedge. unfold defaultdict_get.
      destruct (dct !! x) as [s|]; cbn.
      + split.
        * intros (s' & [= <-] & Hy). case_decide; set_solver.
        * intros (_ & Hyw & Hy). eexists. split; [done|]. case_decide; set_solver.
      + split; [by intros (? & ? & _)|]. set_solver. }
  split; [|split].
  - intros n. destruct (decide (n = v)) as [->|Hnv].
    { rewrite Hv. split; [by left|by eauto]. }
    destruct (decide (n = w)) as [->|Hnw].
    { rewrite Hw. split; [by intros [? ?]|]. intros [?|[? _]]; done. }
    rewrite (Hn n Hnv Hnw), fmap_is_Some. naive_solver.
  - intros x y (? & ? & _)%Hnew. done.
  - intros x y. rewrite Hnew. unfold contracted, merged. split.
    + intros (Hxw & Hyw & Hcase). destruct (decide (x = v)) as [->|Hxv].
      * destruct Hcase as [Hy|[Hy Hyv]].
        -- exists v, y. rewrite !decide_False by done. naive_solver.
        -- exists w, y. rewrite decide_True, decide_False by done. naive_solver.
      * destruct Hcase as [Hy|[-> Hy]].
        -- exists x, y. rewrite !decide_False by done. naive_solver.
        -- exists x, w. rewrite decide_False, decide_True by done. naive_solver.
    + intros (x0 & y0 & H0 & <- & <- & Hloop).
      repeat case_decide; subst; naive_solver.
Qed.

Section compute_paths.
Context (fusible : node → node → bool) (G : gmap node (gset node)).

Lemma compute_paths_eq fuel :
  compute_paths fusible G fuel
  = (order ← Digraph_topsort G fuel;
     foldM (λ pb v, foldM (paths_step fusible v) (elements (defaultdict_get G v))
                          (<[v := {[v]}]> pb.1, <[v := ∅]> pb.2))
           (reverse order) (∅, ∅)).
Proof. reflexivity. Qed.

Lemma paths_inner v ws : ∀ pb p b,
  v ∉ ws → (∀ w, w ∈ ws → paths_good fusible G pb w) →
  pb.1 !! v = Some p → pb.2 !! v = Some b →
  ∃ pb' p' b',
    foldM (paths_step fusible v) ws pb = Ok pb'
    ∧ pb'.1 !! v = Some p' ∧ pb'.2 !! v = Some b'
    ∧ (∀ x, x ∈ p' ↔ x ∈ p ∨ ∃ w, w ∈ ws ∧ rtc (edge G) w x)
    ∧ (∀ x, x ∈ b' ↔ x ∈ b ∨ ∃ w, w ∈ ws ∧
         ((fusible v w = false ∧ rtc (edge G) w x)
          ∨ (fusible v w = true ∧ bad_path fusible G w x)))
    ∧ ∀ k, k ≠ v → pb'.1 !! k = pb.1 !! k ∧ pb'.2 !! k = pb.2 !! k.
Proof.
  induction ws as [|w ws IH]; intros pb p b Hv Hgood Hp Hb.
  { exists pb, p, b. split; [done|]. split; [done|]. split; [done|].
    split; [|split; [|done]]; intros x; split; try (by left);
      intros [?|(w & ?%elem_of_nil & _)]; done. }
  apply not_elem_of_cons in Hv as [Hvw Hv].
  destruct (Hgood w) as (pw & bw & Hpw & Hbw & Hreach & Hbad); [by left|].
  rewrite foldM_cons. unfold paths_step at 2.
  rewrite (getitem_Some pb.1 v p), (getitem_Some pb.1 w pw) by done. cbn [mbind res_bind].
  rewrite (getitem_Some pb.2 v b) by done. cbn [mbind res_bind].
  set (path_from := <[v := p ∪ pw]> pb.1).
  assert (∃ pb1, (if fusible v w
                  then bw0 ← getitem pb.2 w; Ok (path_from, <[v := b ∪ bw0]> pb.2)
                  else pw0 ← getitem path_from w; Ok (path_from, <[v := b ∪ pw0]> pb.2))
                 = Ok pb1
            ∧ pb1.1 = path_from
            ∧ pb1.2 = <[v := b ∪ (if fusible v w then bw else pw)]> pb.2) as (pb1 & -> & H1 & H2).
  { destruct (fusible v w).
    - rewrite (getitem_Some pb.2 w bw) by done. by eexists.
    - rewrite (getitem_Some path_from w pw); [by eexists|].
      unfold path_from. by rewrite lookup_insert_ne. }
  cbn [mbind res_bind].
  destruct (IH pb1 (p ∪ pw) (b ∪ (if fusible v w then bw else pw)))
    as (pb' & p' & b' & Hrun & Hp' & Hb' & Hin & Hbin & Hout).
  { done. }
  { intros w' Hw'. destruct (Hgood w') as (p0 & b0 & ? & ? & ? & ?); [by right|].
    exists p0, b0. rewrite H1, H2. unfold path_from.
    rewrite !lookup_insert_ne by (intros ->; done). done. }
  { rewrite H1. unfold path_from. by rewrite lookup_insert_eq. }
  { rewrite H2. by rewrite lookup_insert_eq. }
  exists pb', p', b'. split; [done|]. split; [done|]. split; [done|]. split; [|split].
  - intros x. rewrite Hin, elem_of_union, Hreach. split.
    + intros [[?|?]|(w' & ? & ?)]; [by left|right; exists w; split; [by left|done]|].
      right. exists w'. split; [by right|done].
    + intros [?|(w' & [->|?]%elem_of_cons & ?)]; [by left; left|by left; right|].
      right. by exists w'.
  - intros x. rewrite Hbin, elem_of_union. split.
    + intros [[?|Hx]|(w' & ? & ?)]; [by left| |].
      * right. exists w. split; [by left|]. destruct (fusible v w).
        -- right. split; [done|]. by apply Hbad.
        -- left. split; [done|]. by apply Hreach.
      * right. exists w'. split; [by right|done].
    + intros [?|(w' & [->|?]%elem_of_cons & Hx)]; [by left; left| |].
      * left; right. destruct (fusible v w); destruct Hx as [[? ?]|[? ?]]; try done.
        -- by apply Hbad.
        -- by apply Hreach.
      * right. by exists w'.
  - intros k Hk. destruct (Hout k Hk) as [-> ->]. rewrite H1, H2. unfold path_from.
    by rewrite !lookup_insert_ne.
Qed.

Lemma paths_outer : ∀ l,
  topo (edge G) l → NoDup l → (∀ x, x ∈ l → is_Some (G !! x)) →
  ∃ pb,
    foldM (λ pb v, foldM (paths_step fusible v) (elements (defaultdict_get G v))
                         (<[v := {[v]}]> pb.1, <[v := ∅]> pb.2))
          (reverse l) (∅, ∅) = Ok pb
    ∧ (∀ x, x ∈ l → paths_good fusible G pb x)
    ∧ ∀ x, x ∉ l → pb.1 !! x = None ∧ pb.2 !! x = None.
Proof.
  induction l as [|u l IH]; intros Htopo Hnd Hkeys.
  { exists (∅, ∅). split; [done|]. split; [by intros x ?%elem_of_nil|done]. }
  inversion Htopo as [|? ? Hsucc Htopo']; subst.
  apply NoDup_cons in Hnd as [Hu Hnd].
  destruct (IH Htopo' Hnd) as (pb & Hrun & Hgood & Hnone).
  { intros x Hx. apply Hkeys. by right. }
  rewrite reverse_cons, foldM_app, Hrun. cbn [mbind res_bind]. rewrite foldM_cons.
  assert (∀ w, w ∈ elements (defaultdict_get G u) ↔ edge G u w) as Hchildren.
  { intros w. rewrite elem_of_elements. unfold edge, defaultdict_get.
    destruct (G !! u); [naive_solver|]. split; [set_solver|by intros (? & ? & _)]. }
  destruct (paths_inner u (elements (defaultdict_get G u))
              (<[u := {[u]}]> pb.1, <[u := ∅]> pb.2) {[u]} ∅)
    as (pb' & p' & b' & -> & Hp' & Hb' & Hin & Hbin & Hout).
  { intros Huu%Hchildren. by apply Hu, Hsucc. }
  { intros w Hw%Hchildren%Hsucc. destruct (Hgood w Hw) as (p0 & b0 & ? & ? & ? & ?).
    exists p0, b0. cbn [fst snd]. rewrite !lookup_insert_ne by (intros ->; done). done. }
  { cbn. by rewrite lookup_insert_eq. }
  { cbn. by rewrite lookup_insert_eq. }
  cbn [mbind res_bind]. exists pb'. split; [done|]. split.
  - intros x [->|Hx]%elem_of_cons.
    + exists p', b'. split; [done|]. split; [done|]. split.
      * intros x. rewrite Hin, elem_of_singleton. split.
        -- intros [->|(w & Hw%Hchildren & Hwx)]; [done|]. by eapply rtc_l.
        -- intros Hr. inversion Hr as [|? w ? Huw Hwx]; subst; [by left|].
           right. exists w. split; [by apply Hchildren|done].
      * intros x. rewrite Hbin. split.
        -- intros [?%not_elem_of_empty|(w & Hw%Hchildren & [[? ?]|[? ?]])]; [done|..].
           ++ by eapply bad_path_here.
           ++ by eapply bad_path_later.
        -- intros Hbad. right. inversion Hbad as [? w ? Huw Hf Hwx|? w ? Huw Hf Hwx]; subst;
             exists w; (split; [by apply Hchildren|]); [by left|by right].
    + destruct (Hgood x Hx) as (p0 & b0 & ? & ? & ? & ?). exists p0, b0.
      destruct (Hout x) as [-> ->]; [by intros ->|]. cbn [fst snd].
      rewrite !lookup_insert_ne by (intros ->; done). done.
  - intros x [Hxu Hx]%not_elem_of_cons. destruct (Hout x Hxu) as [-> ->]. cbn [fst snd].
    rewrite !lookup_insert_ne by done. by apply Hnone.
Qed.
End compute_paths.

Lemma compute_paths_spec (fusible : node → node → bool)
    (G : gmap node (gset node)) (fuel : nat) :
  closed G → acyclic G → base.size G ≤ fuel →
  ∃ path_from bad_path_from,
    compute_paths fusible G fuel = Ok (path_from, bad_path_from)
    ∧ (∀ v, is_Some (G !! v) →
         ∃ p b, path_from !! v = Some p ∧ bad_path_from !! v = Some b
                ∧ (∀ x, x ∈ p ↔ rtc (edge G) v x)
                ∧ ∀ x, x ∈ b ↔ bad_path fusible G v x)
    ∧ ∀ v, G !! v = None → path_from !! v = None ∧ bad_path_from !! v = None.
Proof.
  intros Hcl Hac Hfuel. rewrite compute_paths_eq.
  destruct (Digraph_topsort_spec G fuel Hcl Hac) as (order & Horder & Hnd & Hmem & _).
  { intros u Hu. apply (depth_le_mono _ _ (base.size (dom G))); [|by rewrite size_dom].
    apply depth_le_size; [|done|by apply elem_of_dom].
    intros x y Hxy. apply elem_of_dom. by eapply Hcl. }
  destruct (Digraph_topsort_partial G fuel order Horder) as (_ & _ & _ & _ & _ & Htopo).
  rewrite Horder. cbn [mbind res_bind].
  destruct (paths_outer fusible G order Htopo Hnd) as ([pf bpf] & Hrun & Hgood & Hnone).
  { intros x Hx. by apply Hmem. }
  exists pf, bpf. split; [done|]. split.
  - intros v Hv%Hmem. by apply Hgood.
  - intros v Hv. apply Hnone. rewrite Hmem, Hv. by intros [? ?].
Qed.

(** X19.  [_compute_paths] on an acyclic graph: [path_from[v]] is the set of the
    nodes that [v] reaches, itself among them, and [bad_path_from[v]] the set
    of the nodes it reaches by a path with an edge that the policy does not
    fuse. *)
Theorem compute_paths_reachability (fusible : node → node → bool)
    (G : gmap node (gset node)) (fuel : nat) :
  closed G → acyclic G → base.size G ≤ fuel →
  ∃ path_from bad_path_from,
    compute_paths fusible G fuel = Ok (path_from, bad_path_from)
    ∧ (∀ v, is_Some (G !! v) →
         ∃ p b, path_from !! v = Some p ∧ bad_path_from !! v = Some b
                ∧ (∀ x, x ∈ p ↔ rtc (edge G) v x)
                ∧ ∀ x, x ∈ b ↔ bad_path fusible G v x)
    ∧ ∀ v, G !! v = None → path_from !! v = None ∧ bad_path_from !! v = None.
Proof. apply compute_paths_spec. Qed.

Lemma mapM_fmap {A B} (f : A → res B) (g : A → B) l :
  (∀ x, x ∈ l → f x = Ok (g x)) → mapM f l = Ok (g <$> l).
Proof.
  induction l as [|x l IH]; intros Hf; [done|].
  cbn. rewrite Hf by left. cbn. rewrite IH; [done|]. intros y Hy. apply Hf. by right.
Qed.

Lemma mapM_KeyError {A B} (f : A → res B) l x :
  x ∈ l → f x = Raise KeyError →
  (∀ y, y ∈ l → (∃ z, f y = Ok z) ∨ f y = Raise KeyError) →
  mapM f l = Raise KeyError.
Proof.
  induction l as [|y l IH]; intros Hx Hfx Hall; [by apply elem_of_nil in Hx|].
  cbn. destruct (Hall y) as [[z Hz]| ->]; [by left| |done].
  rewrite Hz. cbn. rewrite IH; [done| |done|].
  - apply elem_of_cons in Hx as [->|?]; [congruence|done].
  - intros y' Hy'. apply Hall. by right.
Qed.

Lemma elem_of_sorted_edges (S : gmap node (gset node)) v w :
  (v, w) ∈ sorted_edges S ↔ edge S v w.
Proof.
  unfold sorted_edges. rewrite merge_sort_Permutation, list_elem_of_bind. split.
  - intros ([a ws] & (b & [= -> ->] & Hb%elem_of_elements)%list_elem_of_fmap
            & Ha%elem_of_map_to_list). by exists ws.
  - intros (ws & Hv & Hw). exists (v, ws). split; [|by apply elem_of_map_to_list].
    apply list_elem_of_fmap. exists w. split; [done|]. by apply elem_of_elements.
Qed.

Lemma singletons_lookup (ends : list node) x :
  (list_to_map ((λ x, (x, {[x]})) <$> ends) : gmap node (gset node)) !! x
  = if decide (x ∈ ends) then Some {[x]} else None.
Proof.
  induction ends as [|a l IH]; [done|].
  cbn. destruct (decide (a = x)) as [->|Hne].
  - rewrite lookup_insert_eq, decide_True; [done|by left].
  - rewrite lookup_insert_ne, IH by done.
    destruct (decide (x ∈ l)); [rewrite decide_True; [done|by right]|].
    rewrite decide_False; [done|]. intros [?|?]%elem_of_cons; congruence.
Qed.

Lemma fuse_loop_skip fuel : ∀ edges st,
  length edges ≤ fuel →
  (∀ vw, vw ∈ edges → ∃ bv, fs_bad_path_from st !! vw.1 = Some bv ∧ vw.2 ∈ bv) →
  fuse_loop fuel edges st = Ok st.
Proof.
  induction fuel as [|fuel IH]; intros edges st Hlen Hbad.
  { destruct edges; [done|simpl in Hlen; lia]. }
  simpl. destruct (reverse edges) as [|vw rest] eqn:Hrev; [done|].
  assert (edges = reverse (vw :: rest)) as -> by (by rewrite <- Hrev, reverse_involutive).
  destruct (Hbad vw) as (bv & Hbv & Hin); [rewrite elem_of_reverse; by left|].
  rewrite (getitem_Some _ _ bv) by done. cbn [mbind res_bind]. rewrite decide_True by done.
  apply IH.
  - rewrite length_reverse in *. simpl in Hlen. lia.
  - intros e He. apply Hbad. rewrite elem_of_reverse in *. by right.
Qed.

Lemma never_fusible_bad (S : gmap node (gset node)) v w :
  edge S v w → bad_path never_fusible S v w.
Proof. intros Hvw. by eapply bad_path_here. Qed.

(** X20.  The body of [KernelFlowGraph.__init__] under the default policy
    [never_fusible]: no two operations are merged, and the graph it leaves is
    the dataflow graph with every [ComputationOp] wrapped alone in a
    [Function].  An operation on no edge is in no cluster, and the last
    comprehension raises [KeyError] for it. *)
Theorem default_policy_fuses_nothing (G : OpGraph) (fuel : nat)
    (self dataflow : DataFlowGraph) :
  closed (successors self) → acyclic (successors self) →
  base.size (successors self) ≤ fuel → length (sorted_edges (successors self)) ≤ fuel →
  ((∀ v, is_Some (successors self !! v) →
      ∃ w, edge (successors self) v w ∨ edge (successors self) w v) →
   KernelFlowGraph_fuse G fuel never_fusible self dataflow
   = Ok {| kfg_successors :=
             (λ alst, (wrap_alone G dataflow alst.1, wrap_alone G dataflow <$> elements alst.2))
               <$> map_to_list (successors self);
           kfg_results := results self; kfg_dataflow := dataflow |})
  ∧ ∀ v, is_Some (successors self !! v) →
      (∀ w, ¬ edge (successors self) v w ∧ ¬ edge (successors self) w v) →
      KernelFlowGraph_fuse G fuel never_fusible self dataflow = Raise KeyError.
Proof.
  intros Hcl Hac Hsize Hlen. set (S := successors self) in *.
  destruct (compute_paths_spec never_fusible S fuel Hcl Hac Hsize)
    as (pf & bpf & Hpaths & Hgood & _).
  set (ends := e ← sorted_edges S; [e.1; e.2]).
  assert (∀ x, x ∈ ends ↔ ∃ w, edge S x w ∨ edge S w x) as Hends.
  { intros x. unfold ends. rewrite list_elem_of_bind. split.
    - intros ([a b] & Hx & Hab%elem_of_sorted_edges). cbn in Hx.
      apply elem_of_cons in Hx as [->|[->|?%elem_of_nil]%elem_of_cons]; [| |done].
      + exists b. by left.
      + exists a. by right.
    - intros (w & [Hxw|Hwx]).
      + exists (x, w). split; [by left|by apply elem_of_sorted_edges].
      + exists (w, x). split; [by right; left|by apply elem_of_sorted_edges]. }
  assert (KernelFlowGraph_fuse G fuel never_fusible self dataflow
            = (outer ← outer_successors
                         (wrap_clusters G (successors dataflow)
                            (list_to_map ((λ x, (x, {[x]})) <$> ends)))
                         S;
               Ok {| kfg_successors := outer; kfg_results := results self;
                     kfg_dataflow := dataflow |})) as Hfuse.
  { unfold KernelFlowGraph_fuse. fold S. rewrite Hpaths. cbn [mbind res_bind fst snd].
    fold ends. rewrite fuse_loop_skip; [done|done|].
    intros [v w] Hvw%elem_of_sorted_edges. cbn [fst snd fs_bad_path_from].
    destruct (Hgood v) as (p & b & _ & Hb & _ & Hbad); [destruct Hvw as (? & ? & _); by eauto|].
    exists b. split; [done|]. by apply Hbad, never_fusible_bad. }
  rewrite Hfuse.
  assert (∀ x, getitem (wrap_clusters G (successors dataflow)
                          (list_to_map ((λ x, (x, {[x]})) <$> ends))) x
               = if decide (x ∈ ends) then Ok (wrap_alone G dataflow x) else Raise KeyError)
    as Hget.
  { intros x. unfold getitem. rewrite wrap_clusters_lookup, singletons_lookup.
    by destruct (decide (x ∈ ends)). }
  split.
  - intros Hall. unfold outer_successors.
    rewrite (mapM_fmap _ (λ alst, (wrap_alone G dataflow alst.1,
                                    wrap_alone G dataflow <$> elements alst.2))); [done|].
    intros [a lst] Ha%elem_of_map_to_list. cbn [fst snd].
    rewrite Hget, decide_True by (apply Hends, Hall; by eauto). cbn [mbind res_bind].
    rewrite (mapM_fmap _ (wrap_alone G dataflow)); [done|].
    intros b Hb%elem_of_elements. rewrite Hget, decide_True; [done|].
    apply Hends. exists a. right. by exists lst.
  - intros v [lst Hv] Halone. unfold outer_successors.
    rewrite (mapM_KeyError _ _ (v, lst)); [done|by apply elem_of_map_to_list| |].
    + cbn [fst]. rewrite Hget, decide_False; [done|].
      intros (w & Hw)%Hends. destruct (Halone w). tauto.
    + intros [a la] Ha. cbn [fst snd]. rewrite Hget.
      destruct (decide (a ∈ ends)); [|by right]. cbn [mbind res_bind].
      destruct (decide (Forall (λ b, b ∈ ends) (elements la))) as [Hfa|Hfa].
      * left. rewrite (mapM_fmap _ (wrap_alone G dataflow)); [by eexists|].
        intros b Hb. rewrite Hget, decide_True; [done|]. by eapply Forall_forall in Hfa.
      * right. apply (not_Forall_Exists _), Exists_exists in Hfa as (b & Hb & Hnb).
        rewrite (mapM_KeyError _ _ b); [done|done|by rewrite Hget, decide_False|].
        intros b' _. rewrite Hget. destruct (decide (b' ∈ ends)); [left; by eexists|by right].
Qed.

Lemma singletons_partition (ends : list node) :
  clusters_partition (list_to_map ((λ x, (x, {[x]})) <$> ends)) (list_to_set ends).
Proof.
  split.
  - intros x. rewrite elem_of_list_to_set. split.
    + intros Hx. exists x, {[x]}. rewrite singletons_lookup, decide_True by done.
      split; [done|set_solver].
    + intros (r & R & Hr & Hx). rewrite singletons_lookup in Hr.
      destruct (decide (r ∈ ends)); simplify_eq. by apply elem_of_singleton in Hx as ->.
  - intros r1 r2 R1 R2 x H1 H2 Hx1 Hx2. rewrite singletons_lookup in H1, H2.
    repeat case_decide; simplify_eq. set_solver.
  - intros r R Hr. rewrite singletons_lookup in Hr. case_decide; simplify_eq. set_solver.
Qed.

Lemma merge_into_partition v st x st' U :
  merge_into v st x = Ok st' →
  clusters_partition (fs_clusters st) U → clusters_partition (fs_clusters st') U.
Proof.
  unfold merge_into.
  intros (cv & Hcv%getitem_Ok & (cx & Hcx%getitem_Ok & Hrest)%bind_Ok)%bind_Ok [Hc Hd Hr].
  apply bind_Ok in Hrest as (? & _ & (? & _ & (? & _ & [= <-])%bind_Ok)%bind_Ok).
  cbn [fs_clusters].
  assert (∀ r R, (<[v := cv ∪ cx]> (delete x (fs_clusters st)) : gmap node (gset node)) !! r
                 = Some R ↔
            (r = v ∧ R = cv ∪ cx) ∨ (r ≠ v ∧ r ≠ x ∧ fs_clusters st !! r = Some R)) as Hlook.
  { intros r R. destruct (decide (r = v)) as [->|Hrv].
    - rewrite lookup_insert_eq. naive_solver.
    - rewrite lookup_insert_ne by done. destruct (decide (r = x)) as [->|Hrx].
      + rewrite lookup_delete_eq. naive_solver.
      + rewrite lookup_delete_ne by done. naive_solver. }
  split.
  - intros y. rewrite Hc. split.
    + intros (r & R & HR & Hy). destruct (decide (r = v)) as [->|Hrv].
      { exists v, (cv ∪ cx). rewrite Hlook. split; [by left|]. simplify_eq. set_solver. }
      destruct (decide (r = x)) as [->|Hrx].
      { exists v, (cv ∪ cx). rewrite Hlook. split; [by left|]. simplify_eq. set_solver. }
      exists r, R. rewrite Hlook. split; [by right|done].
    + intros (r & R & [[-> ->]|(? & ? & HR)]%Hlook & Hy); [|by eauto].
      apply elem_of_union in Hy as [?|?]; eauto.
  - intros r1 r2 R1 R2 y [[-> ->]|(? & ? & H1)]%Hlook [[-> ->]|(? & ? & H2)]%Hlook Hy1 Hy2;
      [done| | |by eapply Hd].
    + apply elem_of_union in Hy1 as [Hy1|Hy1].
      * by destruct (Hd v r2 _ _ y Hcv H2 Hy1 Hy2).
      * by destruct (Hd x r2 _ _ y Hcx H2 Hy1 Hy2).
    + apply elem_of_union in Hy2 as [Hy2|Hy2].
      * by destruct (Hd r1 v _ _ y H1 Hcv Hy1 Hy2).
      * by destruct (Hd r1 x _ _ y H1 Hcx Hy1 Hy2).
  - intros r R [[-> ->]|(? & ? & HR)]%Hlook; [|by eapply Hr].
    apply elem_of_union_l. by eapply Hr.
Qed.

Lemma merges_partition v xs U : ∀ st st',
  foldM (merge_into v) xs st = Ok st' →
  clusters_partition (fs_clusters st) U → clusters_partition (fs_clusters st') U.
Proof.
  induction xs as [|x xs IH]; intros st st' Hrun Hp; [by injection Hrun as <-|].
  rewrite foldM_cons in Hrun. apply bind_Ok in Hrun as (st1 & Hx & Hrun).
  eapply IH; [done|]. by eapply merge_into_partition.
Qed.

Lemma fuse_loop_partition fuel U : ∀ edges st st',
  fuse_loop fuel edges st = Ok st' →
  clusters_partition (fs_clusters st) U → clusters_partition (fs_clusters st') U.
Proof.
  induction fuel as [|fuel IH]; intros edges st st' Hrun Hp.
  { simpl in Hrun. destruct (reverse edges); [by injection Hrun as <-|done]. }
  simpl in Hrun. destruct (reverse edges) as [|vw rest]; [by injection Hrun as <-|].
  apply bind_Ok in Hrun as (bv & _ & Hrun).
  destruct (decide (vw.2 ∈ bv)); [by eapply IH|].
  apply bind_Ok in Hrun as (to_merge & _ & Hrun).
  apply bind_Ok in Hrun as (st1 & Hmerge & Hrun).
  eapply IH; [done|]. by eapply merges_partition.
Qed.

(** X21.  The fusion loses and repeats no operation: when the [while] loop of
    [KernelFlowGraph.__init__] ends, whatever it has merged, every operation
    that was on an edge of the graph is in exactly one cluster, and the key of
    a cluster is one of its operations. *)
Theorem fusion_keeps_partition (fuel : nat) (successors path_from bad_path_from
    : gmap node (gset node)) (st : fusion_state) :
  fuse_loop fuel (sorted_edges successors)
    {| fs_successors := successors; fs_path_from := path_from;
       fs_bad_path_from := bad_path_from;
       fs_clusters :=
         list_to_map ((λ x, (x, {[x]})) <$> (e ← sorted_edges successors; [e.1; e.2])) |}
  = Ok st →
  clusters_partition (fs_clusters st)
    (list_to_set (e ← sorted_edges successors; [e.1; e.2])).
Proof.
  intros Hrun. eapply fuse_loop_partition; [exact Hrun|]. apply singletons_partition.
Qed.

(** ** Facts: the outer graph *)







(** ** The analysis on the example graph *)

Example example_dataflow_built :
  DataFlowGraph_init example_ops 3 [ATransformer; ANodes [3]] = Ok example_dataflow.
Proof. vm_compute. reflexivity. Qed.

Example example_topsort : Digraph_topsort example_successors 4 = Ok [0; 2; 1; 3].
Proof. vm_compute. reflexivity. Qed.

Lemma example_closed : closed example_successors.
Proof. apply closed_check. by compute_done. Defined.

Lemma example_acyclic : acyclic example_successors.
Proof. apply (acyclic_rank _ (λ v, 3 - v)). by compute_done. Defined.

Lemma topsort_sound_witness :
  closed example_successors ∧ acyclic example_successors
  ∧ base.size example_successors ≤ 4
  ∧ ∃ order, Digraph_topsort example_successors 4 = Ok order
      ∧ NoDup order
      ∧ (∀ v, v ∈ order ↔ is_Some (example_successors !! v))
      ∧ ∀ v w, edge example_successors v w → before order v w.
Proof.
  split; [exact example_closed|]. split; [exact example_acyclic|].
  split; [by compute_done|].
  apply (topsort_sound example_successors 4 example_closed example_acyclic).
  by compute_done.
Defined.

(** A successor that is not a key: [_invert] raises. *)
Lemma topsort_open_map_raises :
  acyclic {[ 1 := {[2]} ]}
  ∧ ¬ closed {[ 1 := {[2]} ]}
  ∧ ∀ fuel, Digraph_topsort {[ 1 := {[2]} ]} fuel = Raise KeyError.
Proof.
  split; [|split].
  - apply (acyclic_rank _ (λ v, 3 - v)). by compute_done.
  - intros H. destruct (H 1 2) as [? Hx]; [|by vm_compute in Hx].
    exists {[2]}. split; [by vm_compute|set_solver].
  - intros fuel. reflexivity.
Qed.

Lemma liveness_keeps_uses_witness :
  DataFlowGraph_instructions example_dataflow 4 = Ok [0; 2; 1; 3]
  ∧ [0; 2; 1; 3] ≠ []
  ∧ ∃ L, DataFlowGraph_liveness example_ops example_dataflow 4 = Ok L
      ∧ ∀ i, i ∈ [0; 2; 1; 3] →
          ∃ live, L !! i = Some live
                  ∧ descriptions example_ops (args example_ops i) ⊆ live.
Proof.
  split; [by vm_compute|]. split; [done|].
  apply (liveness_keeps_uses example_ops example_dataflow 4 [0; 2; 1; 3]);
    [by vm_compute|done].
Defined.

Example example_liveness :
  (λ L, (λ p, (p.1, elements p.2)) <$> map_to_list L)
    <$> (match DataFlowGraph_liveness example_ops example_dataflow 4 with
         | Ok L => Some L | _ => None end)
  = Some [(2, [10; 12]); (3, [12; 13; 11]); (1, [10; 12; 11]); (0, [10])].
Proof. vm_compute. reflexivity. Qed.

(** Two live sets [{1, 2}] and [{3, 4}]: the head [4] takes [2] with it and
    its neighbour set, [{3}] before the call, is [{1, 3}] after it. *)
Example example_absorbed :
  ∃ g st, InterferenceGraph_init example_ops [[1; 2]; [3; 4]] = Ok g
    ∧ color_run g ∅ = Ok st
    ∧ neighbors g !! 4 = Some {[3]}
    ∧ st_partitions st = [[4; 2]; [3; 1]]
    ∧ st_neighbors st !! 4 = Some {[1; 3]}.
Proof. eexists _, _. split; [by vm_compute|]. split; [by vm_compute|]. by vm_compute. Qed.

Lemma color_absorbs_neighbors_witness :
  Forall NoDup [[1; 2]; [3; 4]]
  ∧ ∃ g st,
      InterferenceGraph_init example_ops [[1; 2]; [3; 4]] = Ok g
      ∧ color_run g ∅ = Ok st
      ∧ (∀ k S, st_partitions st !! k = Some S →
           ∃ u rest N, S = u :: rest ∧ st_neighbors st !! u = Some N
             ∧ ∀ y, y ∈ N ↔ ∃ s, s ∈ S ∧ y ∈ neighbors_of (neighbors g) s)
      ∧ color_run {| neighbors := st_neighbors st; weights := weights g |} (st_store st)
        = Ok st.
Proof.
  assert (Forall NoDup [[1; 2]; [3; 4]]) as Hnd by (by compute_done).
  split; [exact Hnd|].
  apply (color_absorbs_neighbors example_ops [[1; 2]; [3; 4]] ∅ Hnd).
Defined.

(** No interference graph built from live sets is coloured differently by a
    second call. *)
Lemma color_twice_same :
  ¬ ∃ (G : OpGraph) (lives : list (list tensor)) (σ : store) g st1 st2,
      Forall NoDup lives
      ∧ InterferenceGraph_init G lives = Ok g
      ∧ color_run g σ = Ok st1
      ∧ color_run {| neighbors := st_neighbors st1; weights := weights g |} (st_store st1)
        = Ok st2
      ∧ (st_partitions st2 ≠ st_partitions st1
         ∨ total_size (st_buffers st2) ≠ total_size (st_buffers st1)).
Proof.
  intros (G & lives & σ & g & st1 & st2 & Hnd & Hg & Hrun1 & Hrun2 & Hdiff).
  destruct (InterferenceGraph_init_facts G lives) as (g' & Hg' & Hf).
  rewrite Hg in Hg'. injection Hg' as <-.
  rewrite (color_run_again G lives g σ st1 Hnd Hf Hrun1) in Hrun2.
  injection Hrun2 as <-. by destruct Hdiff.
Qed.






Example example_bound :
  ∃ dfg memory σ',
    assign_buffers example_ops example_order 4 [3] None ∅
    = Ok (dfg, memory, σ')
    ∧ memory = 288%Z
    ∧ σ' !! 10 = Some (mkBuffer 0 104 None)
    ∧ σ' !! 18 = Some (mkBuffer 0 104 None)
    ∧ σ' !! 19 = Some (mkBuffer (-1) 5 (Some 9)).
Proof. eexists _, _, _. split; [by vm_compute|]. by vm_compute. Qed.

(** The lines of the constructor that no run reaches, run on the dataflow
    graph as the parent constructor would have left it: under the policy that
    fuses nothing every cluster is a singleton, and the cluster [{3}] of the
    operation [3] becomes a [Function]; under a policy that fuses everything
    the one cluster of four nodes, whose representative is the variable [0],
    stays unwrapped. *)
Example unreached_body_wraps_singleton :
  ∃ pb st kfg,
    compute_paths never_fusible example_successors 10 = Ok pb
    ∧ fuse_loop 10 (sorted_edges example_successors)
        {| fs_successors := example_successors; fs_path_from := pb.1;
           fs_bad_path_from := pb.2;
           fs_clusters := {[ 0 := {[0]}; 1 := {[1]}; 2 := {[2]}; 3 := {[3]} ]} |} = Ok st
    ∧ fs_clusters st !! 3 = Some {[3]}
    ∧ is_ComputationOp example_ops 3 = true
    ∧ KernelFlowGraph_fuse example_ops 10 never_fusible example_dataflow example_dataflow
      = Ok kfg
    ∧ kfg_successors kfg
      = [(Function 2 {[ 2 := ∅ ]}, [Function 3 {[ 3 := ∅ ]}]);
         (Function 3 {[ 3 := ∅ ]}, []);
         (Function 1 {[ 1 := ∅ ]}, [Function 3 {[ 3 := ∅ ]}]);
         (Unwrapped 0, [Function 2 {[ 2 := ∅ ]}; Function 1 {[ 1 := ∅ ]}])].
Proof.
  eexists _, _, _. split; [by vm_compute|]. split; [by vm_compute|].
  split; [by vm_compute|]. split; [done|]. split; by vm_compute.
Qed.

(** A node on no edge is in no cluster, and the last comprehension of the
    constructor raises for it. *)
Example isolated_node_raises :
  KernelFlowGraph_fuse example_ops 10 never_fusible
    {| successors := {[ 0 := ∅ ]}; results := [0] |}
    {| successors := {[ 0 := ∅ ]}; results := [0] |}
  = Raise KeyError.
Proof. by vm_compute. Qed.

Example whole_graph_cluster_unwrapped :
  ∃ kfg,
    KernelFlowGraph_fuse example_ops 10 (λ _ _, true) example_dataflow example_dataflow
    = Ok kfg
    ∧ kfg_successors kfg = [(Unwrapped 0, [])].
Proof. eexists. split; by vm_compute. Qed.

Lemma dataflow_instructions_sound_witness :
  DataFlowGraph_init example_ops 3 [ATransformer; ANodes [3]] = Ok example_dataflow
  ∧ closed example_successors ∧ acyclic example_successors
  ∧ ∃ order, DataFlowGraph_instructions example_dataflow 4 = Ok order
      ∧ NoDup order
      ∧ (∀ w, w ∈ [3] → w ∈ order)
      ∧ ∀ w v, w ∈ order → v ∈ args example_ops w → before order v w.
Proof.
  split; [by vm_compute|].
  apply (dataflow_instructions_sound example_ops 3 [3] example_dataflow).
  by vm_compute.
Defined.

Example example_second_run :
  ∃ r, assign_buffers example_ops example_order 4 [3] None ∅ = Ok r
       ∧ assign_buffers example_ops example_order 4 [3] None r.2 = Ok r
       ∧ r.1.2 = 288%Z.
Proof. eexists. split; [by vm_compute|]. split; by vm_compute. Qed.

Lemma inputs_have_no_predecessor_witness :
  closed example_successors
  ∧ ∃ inputs, Digraph_inputs example_successors = Ok inputs
      ∧ ∀ v, v ∈ inputs ↔ is_Some (example_successors !! v)
                          ∧ ∀ u, ¬ edge example_successors u v.
Proof.
  split; [exact example_closed|].
  apply (inputs_have_no_predecessor example_successors example_closed).
Defined.

Example example_inputs : Digraph_inputs example_successors = Ok [0].
Proof. by vm_compute. Qed.

(** Two operations [1] and [2] that read the variable [0] and feed [3]: the
    results of both are live at [3], they interfere and get buffers of
    different colours. *)
Example diamond_operands_kept_apart :
  ∃ L live g st b1 b2,
    DataFlowGraph_init example_ops 3 [ATransformer; ANodes [3]] = Ok example_dataflow
    ∧ DataFlowGraph_liveness example_ops example_dataflow 4 = Ok L
    ∧ L !! 3 = Some live
    ∧ tensor_description example_ops 1 ∈ live
    ∧ tensor_description example_ops 2 ∈ live
    ∧ InterferenceGraph_init example_ops (lives_values example_order L) = Ok g
    ∧ tensor_description example_ops 2
        ∈ neighbors_of (neighbors g) (tensor_description example_ops 1)
    ∧ color_run g ∅ = Ok st
    ∧ st_store st !! tensor_description example_ops 1 = Some b1
    ∧ st_store st !! tensor_description example_ops 2 = Some b2
    ∧ color b1 ≠ color b2.
Proof.
  eexists _, _, _, _, _, _. split; [by vm_compute|]. split; [by vm_compute|].
  split; [by vm_compute|]. split; [by vm_compute|]. split; [by vm_compute|].
  split; [by vm_compute|]. split; [by vm_compute|]. split; [by vm_compute|].
  split; [by vm_compute|]. split; [by vm_compute|]. by vm_compute.
Qed.

(** A chain [0], [1], [2] of operations of one size: the first and the last
    do not interfere and share a buffer, and two buffers are all the memory. *)
Example chain_buffer_reused :
  ∃ dfg σ' b,
    assign_buffers chain_ops (insertion_order chain_ops 4 [2]) 4 [2] None ∅
    = Ok (dfg, 48%Z, σ')
    ∧ σ' !! tensor_description chain_ops 0 = Some b
    ∧ σ' !! tensor_description chain_ops 2 = Some b
    ∧ σ' !! tensor_description chain_ops 1 ≠ Some b.
Proof.
  eexists _, _, _. split; [by vm_compute|]. split; [by vm_compute|].
  split; by vm_compute.
Qed.

(** The order of iteration shows in the result.  On the chain [0], [2], [1],
    [3] the dict [lives] is iterated in the order of the instructions, the
    first and the third tensor share a buffer, the second and the last
    another, and the memory is that of two tensors; iterated in the order of
    the numbers of the instructions, the same live sets would take three
    buffers. *)
Example detour_lives_in_order :
  ∃ dfg L,
    DataFlowGraph_init detour_ops 4 [ATransformer; ANodes [3]] = Ok dfg
    ∧ DataFlowGraph_instructions dfg 4 = Ok [0; 2; 1; 3]
    ∧ DataFlowGraph_liveness detour_ops dfg 4 = Ok L
    ∧ lives_values (insertion_order detour_ops 4 [3]) L
      = [[10]; [10; 12]; [11; 12]; [11; 13]].
Proof.
  eexists _, _. split; [by vm_compute|]. split; [by vm_compute|].
  split; by vm_compute.
Qed.

Example detour_memory_by_order :
  (∃ dfg σ',
     assign_buffers detour_ops (insertion_order detour_ops 4 [3]) 4 [3] None ∅
     = Ok (dfg, 48%Z, σ')
     ∧ σ' !! 10 = Some (mkBuffer 0 24 None) ∧ σ' !! 11 = Some (mkBuffer 0 24 None)
     ∧ σ' !! 12 = Some (mkBuffer 1 24 None) ∧ σ' !! 13 = Some (mkBuffer 1 24 None))
  ∧ ∃ dfg σ', assign_buffers detour_ops unranked 4 [3] None ∅ = Ok (dfg, 72%Z, σ').
Proof.
  split.
  - eexists _, _. split; [by vm_compute|]. by vm_compute.
  - eexists _, _. by vm_compute.
Qed.

(** Two inputs with one initializer: [_fill_successors] inserts the keys [3],
    [0], [5], so [dfg.inputs] is [0], [5], and the initializer ends with the
    buffer of the input bound last. *)
Example shared_initializer_last_binding :
  ∃ dfg memory σ' inputs,
    fill_keys shared_ops 4 [3] [] = Ok [3; 0; 5]
    ∧ assign_buffers shared_ops (insertion_order shared_ops 4 [3]) 4 [3] None ∅
      = Ok (dfg, memory, σ')
    ∧ Digraph_inputs (successors dfg) = Ok inputs
    ∧ iterate (rank_key (insertion_order shared_ops 4 [3])) inputs = [0; 5]
    ∧ σ' !! tensor_description shared_ops 0 = Some (mkBuffer 2 80 None)
    ∧ σ' !! tensor_description shared_ops 5 = Some (mkBuffer 0 120 None)
    ∧ σ' !! tensor_description shared_ops 8 = Some (mkBuffer 0 120 None).
Proof.
  eexists _, _, _, _. split; [by vm_compute|]. split; [by vm_compute|].
  split; [by vm_compute|]. split; [by vm_compute|]. by vm_compute.
Qed.

(** A chain of five operations under a policy that fuses every pair: the body
    of the constructor leaves one node, a [Function] over the five. *)
Example chain_fused_to_one_kernel :
  ∃ dfg kfg ops,
    DataFlowGraph_init chain_ops 5 [ATransformer; ANodes [4]] = Ok dfg
    ∧ KernelFlowGraph_fuse chain_ops 10 (λ _ _, true) dfg dfg = Ok kfg
    ∧ kfg_successors kfg = [(Function 0 ops, [])]
    ∧ dom ops = {[0; 1; 2; 3; 4]}.
Proof.
  eexists _, _, _. split; [by vm_compute|]. split; [by vm_compute|].
  split; by vm_compute.
Qed.

Lemma edge_check (G : gmap node (gset node)) v w ws :
  G !! v = Some ws → w ∈ ws → edge G v w.
Proof. intros Hv Hw. by exists ws. Qed.

Lemma no_predecessor_check (G : gmap node (gset node)) (i : node) :
  map_Forall (λ _ ws, i ∉ ws) G → ∀ y, ¬ edge G y i.
Proof. intros H y (ws & Hy & Hi). by apply (H y ws Hy). Qed.

Lemma open_map_raises_KeyError_witness :
  edge {[ 1 := {[2]} ]} 1 2 ∧ ({[ 1 := {[2]} ]} : gmap node (gset node)) !! 2 = None
  ∧ Digraph_invert {[ 1 := {[2]} ]} = Raise KeyError
  ∧ Digraph_inputs {[ 1 := {[2]} ]} = Raise KeyError
  ∧ (∀ (A : Type) (fun_ : node → A → A) fuel a,
       Digraph_dfs {[ 1 := {[2]} ]} fun_ fuel a = Raise KeyError)
  ∧ ∀ fuel, Digraph_topsort {[ 1 := {[2]} ]} fuel = Raise KeyError.
Proof.
  assert (edge {[ 1 := {[2]} ]} 1 2) as Hedge.
  { apply (edge_check _ 1 2 {[2]}); [by vm_compute|set_solver]. }
  split; [exact Hedge|]. split; [by vm_compute|].
  apply (open_map_raises_KeyError {[ 1 := {[2]} ]} 1 2 Hedge). by vm_compute.
Defined.

Lemma invert_twice_witness :
  closed example_successors
  ∧ ∃ P, Digraph_invert example_successors = Ok P
      ∧ (∀ v, is_Some (P !! v) ↔ is_Some (example_successors !! v))
      ∧ (∀ v w, edge P w v ↔ edge example_successors v w)
      ∧ Digraph_invert P = Ok example_successors.
Proof.
  split; [exact example_closed|]. apply (invert_twice example_successors example_closed).
Defined.

Lemma topsort_returns_topological_witness :
  Digraph_topsort example_successors 4 = Ok [0; 2; 1; 3]
  ∧ closed example_successors
  ∧ NoDup [0; 2; 1; 3]
  ∧ (∀ v, v ∈ [0; 2; 1; 3] ↔
       ∃ i, is_Some (example_successors !! i) ∧ (∀ x, ¬ edge example_successors x i)
            ∧ rtc (edge example_successors) i v)
  ∧ (∀ v, v ∈ [0; 2; 1; 3] → ¬ tc (edge example_successors) v v)
  ∧ ∀ v w, v ∈ [0; 2; 1; 3] → edge example_successors v w → before [0; 2; 1; 3] v w.
Proof.
  split; [by vm_compute|].
  apply (topsort_returns_topological example_successors 4 [0; 2; 1; 3]). by vm_compute.
Defined.

Lemma topsort_cycle_no_return_witness :
  closed looping_successors ∧ is_Some (looping_successors !! 0)
  ∧ (∀ y, ¬ edge looping_successors y 0)
  ∧ rtc (edge looping_successors) 0 1 ∧ tc (edge looping_successors) 1 1
  ∧ ∀ fuel, Digraph_topsort looping_successors fuel = OutOfFuel.
Proof.
  assert (closed looping_successors) as Hcl by (apply closed_check; by compute_done).
  assert (is_Some (looping_successors !! 0)) as H0 by (eexists; by vm_compute).
  assert (∀ y, ¬ edge looping_successors y 0) as Hno.
  { apply no_predecessor_check. by compute_done. }
  assert (edge looping_successors 0 1) as H01.
  { apply (edge_check _ 0 1 {[1]}); [by vm_compute|set_solver]. }
  assert (edge looping_successors 1 2) as H12.
  { apply (edge_check _ 1 2 {[2]}); [by vm_compute|set_solver]. }
  assert (edge looping_successors 2 1) as H21.
  { apply (edge_check _ 2 1 {[1]}); [by vm_compute|set_solver]. }
  assert (rtc (edge looping_successors) 0 1) as Hr by (by apply rtc_once).
  assert (tc (edge looping_successors) 1 1) as Ht.
  { eapply tc_l; [exact H12|]. by apply tc_once. }
  split; [exact Hcl|]. split; [exact H0|]. split; [exact Hno|].
  split; [exact Hr|]. split; [exact Ht|].
  exact (topsort_cycle_no_return looping_successors 0 1 Hcl H0 Hno Hr Ht).
Defined.

Lemma dataflow_cycle_no_return_witness :
  0 ∈ [0] ∧ rtc (uses looping_ops) 0 1 ∧ tc (uses looping_ops) 1 1
  ∧ ∀ fuel, DataFlowGraph_init looping_ops fuel [ATransformer; ANodes [0]] = OutOfFuel.
Proof.
  assert (uses looping_ops 0 1) as H01 by (unfold uses; cbn; set_solver).
  assert (uses looping_ops 1 2) as H12 by (unfold uses; cbn; set_solver).
  assert (uses looping_ops 2 1) as H21 by (unfold uses; cbn; set_solver).
  assert (rtc (uses looping_ops) 0 1) as Hr by (by apply rtc_once).
  assert (tc (uses looping_ops) 1 1) as Ht.
  { eapply tc_l; [exact H12|]. by apply tc_once. }
  assert (0 ∈ [0]) as Hin by set_solver.
  split; [exact Hin|]. split; [exact Hr|]. split; [exact Ht|].
  exact (dataflow_cycle_no_return looping_ops [0] 0 1 Hin Hr Ht).
Defined.

Lemma dataflow_graph_shape_witness :
  DataFlowGraph_init example_ops 3 [ATransformer; ANodes [3]] = Ok example_dataflow
  ∧ results example_dataflow = [3]
  ∧ (∀ k, is_Some (successors example_dataflow !! k) ↔
       ∃ r, r ∈ [3] ∧ rtc (uses example_ops) r k)
  ∧ ∀ v w, edge (successors example_dataflow) v w ↔
      is_Some (successors example_dataflow !! w) ∧ v ∈ args example_ops w.
Proof.
  split; [by vm_compute|].
  apply (dataflow_graph_shape example_ops 3 [3] example_dataflow). by vm_compute.
Defined.

Lemma liveness_characterised_witness :
  DataFlowGraph_instructions example_dataflow 4 = Ok [0; 2; 1; 3]
  ∧ ([0; 2; 1; 3] = [] →
       DataFlowGraph_liveness example_ops example_dataflow 4 = Raise IndexError)
  ∧ ([0; 2; 1; 3] ≠ [] →
     ∃ L, DataFlowGraph_liveness example_ops example_dataflow 4 = Ok L
       ∧ (∀ o, is_Some (L !! o) ↔ o ∈ [0; 2; 1; 3])
       ∧ ∀ pre o rest, [0; 2; 1; 3] = pre ++ o :: rest →
           ∃ live, L !! o = Some live
             ∧ ∀ t, t ∈ live ↔
                 t ∈ descriptions example_ops (args example_ops o)
                 ∨ needed example_ops (live_at_end example_ops example_dataflow) rest t).
Proof.
  split; [by vm_compute|].
  apply (liveness_characterised example_ops example_dataflow 4 [0; 2; 1; 3]). by vm_compute.
Defined.

Lemma interference_edges_are_colive_witness :
  Forall NoDup [[1; 2]; [2; 3]]
  ∧ ∃ g, InterferenceGraph_init example_ops [[1; 2]; [2; 3]] = Ok g
      ∧ (∀ u, is_Some (neighbors g !! u) ↔ u ∈ concat [[1; 2]; [2; 3]])
      ∧ (∀ u v, v ∈ neighbors_of (neighbors g) u ↔
           u ≠ v ∧ live_together [[1; 2]; [2; 3]] u v)
      ∧ ∀ u, u ∈ concat [[1; 2]; [2; 3]] →
          weights_getitem (weights g) u = Ok (weight example_ops u).
Proof.
  assert (Forall NoDup [[1; 2]; [2; 3]]) as Hnd by (by compute_done).
  split; [exact Hnd|].
  exact (interference_edges_are_colive example_ops [[1; 2]; [2; 3]] Hnd).
Defined.

Lemma bind_initializers_frame_witness :
  (∀ op i, op ∈ [0] → i ∈ initializers example_ops op →
     tensor_description example_ops 0 ≠ tensor_description example_ops i
     ∧ ∀ a, a ∈ args example_ops i → is_NumPyTensor example_ops a = true →
         tensor_description example_ops 0 ≠ tensor_description example_ops a)
  ∧ bind_initializers example_ops [0] ∅ !! tensor_description example_ops 0
    = (∅ : store) !! tensor_description example_ops 0.
Proof.
  assert (∀ op i, op ∈ [0] → i ∈ initializers example_ops op →
     tensor_description example_ops 0 ≠ tensor_description example_ops i
     ∧ ∀ a, a ∈ args example_ops i → is_NumPyTensor example_ops a = true →
         tensor_description example_ops 0 ≠ tensor_description example_ops a) as H.
  { intros op i ->%list_elem_of_singleton ->%list_elem_of_singleton.
    split; [done|]. by intros a ->%list_elem_of_singleton _. }
  split; [exact H|].
  exact (bind_initializers_frame example_ops [0] ∅ (tensor_description example_ops 0) H).
Defined.

Lemma assign_buffers_covers_graph_witness :
  ∃ a, assign_buffers_run example_ops example_order 4 [3] None ∅ = Ok a
    ∧ as_memory a = total_size (as_buffers a)
    ∧ (∀ op, is_Some (successors (as_dfg a) !! op) →
         holds_at (allocated example_ops (as_buffers a)) (as_store a)
                  (tensor_description example_ops op))
    ∧ ∃ inputs, Digraph_inputs (successors (as_dfg a)) = Ok inputs
        ∧ ∀ op i, op ∈ inputs → i ∈ initializers example_ops op →
            holds_at (allocated example_ops (as_buffers a)) (as_store a)
                     (tensor_description example_ops i)
            ∧ ∀ c, c ∈ args example_ops i → is_NumPyTensor example_ops c = true →
                holds_at (allocated example_ops (as_buffers a)) (as_store a)
                         (tensor_description example_ops c).
Proof.
  eexists. split; [by vm_compute|].
  apply (assign_buffers_covers_graph example_ops example_order 4 [3] None ∅).
  by vm_compute.
Defined.

Lemma operands_kept_apart_witness :
  ∃ a, assign_buffers_run example_ops example_order 4 [3] None ∅ = Ok a
    ∧ (∀ op v1 v2,
         is_Some (successors (as_dfg a) !! op) →
         v1 ∈ args example_ops op → v2 ∈ args example_ops op →
         tensor_description example_ops v1 ≠ tensor_description example_ops v2 →
         ∃ b1 b2, as_colored a !! tensor_description example_ops v1 = Some b1
                  ∧ as_colored a !! tensor_description example_ops v2 = Some b2
                  ∧ color b1 ≠ color b2)
    ∧ ∀ r1 r2,
        r1 ∈ [3] → r2 ∈ [3] →
        tensor_description example_ops r1 ≠ tensor_description example_ops r2 →
        ∃ b1 b2, as_colored a !! tensor_description example_ops r1 = Some b1
                 ∧ as_colored a !! tensor_description example_ops r2 = Some b2
                 ∧ color b1 ≠ color b2.
Proof.
  eexists. split; [by vm_compute|].
  apply (operands_kept_apart example_ops example_order 4 [3] None ∅).
  by vm_compute.
Defined.

Lemma transfer_edges_contracts_witness :
  1 ≠ 2
  ∧ (true = false → example_successors !! 1 = None →
       transfer_edges true 1 2 example_successors = Raise KeyError)
  ∧ (true = true ∨ is_Some (example_successors !! 1) →
     ∃ dct', transfer_edges true 1 2 example_successors = Ok dct'
       ∧ (∀ n, is_Some (dct' !! n) ↔ n = 1 ∨ (n ≠ 2 ∧ is_Some (example_successors !! n)))
       ∧ (∀ x y, edge dct' x y → x ≠ 2 ∧ y ≠ 2)
       ∧ ∀ x y, edge dct' x y ↔ contracted 1 2 (edge example_successors) x y).
Proof.
  assert (1 ≠ 2) as H by lia.
  split; [exact H|]. exact (transfer_edges_contracts true 1 2 example_successors H).
Defined.

Lemma compute_paths_reachability_witness :
  closed example_successors ∧ acyclic example_successors
  ∧ base.size example_successors ≤ 4
  ∧ ∃ path_from bad_path_from,
      compute_paths never_fusible example_successors 4 = Ok (path_from, bad_path_from)
      ∧ (∀ v, is_Some (example_successors !! v) →
           ∃ p b, path_from !! v = Some p ∧ bad_path_from !! v = Some b
                  ∧ (∀ x, x ∈ p ↔ rtc (edge example_successors) v x)
                  ∧ ∀ x, x ∈ b ↔ bad_path never_fusible example_successors v x)
      ∧ ∀ v, example_successors !! v = None →
          path_from !! v = None ∧ bad_path_from !! v = None.
Proof.
  assert (base.size example_successors ≤ 4) as Hsize by (by compute_done).
  split; [exact example_closed|]. split; [exact example_acyclic|]. split; [exact Hsize|].
  exact (compute_paths_reachability never_fusible example_successors 4
           example_closed example_acyclic Hsize).
Defined.

Lemma default_policy_fuses_nothing_witness :
  closed (successors example_dataflow) ∧ acyclic (successors example_dataflow)
  ∧ base.size (successors example_dataflow) ≤ 10
  ∧ length (sorted_edges (successors example_dataflow)) ≤ 10
  ∧ ((∀ v, is_Some (successors example_dataflow !! v) →
        ∃ w, edge (successors example_dataflow) v w ∨ edge (successors example_dataflow) w v) →
     KernelFlowGraph_fuse example_ops 10 never_fusible example_dataflow example_dataflow
     = Ok {| kfg_successors :=
               (λ alst, (wrap_alone example_ops example_dataflow alst.1,
                         wrap_alone example_ops example_dataflow <$> elements alst.2))
                 <$> map_to_list (successors example_dataflow);
             kfg_results := results example_dataflow; kfg_dataflow := example_dataflow |})
  ∧ ∀ v, is_Some (successors example_dataflow !! v) →
      (∀ w, ¬ edge (successors example_dataflow) v w
            ∧ ¬ edge (successors example_dataflow) w v) →
      KernelFlowGraph_fuse example_ops 10 never_fusible example_dataflow example_dataflow
      = Raise KeyError.
Proof.
  assert (base.size (successors example_dataflow) ≤ 10) as Hsize by (by compute_done).
  assert (length (sorted_edges (successors example_dataflow)) ≤ 10) as Hlen
    by (by compute_done).
  split; [exact example_closed|]. split; [exact example_acyclic|].
  split; [exact Hsize|]. split; [exact Hlen|].
  exact (default_policy_fuses_nothing example_ops 10 example_dataflow example_dataflow
           example_closed example_acyclic Hsize Hlen).
Defined.

Example example_default_fusion :
  ∃ kfg,
    KernelFlowGraph_fuse example_ops 10 never_fusible example_dataflow example_dataflow
    = Ok kfg
    ∧ kfg_successors kfg
      = (λ alst, (wrap_alone example_ops example_dataflow alst.1,
                  wrap_alone example_ops example_dataflow <$> elements alst.2))
          <$> map_to_list (successors example_dataflow).
Proof. eexists. split; by vm_compute. Qed.

Lemma fusion_keeps_partition_witness :
  ∃ st,
    fuse_loop 10 (sorted_edges example_successors)
      {| fs_successors := example_successors; fs_path_from := example_paths.1;
         fs_bad_path_from := example_paths.2;
         fs_clusters :=
           list_to_map ((λ x, (x, {[x]}))
                          <$> (e ← sorted_edges example_successors; [e.1; e.2])) |}
    = Ok st
    ∧ fs_clusters st = {[ 0 := {[0; 1; 2; 3]} ]}
    ∧ clusters_partition (fs_clusters st)
        (list_to_set (e ← sorted_edges example_successors; [e.1; e.2])).
Proof.
  eexists. split; [by vm_compute|]. split; [by vm_compute|].
  apply (fusion_keeps_partition 10 example_successors example_paths.1 example_paths.2).
  by vm_compute.
Defined.

Lemma color_memory_bounds_witness :
  (∀ t, t ∈ concat overlapping_lives → 0 ≤ itemsize example_ops t)%Z
  ∧ ∃ g memory buffers g' σ',
      InterferenceGraph_init example_ops overlapping_lives = Ok g
      ∧ InterferenceGraph_color g ∅ = Ok (memory, buffers, g', σ')
      ∧ (∀ l, l ∈ overlapping_lives → NoDup l → total_weight example_ops l ≤ memory)%Z
      ∧ (memory ≤ total_weight example_ops (first_seen (concat overlapping_lives)))%Z.
Proof.
  assert (∀ t, t ∈ concat overlapping_lives → 0 ≤ itemsize example_ops t)%Z as H.
  { intros t _. simpl. lia. }
  split; [exact H|].
  exact (color_memory_bounds example_ops overlapping_lives ∅ H).
Defined.

(** The two live sets need 184 and 200 bytes; the colourer returns 200, the
    first and the last tensor sharing the larger buffer, where buffers of
    their own would take 288. *)
Example example_memory :
  ∃ g buffers g' σ',
    InterferenceGraph_init example_ops overlapping_lives = Ok g
    ∧ InterferenceGraph_color g ∅ = Ok (200%Z, buffers, g', σ')
    ∧ total_weight example_ops (first_seen (concat overlapping_lives)) = 288%Z
    ∧ total_weight example_ops <$> overlapping_lives = [184%Z; 200%Z].
Proof.
  eexists _, _, _, _. split; [by vm_compute|]. split; [by vm_compute|].
  split; by vm_compute.
Qed.

Lemma memory_holds_live_tensors_witness :
  ∃ a, assign_buffers_run example_ops example_order 4 [3] None ∅ = Ok a
    ∧ (∀ t, 0 ≤ itemsize example_ops t)%Z
    ∧ ∃ L, DataFlowGraph_liveness example_ops (as_dfg a) 4 = Ok L
        ∧ (∀ op, is_Some (successors (as_dfg a) !! op) → is_Some (L !! op))
        ∧ ∀ op live, L !! op = Some live →
            (total_weight example_ops (elements live) ≤ as_memory a)%Z.
Proof.
  assert (∀ t, 0 ≤ itemsize example_ops t)%Z as H by (intros t; simpl; lia).
  eexists. split; [by vm_compute|]. split; [exact H|].
  apply (memory_holds_live_tensors example_ops example_order 4 [3] None ∅);
    [by vm_compute|exact H].
Defined.


